(** * Referral reconciliation: a shallow embedding and its properties

    The development follows the TypeScript sources of the referral
    dashboard:

    - the reconciliation engine [reconcile] (grouping, deduplication, gap
      counting, replay, choice of the active appointment);
    - the summaries [getDerivedMetrics] and [computeDataQualitySummary];
    - the [ChunkedBatchWriter] in front of Firestore;
    - the middlewares [authenticate] and [requireAdmin];
    - the handler of [POST /uploads].

    Modelling choices.

    - JavaScript numbers that hold sequence numbers and counters are
      integers on the paths below and are modelled by [Z]; strings are
      [String.string].  Counters and the sums over them are exact.
      Sequence numbers are as large as a double can be, so the arithmetic
      on them rounds as the arithmetic of doubles does ([JsNumber]).
    - A plain object used as a dictionary is the list of its own properties
      in creation order, together with what the language adds on top:
      enumeration puts array-index keys first, and reading a key that is
      not an own property falls through to [Object.prototype].
    - A function that can throw returns an [outcome].
    - A Firestore reference is the list of the segments of its path, built
      the way the client builds it: ids are split at ["/"], and a
      reference that does not name a document throws.
    - What the code takes from outside is a parameter: [parseISO] of
      date-fns, the token verifier and the user store of Firebase, the
      identifiers and timestamps drawn by a request, and the engine that
      the server imports from its own domain folder. *)

From Stdlib Require Import ZArith NArith List String Ascii Bool Lia.
From Stdlib Require Import Permutation Sorted DecimalString.
Import ListNotations.

Local Open Scope string_scope.
Local Open Scope Z_scope.
Local Open Scope list_scope.

Set Implicit Arguments.

(* ================================================================== *)
(** * Stable sorting, as [Array.prototype.sort] with a comparator *)
(* ================================================================== *)

Module JsArray.

Section Sort.
Context {A : Type}.
Variable cmp : A -> A -> Z.

(** [x] is placed before the first element it does not compare greater
    than, so elements that compare equal keep their input order. *)
Fixpoint insert (x : A) (l : list A) : list A :=
  match l with
  | [] => [x]
  | y :: ys => if cmp x y <=? 0 then x :: y :: ys else y :: insert x ys
  end.

Fixpoint sort (l : list A) : list A :=
  match l with
  | [] => []
  | x :: xs => insert x (sort xs)
  end.
End Sort.

End JsArray.

(* ================================================================== *)
(** * Plain objects used as dictionaries *)
(* ================================================================== *)

Module JsObject.

(** The property names every object literal inherits from
  [Object.prototype]. *)
Definition inherited_names : list string :=
  [ "constructor"; "__defineGetter__"; "__defineSetter__"; "hasOwnProperty";
    "__lookupGetter__"; "__lookupSetter__"; "isPrototypeOf";
    "propertyIsEnumerable"; "toString"; "valueOf"; "__proto__";
    "toLocaleString" ].

Definition inherited (k : string) : bool :=
  existsb (String.eqb k) inherited_names.

Definition digit_of (c : ascii) : option N :=
  let n := N_of_ascii c in
  if ((48 <=? n) && (n <=? 57))%N then Some (n - 48)%N else None.

Fixpoint digits_value (s : string) (acc : N) : option N :=
  match s with
  | EmptyString => Some acc
  | String c s' =>
      match digit_of c with
      | Some d => digits_value s' (10 * acc + d)%N
      | None => None
      end
  end.

(** An array index is a canonical decimal numeral below [2^32 - 1]. *)
Definition array_index (k : string) : option N :=
  match k with
  | EmptyString => None
  | String "0"%char EmptyString => Some 0%N
  | String "0"%char _ => None
  | _ =>
      match digits_value k 0 with
      | Some n => if (n <? 4294967295)%N then Some n else None
      | None => None
      end
  end.

Definition is_index (k : string) : bool :=
  match array_index k with Some _ => true | None => false end.

Definition index_of (k : string) : Z :=
  match array_index k with Some n => Z.of_N n | None => 0 end.

Section Props.
Context {V : Type}.

(** Own properties, in creation order. *)
Definition props := list (string * V).

Fixpoint own_get (k : string) (o : props) : option V :=
  match o with
  | [] => None
  | (k', v) :: o' => if String.eqb k k' then Some v else own_get k o'
  end.

(** Writing an own property keeps its place; a new one goes last. *)
Fixpoint own_set (k : string) (v : V) (o : props) : props :=
  match o with
  | [] => [(k, v)]
  | (k', v') :: o' =>
      if String.eqb k k' then (k', v) :: o' else (k', v') :: own_set k v o'
  end.

(** The order of [Object.keys], [Object.values] and [Object.entries]:
    array indices ascending, then the other keys in creation order. *)
Definition entries (o : props) : list (string * V) :=
  JsArray.sort (fun a b => index_of (fst a) - index_of (fst b))
               (filter (fun kv => is_index (fst kv)) o)
  ++ filter (fun kv => negb (is_index (fst kv))) o.

Definition keys (o : props) : list string := map fst (entries o).
Definition values (o : props) : list V := map snd (entries o).
End Props.

Arguments props : clear implicits.

End JsObject.

(* ================================================================== *)
(** * Domain model (models.ts) *)
(* ================================================================== *)

Record Payload := {
  p_status : option string;
  p_appt_id : option string;
  p_start_time : option string
}.

Record ReferralEvent := {
  referral_id : string;
  seq : Z;
  type : string;
  payload : Payload
}.

Record Appointment := {
  appt_id : string;
  start_time : string
}.

Record Metrics := {
  duplicates : Z;
  seqGaps : Z;
  terminalOverrides : Z;
  reschedules : Z;
  cancelledAppts : Z
}.

(** What the prototype slot of an [appointments] object can hold.  It
  starts as [Object.prototype]; an assignment to the key ["__proto__"]
  reaches the inherited setter and replaces it by the assigned
  appointment, or by [null]. *)
Inductive Prototype :=
| ProtoObject
| ProtoAppointment (a : Appointment)
| ProtoNull.

(** The [appointments] record of a referral: own entries ([None] is the
  cancelled marker [null]) and the prototype slot. *)
Record Appointments := {
  own : JsObject.props (option Appointment);
  proto : Prototype
}.

Record ReferralState := {
  st_referral_id : string;
  status : string;
  active_appointment : option Appointment;
  metrics : Metrics;
  events : list ReferralEvent;
  appointments : Appointments
}.

Definition ReconciledMap := JsObject.props ReferralState.

(** A call either returns or throws. *)
Inductive JsError := TypeError | Error.

Inductive outcome (A : Type) :=
| Returned (a : A)
| Raised (e : JsError).

Arguments Returned {A} a.
Arguments Raised {A} e.

(* ================================================================== *)
(** * Integer-valued numbers *)
(* ================================================================== *)

(** A JavaScript number is a double.  The integers among the doubles are
    kept as [Z]; a sum or difference of two of them is the exact result
    rounded to 53 significant bits, to the nearest double and, halfway
    between two, to the one with the even significand.  Up to [2 ^ 53]
    in magnitude nothing is rounded.  Results past the largest finite
    double (about 1.8e308) would be infinite and are not modelled. *)
Module JsNumber.

Definition round (z : Z) : Z :=
  let a := Z.abs z in
  if a <? 2 ^ 53 then z
  else
    let e := Z.log2 a - 52 in
    let q := a / 2 ^ e in
    let r := a mod 2 ^ e in
    let half := 2 ^ (e - 1) in
    let up := (half <? r) || ((r =? half) && Z.odd q) in
    Z.sgn z * ((if up then q + 1 else q) * 2 ^ e).

Definition add (a b : Z) : Z := round (a + b).
Definition sub (a b : Z) : Z := round (a - b).

(** ** [Number.prototype.toString], as a template string applies it *)

Definition decimal (n : Z) : string := NilZero.string_of_int (Z.to_int n).

(** The multiple of [10 ^ (n - k)] next to [a] that reads back as [a]: the
    nearer of the two neighbours when both do. *)
Definition candidate (a n k : Z) : option Z :=
  let scale := 10 ^ (n - k) in
  let lo := a / scale * scale in
  let hi := lo + scale in
  match round lo =? a, round hi =? a with
  | true, true =>
      if a - lo <? hi - a then Some lo
      else if hi - a <? a - lo then Some hi
      else if Z.even (a / scale) then Some lo else Some hi
  | true, false => Some lo
  | false, true => Some hi
  | false, false => None
  end.

(** The decimal with the fewest significant digits that reads back as
    [a]; seventeen digits always suffice for a double. *)
Fixpoint shortest_from (fuel : nat) (a n k : Z) : Z :=
  match fuel with
  | O => a
  | S fuel =>
      match candidate a n k with
      | Some c => c
      | None => shortest_from fuel a n (k + 1)
      end
  end.

Definition shortest (a : Z) : Z :=
  shortest_from 17 a (Z.of_nat (String.length (decimal a))) 1.

Fixpoint strip_zeros (s : string) : string :=
  match s with
  | EmptyString => EmptyString
  | String c rest =>
      match strip_zeros rest with
      | EmptyString =>
          if Ascii.eqb c "0" then EmptyString else String c EmptyString
      | t => String c t
      end
  end.

(** Up to 21 digits the integer is printed in full; from [1e21] on, in
    exponent form. *)
Definition format (c : Z) : string :=
  let d := decimal c in
  let n := Z.of_nat (String.length d) in
  if n <=? 21 then d
  else
    match strip_zeros d with
    | EmptyString => d
    | String h EmptyString => String h EmptyString ++ "e+" ++ decimal (n - 1)
    | String h t =>
        String h EmptyString ++ "." ++ t ++ "e+" ++ decimal (n - 1)
    end.

Definition to_string (n : Z) : string :=
  if Z.abs n <? 2 ^ 53 then decimal n
  else (if n <? 0 then "-" else "") ++ format (shortest (Z.abs n)).

End JsNumber.

(* ================================================================== *)
(** * The reconciliation engine (reconcile.ts) *)
(* ================================================================== *)

Import JsObject.

Definition TERMINAL_STATUSES : list string := ["COMPLETED"; "CANCELLED"].

(** [Array.prototype.includes] on an array of strings. *)
Definition includes (l : list string) (s : string) : bool :=
  existsb (String.eqb s) l.

(** An optional string field used as a condition: [undefined] and the empty
    string are falsy. *)
Definition truthy (o : option string) : option string :=
  match o with
  | Some s => if String.eqb s "" then None else Some s
  | None => None
  end.

(** ** Grouping by [referral_id] *)

(** One turn of the first [forEach].  When the key is not an own property
    but names a member of [Object.prototype], the guard reads that member,
    finds it truthy and skips the initialisation; the member has no [push],
    and the call throws. *)
Definition group_step (acc : outcome (props (list ReferralEvent)))
    (event : ReferralEvent) : outcome (props (list ReferralEvent)) :=
  match acc with
  | Raised e => Raised e
  | Returned eventsByReferral =>
      match own_get (referral_id event) eventsByReferral with
      | Some l =>
          Returned (own_set (referral_id event) (l ++ [event]) eventsByReferral)
      | None =>
          if inherited (referral_id event) then Raised TypeError
          else Returned (own_set (referral_id event) [event] eventsByReferral)
      end
  end.

Definition group_by_referral (events : list ReferralEvent)
    : outcome (props (list ReferralEvent)) :=
  fold_left group_step events
    (Returned (A := props (list ReferralEvent)) []).

(** ** Deduplication by [seq] *)

(** The [Map<number, ReferralEvent>]: its entries in insertion order. *)
Definition SeqMap := list (Z * ReferralEvent).

Definition map_has (k : Z) (m : SeqMap) : bool :=
  existsb (fun kv => fst kv =? k) m.

Definition dedup_step (acc : SeqMap * Z) (event : ReferralEvent)
    : SeqMap * Z :=
  let '(uniqueEventsMap, duplicateCount) := acc in
  if map_has (seq event) uniqueEventsMap
  then (uniqueEventsMap, duplicateCount + 1)
  else (uniqueEventsMap ++ [(seq event, event)], duplicateCount).

Definition dedup (rawEvents : list ReferralEvent) : SeqMap * Z :=
  fold_left dedup_step rawEvents ([], 0).

Definition sort_by_seq (l : list ReferralEvent) : list ReferralEvent :=
  JsArray.sort (fun a b => JsNumber.sub (seq a) (seq b)) l.

(** ** Gap counting *)

(** The loop over consecutive pairs, from the running value of
    [seqGaps]. *)
Fixpoint count_gaps_from (seqGaps : Z) (sortedEvents : list ReferralEvent)
    : Z :=
  match sortedEvents with
  | a :: (b :: _) as rest =>
      let diff := JsNumber.sub (seq b) (seq a) in
      count_gaps_from
        (if 1 <? diff then JsNumber.add seqGaps (JsNumber.sub diff 1)
         else seqGaps)
        rest
  | _ => seqGaps
  end.

Definition count_gaps (sortedEvents : list ReferralEvent) : Z :=
  count_gaps_from 0 sortedEvents.

(** ** Replay *)

(** What reading [state.appointments[apptId]] can yield: [undefined],
    [null], an appointment, or some other truthy value that has no
    [start_time] (an inherited method, [Object.prototype] itself, or a
    string field of an appointment sitting in the prototype slot). *)
Inductive Looked :=
| LUndefined
| LNull
| LAppointment (a : Appointment)
| LForeign.

Definition appt_lookup (k : string) (o : Appointments) : Looked :=
  match own_get k (own o) with
  | Some (Some a) => LAppointment a
  | Some None => LNull
  | None =>
      match proto o with
      | ProtoNull => LUndefined
      | ProtoObject => if inherited k then LForeign else LUndefined
      | ProtoAppointment a =>
          if String.eqb k "__proto__" then LAppointment a
          else if String.eqb k "appt_id" || String.eqb k "start_time"
                  || inherited k
               then LForeign
               else LUndefined
      end
  end.

Definition looked_truthy (v : Looked) : bool :=
  match v with
  | LAppointment _ | LForeign => true
  | LUndefined | LNull => false
  end.

(** [v?.start_time] *)
Definition looked_start_time (v : Looked) : option string :=
  match v with
  | LAppointment a => Some (start_time a)
  | _ => None
  end.

(** [state.appointments[k] = v].  The key ["__proto__"] reaches the
    [Object.prototype] setter as long as that is still on the chain. *)
Definition appt_assign (k : string) (v : option Appointment)
    (o : Appointments) : Appointments :=
  match own_get k (own o), String.eqb k "__proto__", proto o with
  | None, true, ProtoObject
  | None, true, ProtoAppointment _ =>
      {| own := own o;
         proto := match v with
                  | Some a => ProtoAppointment a
                  | None => ProtoNull
                  end |}
  | _, _, _ => {| own := own_set k v (own o); proto := proto o |}
  end.

Definition with_status (s : string) (st : ReferralState) : ReferralState :=
  {| st_referral_id := st_referral_id st; status := s;
     active_appointment := active_appointment st; metrics := metrics st;
     events := events st; appointments := appointments st |}.

Definition with_metrics (m : Metrics) (st : ReferralState) : ReferralState :=
  {| st_referral_id := st_referral_id st; status := status st;
     active_appointment := active_appointment st; metrics := m;
     events := events st; appointments := appointments st |}.

Definition with_appointments (a : Appointments) (st : ReferralState)
    : ReferralState :=
  {| st_referral_id := st_referral_id st; status := status st;
     active_appointment := active_appointment st; metrics := metrics st;
     events := events st; appointments := a |}.

Definition with_active (a : option Appointment) (st : ReferralState)
    : ReferralState :=
  {| st_referral_id := st_referral_id st; status := status st;
     active_appointment := a; metrics := metrics st;
     events := events st; appointments := appointments st |}.

Definition bump_terminalOverrides (m : Metrics) : Metrics :=
  {| duplicates := duplicates m; seqGaps := seqGaps m;
     terminalOverrides := terminalOverrides m + 1;
     reschedules := reschedules m; cancelledAppts := cancelledAppts m |}.

Definition bump_reschedules (m : Metrics) : Metrics :=
  {| duplicates := duplicates m; seqGaps := seqGaps m;
     terminalOverrides := terminalOverrides m;
     reschedules := reschedules m + 1; cancelledAppts := cancelledAppts m |}.

Definition bump_cancelledAppts (m : Metrics) : Metrics :=
  {| duplicates := duplicates m; seqGaps := seqGaps m;
     terminalOverrides := terminalOverrides m;
     reschedules := reschedules m; cancelledAppts := cancelledAppts m + 1 |}.

(** B) Status logic. *)
Definition status_logic (acc : ReferralState * bool) (event : ReferralEvent)
    : ReferralState * bool :=
  let '(state, isTerminal) := acc in
  if String.eqb (type event) "STATUS_UPDATE" then
    match truthy (p_status (payload event)) with
    | Some newStatus =>
        let newIsTerminal := includes TERMINAL_STATUSES newStatus in
        if isTerminal then
          if newIsTerminal
          then (with_metrics (bump_terminalOverrides (metrics state))
                  (with_status newStatus state), isTerminal)
          else (state, isTerminal)
        else
          (with_status newStatus state,
           if newIsTerminal then true else isTerminal)
    | None => (state, isTerminal)
    end
  else (state, isTerminal).

(** C) Appointment logic, [APPOINTMENT_SET]. *)
Definition appointment_set_logic (state : ReferralState)
    (event : ReferralEvent) : ReferralState :=
  if String.eqb (type event) "APPOINTMENT_SET" then
    match truthy (p_appt_id (payload event)),
          truthy (p_start_time (payload event)) with
    | Some apptId, Some startTime =>
        let seen := appt_lookup apptId (appointments state) in
        let state :=
          if looked_truthy seen then
            match looked_start_time seen with
            | Some t =>
                if String.eqb t startTime then state
                else with_metrics (bump_reschedules (metrics state)) state
            | None => with_metrics (bump_reschedules (metrics state)) state
            end
          else state in
        with_appointments
          (appt_assign apptId
             (Some {| appt_id := apptId; start_time := startTime |})
             (appointments state))
          state
    | _, _ => state
    end
  else state.

(** C) Appointment logic, [APPOINTMENT_CANCELLED]. *)
Definition appointment_cancelled_logic (state : ReferralState)
    (event : ReferralEvent) : ReferralState :=
  if String.eqb (type event) "APPOINTMENT_CANCELLED" then
    match truthy (p_appt_id (payload event)) with
    | Some apptId =>
        if looked_truthy (appt_lookup apptId (appointments state)) then
          with_metrics (bump_cancelledAppts (metrics state))
            (with_appointments (appt_assign apptId None (appointments state))
               state)
        else state
    | None => state
    end
  else state.

(** One turn of the replay loop: the three guarded blocks in order. *)
Definition replay_step (acc : ReferralState * bool) (event : ReferralEvent)
    : ReferralState * bool :=
  let '(state, isTerminal) := status_logic acc event in
  let state := appointment_set_logic state event in
  let state := appointment_cancelled_logic state event in
  (state, isTerminal).

Definition replay (sortedEvents : list ReferralEvent)
    (start : ReferralState * bool) : ReferralState * bool :=
  fold_left replay_step sortedEvents start.

Section Engine.

(** [parseISO] of date-fns, as the instant it denotes; [None] stands for
    an invalid date. *)
Variable parseISO : string -> option Z.

(** [compareAsc (parseISO a) (parseISO b) < 0]: with an invalid date on
    either side [compareAsc] is [NaN], and the test fails. *)
Definition earlier (a b : Appointment) : bool :=
  match parseISO (start_time a), parseISO (start_time b) with
  | Some x, Some y => x <? y
  | _, _ => false
  end.

Definition best_step (bestAppt : option Appointment)
    (appt : option Appointment) : option Appointment :=
  match appt with
  | None => bestAppt
  | Some a =>
      match bestAppt with
      | None => Some a
      | Some b => if earlier a b then Some a else Some b
      end
  end.

Definition find_best (o : Appointments) : option Appointment :=
  fold_left best_step (values (own o)) None.

Definition initial_state (referralId : string) (duplicateCount gaps : Z)
    (sortedEvents : list ReferralEvent) : ReferralState :=
  {| st_referral_id := referralId;
     status := "CREATED";
     active_appointment := None;
     metrics := {| duplicates := duplicateCount; seqGaps := gaps;
                   terminalOverrides := 0; reschedules := 0;
                   cancelledAppts := 0 |};
     events := sortedEvents;
     appointments := {| own := []; proto := ProtoObject |} |}.

Definition finalize (acc : ReferralState * bool) : ReferralState :=
  let '(state, isTerminal) := acc in
  if isTerminal then with_active None state
  else with_active (find_best (appointments state)) state.

(** The body of the per-referral loop. *)
Definition reconcile_referral (referralId : string)
    (rawEvents : list ReferralEvent) : ReferralState :=
  let '(uniqueEventsMap, duplicateCount) := dedup rawEvents in
  let sortedEvents := sort_by_seq (map snd uniqueEventsMap) in
  let gaps := count_gaps sortedEvents in
  finalize
    (replay sortedEvents
       (initial_state referralId duplicateCount gaps sortedEvents, false)).

Definition reconcile (events : list ReferralEvent) : outcome ReconciledMap :=
  match group_by_referral events with
  | Raised e => Raised e
  | Returned eventsByReferral =>
      Returned
        (fold_left
           (fun map kv =>
              own_set (fst kv) (reconcile_referral (fst kv) (snd kv)) map)
           (entries eventsByReferral) [])
  end.

End Engine.

(** A stand-in for [parseISO] on timestamps of the shape
    [YYYY-MM-DDThh:mm:ssZ], enough to run the engine on sample data: the
    fourteen digits read as one number, which orders such timestamps as
    their instants do.  Anything else is an invalid date. *)
Definition sample_parseISO (s : string) : option Z :=
  match s with
  | String y1 (String y2 (String y3 (String y4 (String "-"
    (String m1 (String m2 (String "-" (String d1 (String d2 (String "T"
    (String h1 (String h2 (String ":" (String i1 (String i2 (String ":"
    (String s1 (String s2 (String "Z" EmptyString))))))))))))))))))) =>
      option_map Z.of_N
        (digits_value
           (String y1 (String y2 (String y3 (String y4 (String m1 (String m2
           (String d1 (String d2 (String h1 (String h2 (String i1 (String i2
           (String s1 (String s2 EmptyString)))))))))))))) 0%N)
  | _ => None
  end.

(* ================================================================== *)
(** * Aggregate metrics and data quality (deriveMetrics.ts, dataQuality.ts) *)
(* ================================================================== *)

Record DerivedMetrics := {
  total : Z;
  completed : Z;
  cancelled : Z;
  inProgress : Z;
  scheduled : Z;
  noAppointment : Z
}.

Definition derive_step (acc : DerivedMetrics) (r : ReferralState)
    : DerivedMetrics :=
  if String.eqb (status r) "COMPLETED" then
    {| total := total acc; completed := completed acc + 1;
       cancelled := cancelled acc; inProgress := inProgress acc;
       scheduled := scheduled acc; noAppointment := noAppointment acc |}
  else if String.eqb (status r) "CANCELLED" then
    {| total := total acc; completed := completed acc;
       cancelled := cancelled acc + 1; inProgress := inProgress acc;
       scheduled := scheduled acc; noAppointment := noAppointment acc |}
  else
    match active_appointment r with
    | Some _ =>
        {| total := total acc; completed := completed acc;
           cancelled := cancelled acc; inProgress := inProgress acc + 1;
           scheduled := scheduled acc + 1;
           noAppointment := noAppointment acc |}
    | None =>
        {| total := total acc; completed := completed acc;
           cancelled := cancelled acc; inProgress := inProgress acc + 1;
           scheduled := scheduled acc;
           noAppointment := noAppointment acc + 1 |}
    end.

Definition getDerivedMetrics (reconciledMap : ReconciledMap)
    : DerivedMetrics :=
  let referrals := values reconciledMap in
  fold_left derive_step referrals
    {| total := Z.of_nat (List.length referrals); completed := 0; cancelled := 0;
       inProgress := 0; scheduled := 0; noAppointment := 0 |}.

Record ReferralIssue := {
  id : string;
  issue_duplicates : Z;
  issue_seqGaps : Z;
  overrides : Z;
  score : Z
}.

Record DataQualitySummary := {
  totalDuplicates : Z;
  totalSeqGaps : Z;
  totalTerminalOverrides : Z;
  totalReschedules : Z;
  totalCancelledAppts : Z;
  referralsWithIssues : list ReferralIssue
}.

(** [referrals.reduce((sum, r) => sum + f(r), 0)] *)
Definition reduce_sum (f : ReferralState -> Z) (referrals : list ReferralState)
    : Z :=
  fold_left (fun sum r => sum + f r) referrals 0.

Definition to_issue (r : ReferralState) : ReferralIssue :=
  {| id := st_referral_id r;
     issue_duplicates := duplicates (metrics r);
     issue_seqGaps := seqGaps (metrics r);
     overrides := terminalOverrides (metrics r);
     score := duplicates (metrics r) + seqGaps (metrics r)
              + terminalOverrides (metrics r) * 2 |}.

(** [.sort((a, b) => b.score - a.score)] *)
Definition sort_by_score (l : list ReferralIssue) : list ReferralIssue :=
  JsArray.sort (fun a b => score b - score a) l.

(** The server's copy. *)
Definition computeDataQualitySummary (referrals : list ReferralState)
    : DataQualitySummary :=
  {| totalDuplicates := reduce_sum (fun r => duplicates (metrics r)) referrals;
     totalSeqGaps := reduce_sum (fun r => seqGaps (metrics r)) referrals;
     totalTerminalOverrides :=
       reduce_sum (fun r => terminalOverrides (metrics r)) referrals;
     totalReschedules :=
       reduce_sum (fun r => reschedules (metrics r)) referrals;
     totalCancelledAppts :=
       reduce_sum (fun r => cancelledAppts (metrics r)) referrals;
     referralsWithIssues :=
       firstn 10
         (sort_by_score
            (filter (fun r => 0 <? score r) (map to_issue referrals))) |}.




(* ================================================================== *)
(** * The chunked batch writer (firestore.ts) *)
(* ================================================================== *)

Module Firestore.

Definition MAX_BATCH_SIZE : Z := 400.

Section Writer.

(** Document references and document data are opaque to the writer. *)
Variables Ref Data : Type.

Inductive Op :=
| OpSet (ref : Ref) (data : Data)
| OpUpdate (ref : Ref) (data : Data)
| OpDelete (ref : Ref).

(** The database as the writer sees it: the operation lists of the
    [WriteBatch.commit] calls made so far, in call order.  The promise
    returned by a call is named by the position of its batch. *)
Definition Store := list (list Op).

Record ChunkedBatchWriter := {
  batch : list Op;
  count : Z;
  promises : list nat
}.

Definition new_writer : ChunkedBatchWriter :=
  {| batch := []; count := 0; promises := [] |}.

Definition rotate (ws : ChunkedBatchWriter * Store)
    : ChunkedBatchWriter * Store :=
  let '(w, store) := ws in
  let p := List.length store in
  ({| batch := []; count := 0; promises := promises w ++ [p] |},
   store ++ [batch w]).

Definition increment (ws : ChunkedBatchWriter * Store)
    : ChunkedBatchWriter * Store :=
  let '(w, store) := ws in
  let w := {| batch := batch w; count := count w + 1;
              promises := promises w |} in
  if MAX_BATCH_SIZE <=? count w then rotate (w, store) else (w, store).

(** [set], [update] and [delete]: hand the operation to the current
    [WriteBatch], then count it. *)
Definition enqueue (ws : ChunkedBatchWriter * Store) (op : Op)
    : ChunkedBatchWriter * Store :=
  let '(w, store) := ws in
  increment ({| batch := batch w ++ [op]; count := count w;
                promises := promises w |}, store).

(** [commit]: the final writer and store, and the promises that
    [Promise.all] waits for. *)
Definition commit (ws : ChunkedBatchWriter * Store)
    : ChunkedBatchWriter * Store * list nat :=
  let '(w, store) := ws in
  let '(w, store) :=
    if 0 <? count w
    then ({| batch := batch w; count := count w;
             promises := promises w ++ [List.length store] |},
          store ++ [batch w])
    else (w, store) in
  (w, store, promises w).

(** A caller that enqueues [ops] on a fresh writer and then commits. *)
Definition write_all (ops : list Op) : ChunkedBatchWriter * Store * list nat :=
  commit (fold_left enqueue ops (new_writer, [])).

End Writer.

(** ** References

    [collection(path)] and [doc(path)] of the Firestore client, which
    [db] comes from.  A reference is the list of the segments of its path.
    The argument must be a non-empty string without ["//"]; it is split at
    ["/"], empty segments are dropped, and the rest is appended to the
    segments of the parent.  [doc] must arrive at a document, which has an
    even number of segments, and [collection] at a collection, which has an
    odd number; otherwise the call throws. *)

Definition Path := list string.

(** [String.prototype.split("/")]. *)
Fixpoint split_slash (s : string) : list string :=
  match s with
  | EmptyString => [EmptyString]
  | String c rest =>
      if Ascii.eqb c "/" then EmptyString :: split_slash rest
      else
        match split_slash rest with
        | segment :: more => String c segment :: more
        | [] => [String c EmptyString]
        end
  end.

Definition segments (relativePath : string) : list string :=
  filter (fun segment => negb (String.eqb segment ""))
    (split_slash relativePath).

Fixpoint has_double_slash (s : string) : bool :=
  match s with
  | String a (String b _ as rest) =>
      (Ascii.eqb a "/" && Ascii.eqb b "/") || has_double_slash rest
  | _ => false
  end.

Definition valid_resource_path (resourcePath : string) : bool :=
  negb (String.eqb resourcePath "") && negb (has_double_slash resourcePath).

Definition append (path : Path) (relativePath : string) : Path :=
  path ++ segments relativePath.

Definition is_document (path : Path) : bool :=
  negb (Nat.eqb (List.length path) 0) && Nat.even (List.length path).

Definition is_collection (path : Path) : bool :=
  Nat.odd (List.length path).

Definition doc (parent : Path) (documentPath : string) : outcome Path :=
  if valid_resource_path documentPath then
    let path := append parent documentPath in
    if is_document path then Returned path else Raised Error
  else Raised Error.

Definition collection (parent : Path) (collectionPath : string)
    : outcome Path :=
  if valid_resource_path collectionPath then
    let path := append parent collectionPath in
    if is_collection path then Returned path else Raised Error
  else Raised Error.

(** The root that [db.collection] starts from. *)
Definition db : Path := [].

End Firestore.

(* ================================================================== *)
(** * Authentication and authorisation middleware (authz.ts) *)
(* ================================================================== *)

Record DecodedToken := {
  token_uid : string;
  token_email : option string
}.

Record User := {
  uid : string;
  email : option string;
  role : string
}.

Record Request (Body : Type) := {
  authorization : option string;
  user : option User;
  body : Body
}.

Arguments authorization {Body} r.
Arguments user {Body} r.
Arguments body {Body} r.

(** A middleware either answers the request itself or calls [next]. *)
Inductive MiddlewareResult (Body : Type) :=
| Respond (code : Z) (message : string)
| Next (req : Request Body).

Arguments Respond {Body} code message.
Arguments Next {Body} req.

Fixpoint skip (n : nat) (s : string) : string :=
  match n, s with
  | S n', String _ s' => skip n' s'
  | _, _ => s
  end.

(** The text of [s] up to the first occurrence of [sep]. *)
Fixpoint until_separator (sep s : string) : string :=
  if String.prefix sep s then ""
  else match s with
       | EmptyString => ""
       | String c s' => String c (until_separator sep s')
       end.

(** [authHeader.split("Bearer ")[1]] for a header that starts with
    ["Bearer "]. *)
Definition bearer_token (authHeader : string) : string :=
  until_separator "Bearer " (skip 7 authHeader).

Section Authz.

Variable Body : Type.

(** [auth.verifyIdToken]: [None] when the promise rejects. *)
Variable verifyIdToken : string -> option DecodedToken.

(** The [users/{uid}] read: [Raised] when the read rejects, otherwise the
    [role] field of the document, if there is a document with one. *)
Variable storedRole : string -> outcome (option string).

Definition authenticate (req : Request Body) : MiddlewareResult Body :=
  match authorization req with
  | None => Respond 401 "Unauthorized: Missing Bearer Token"
  | Some authHeader =>
      if String.prefix "Bearer " authHeader then
        match verifyIdToken (bearer_token authHeader) with
        | None => Respond 401 "Unauthorized"
        | Some decodedToken =>
            match storedRole (token_uid decodedToken) with
            | Raised _ => Respond 401 "Unauthorized"
            | Returned r =>
                Next {| authorization := authorization req;
                        user := Some
                          {| uid := token_uid decodedToken;
                             email := token_email decodedToken;
                             role := match truthy r with
                                     | Some stored => stored
                                     | None => "viewer"
                                     end |};
                        body := body req |}
            end
        end
      else Respond 401 "Unauthorized: Missing Bearer Token"
  end.

Definition requireAdmin (req : Request Body) : MiddlewareResult Body :=
  match user req with
  | Some u =>
      if String.eqb (role u) "admin" then Next req
      else Respond 403 "Forbidden: Admins Only"
  | None => Respond 403 "Forbidden: Admins Only"
  end.

(** What a route does with a request: a middleware answered, or the
    handler ran on the request the middlewares passed on. *)
Inductive RouteResult (R : Type) :=
| Stopped (code : Z) (message : string)
| Handled (r : R).

Arguments Stopped {R} code message.
Arguments Handled {R} r.

Fixpoint run_route {R : Type}
    (middlewares : list (Request Body -> MiddlewareResult Body))
    (handler : Request Body -> R) (req : Request Body) : RouteResult R :=
  match middlewares with
  | [] => Handled (handler req)
  | m :: rest =>
      match m req with
      | Respond code message => Stopped code message
      | Next req' => run_route rest handler req'
      end
  end.

(** The routes of the API that name [authenticate]. *)
Definition post_uploads {R} (handler : Request Body -> R) :=
  run_route [authenticate; requireAdmin] handler.

Definition get_referrals {R} (handler : Request Body -> R) :=
  run_route [authenticate] handler.

Definition get_referral_by_id {R} (handler : Request Body -> R) :=
  run_route [authenticate] handler.

Definition get_auth_me {R} (handler : Request Body -> R) :=
  run_route [authenticate] handler.

End Authz.

Arguments Stopped {R} code message.
Arguments Handled {R} r.

(* ================================================================== *)
(** * The upload endpoint (uploads.ts) *)
(* ================================================================== *)

(** The parsed JSON body of an upload, as far as the handler tells bodies
    apart: an array, an object whose [events] member is an array, or
    anything else.  The elements are cast to [ReferralEvent] unchecked, so
    their [type] is whatever string the client sent. *)
Inductive UploadBody :=
| BodyArray (inputEvents : list ReferralEvent)
| BodyWithEvents (inputEvents : list ReferralEvent)
| BodyOther.

Inductive Document :=
| UploadDoc (id timestamp : string) (eventCount referralCount : Z)
    (upload_status : string) (snapshot : DerivedMetrics)
| MetricsDoc (snapshot : DerivedMetrics) (timestamp uploadId : string)
| EventDoc (event : ReferralEvent) (uploadId importedAt : string)
| ReferralDoc (state : ReferralState) (lastUpdated lastUploadId : string).

(** A document reference: the path below the database root. *)
Definition DocRef := Firestore.Path.

Inductive Reply :=
| InvalidInput
| InternalServerError
| UploadProcessed (uploadId : string) (processed referrals : Z)
    (snapshot : DerivedMetrics).

Record Response := {
  code : Z;
  reply : Reply
}.

(** A sequence number inside a template string. *)
Definition number_to_string (n : Z) : string := JsNumber.to_string n.

(** Sequencing of calls that can throw. *)
Definition and_then {A B : Type} (r : outcome A) (k : A -> outcome B)
    : outcome B :=
  match r with
  | Returned a => k a
  | Raised e => Raised e
  end.

Definition returns {A : Type} (r : outcome A) : bool :=
  match r with
  | Returned _ => true
  | Raised _ => false
  end.

(** [db.collection("organizations").doc("default")]. *)
Definition organization : outcome DocRef :=
  and_then (Firestore.collection Firestore.db "organizations")
    (fun organizations => Firestore.doc organizations "default").

(** [.collection(name).doc(id)] below the organization. *)
Definition document_in (name id : string) : outcome DocRef :=
  and_then organization (fun org =>
  and_then (Firestore.collection org name) (fun c =>
  Firestore.doc c id)).

Definition upload_ref (uploadId : string) : outcome DocRef :=
  document_in "uploads" uploadId.

Definition metrics_ref (uploadId : string) : outcome DocRef :=
  document_in "metrics" uploadId.

Definition event_id (event : ReferralEvent) : string :=
  (referral_id event ++ "_" ++ number_to_string (seq event))%string.

Definition event_ref (event : ReferralEvent) : outcome DocRef :=
  and_then (document_in "referrals" (referral_id event)) (fun referral =>
  and_then (Firestore.collection referral "events") (fun events =>
  Firestore.doc events (event_id event))).

Definition referral_ref (refId : string) : outcome DocRef :=
  document_in "referrals" refId.

(** The calls on the writer in program order, up to the first step that
    throws: the writer and the store at that point, and whether a step
    threw. *)
Fixpoint enqueue_each {Ref Data : Type}
    (steps : list (outcome (Firestore.Op Ref Data)))
    (ws : Firestore.ChunkedBatchWriter Ref Data * Firestore.Store Ref Data)
    : Firestore.ChunkedBatchWriter Ref Data * Firestore.Store Ref Data
      * bool :=
  match steps with
  | [] => (ws, false)
  | Returned op :: rest => enqueue_each rest (Firestore.enqueue ws op)
  | Raised _ :: _ => (ws, true)
  end.

Section Upload.

(** [reconcile] as imported from the server's domain folder. *)
Variable engine : list ReferralEvent -> outcome ReconciledMap.

(** [nanoid()] and [new Date().toISOString()] as drawn by this request. *)
Variables uploadId timestamp : string.

(** Whether every [WriteBatch.commit] of this request resolves. *)
Variable commits_resolve : bool.

Definition set_at (ref : outcome DocRef) (data : Document)
    : outcome (Firestore.Op DocRef Document) :=
  and_then ref (fun r => Returned (Firestore.OpSet r data)).

Definition set_event (event : ReferralEvent)
    : outcome (Firestore.Op DocRef Document) :=
  set_at (event_ref event) (EventDoc event uploadId timestamp).

Definition set_referral (entry : string * ReferralState)
    : outcome (Firestore.Op DocRef Document) :=
  set_at (referral_ref (fst entry))
    (ReferralDoc (snd entry) timestamp uploadId).

(** The handler behind [authenticate] and [requireAdmin]: the response and
    the batches it handed to the store.  A reference that throws ends the
    [try] block: the catch answers 500, and the batches that the writer
    rotated out before that have been handed over all the same. *)
Definition upload_handler (req : Request UploadBody)
    : Response * Firestore.Store DocRef Document :=
  let normalized :=
    match body req with
    | BodyArray inputEvents => Some inputEvents
    | BodyWithEvents inputEvents => Some inputEvents
    | BodyOther => None
    end in
  match normalized with
  | None => ({| code := 400; reply := InvalidInput |}, [])
  | Some rawEvents =>
      match engine rawEvents with
      | Raised _ => ({| code := 500; reply := InternalServerError |}, [])
      | Returned reconciledMap =>
          let snapshot := getDerivedMetrics reconciledMap in
          let eventCount := Z.of_nat (List.length rawEvents) in
          let referralCount := Z.of_nat (List.length (keys reconciledMap)) in
          let steps :=
            ([ set_at (upload_ref uploadId)
                 (UploadDoc uploadId timestamp eventCount referralCount
                    "COMPLETED" snapshot);
               set_at (metrics_ref uploadId)
                 (MetricsDoc snapshot timestamp uploadId) ]
             ++ map set_event rawEvents
             ++ map set_referral (entries reconciledMap))%list in
          let '(ws, threw) :=
            enqueue_each steps (Firestore.new_writer DocRef Document, []) in
          if threw then
            ({| code := 500; reply := InternalServerError |}, snd ws)
          else
            let '(_, store, _) := Firestore.commit ws in
            if commits_resolve then
              ({| code := 200;
                  reply := UploadProcessed uploadId eventCount referralCount
                             snapshot |}, store)
            else ({| code := 500; reply := InternalServerError |}, store)
      end
  end.

(** The operation that stores an event, at the document its ids address. *)
Definition event_write (event : ReferralEvent)
    : Firestore.Op DocRef Document :=
  Firestore.OpSet
    (Firestore.append
       (Firestore.append ["organizations"; "default"; "referrals"]
          (referral_id event) ++ ["events"])
       (event_id event))
    (EventDoc event uploadId timestamp).

(** The operation that stores the read model of a referral. *)
Definition referral_write (entry : string * ReferralState)
    : Firestore.Op DocRef Document :=
  Firestore.OpSet
    (Firestore.append ["organizations"; "default"; "referrals"] (fst entry))
    (ReferralDoc (snd entry) timestamp uploadId).

End Upload.

(* ================================================================== *)
(** * Vocabulary of the statements *)
(* ================================================================== *)

Definition key_le {A : Type} (key : A -> Z) (a b : A) : Prop :=
  key a <= key b.

Definition key_lt {A : Type} (key : A -> Z) (a b : A) : Prop :=
  key a < key b.

(** The raw events of one referral, in input order. *)
Definition events_of (rid : string) (E : list ReferralEvent)
    : list ReferralEvent :=
  filter (fun e => String.eqb (referral_id e) rid) E.

(** Some event carries a [referral_id] that names a member of
    [Object.prototype]. *)
Definition names_inherited (E : list ReferralEvent) : bool :=
  existsb (fun e => inherited (referral_id e)) E.

(** What the grouping loop leaves in [eventsByReferral]. *)
Definition grouped (g0 : props (list ReferralEvent)) (E : list ReferralEvent)
    (k : string) : option (list ReferralEvent) :=
  match own_get k g0 with
  | Some l => Some (l ++ events_of k E)
  | None => match events_of k E with [] => None | raw => Some raw end
  end.

(** Every entry of the [Map] is filed under its own [seq], once. *)
Definition seqmap_ok (m : SeqMap) : Prop :=
  Forall (fun kv => fst kv = seq (snd kv)) m /\ NoDup (map fst m).


(** The events of one referral that survive deduplication, ascending by
    [seq]: the [sortedEvents] of the per-referral loop. *)
Definition retained (raw : list ReferralEvent) : list ReferralEvent :=
  sort_by_seq (map snd (fst (dedup raw))).

(** The referral has reached [COMPLETED] or [CANCELLED]. *)
Definition is_terminal (st : ReferralState) : bool :=
  includes TERMINAL_STATUSES (status st).

(** The replay flag says what the status says. *)
Definition flag_ok (acc : ReferralState * bool) : Prop :=
  snd acc = is_terminal (fst acc).

(** The sum, over consecutive pairs of a list of sequence numbers, of
    [max(0, seq[i+1] - seq[i] - 1)]. *)
Fixpoint gap_sum (seqs : list Z) : Z :=
  match seqs with
  | a :: (b :: _) as rest => Z.max 0 (b - a - 1) + gap_sum rest
  | _ => 0
  end.

(** The sequence numbers of a referral lie within [2 ^ 53] of one another,
    as they do when all of them are safe integers of one sign. *)
Definition seqs_span_exact (rid : string) (E : list ReferralEvent) : Prop :=
  forall e1 e2,
    In e1 E -> In e2 E -> referral_id e1 = rid -> referral_id e2 = rid ->
    seq e2 - seq e1 <= 2 ^ 53.

(** The gap loop of [count_gaps_from] on the bare sequence numbers. *)
Fixpoint gap_loop (seqGaps : Z) (seqs : list Z) : Z :=
  match seqs with
  | a :: (b :: _) as rest =>
      let diff := JsNumber.sub b a in
      gap_loop
        (if 1 <? diff then JsNumber.add seqGaps (JsNumber.sub diff 1)
         else seqGaps)
        rest
  | _ => seqGaps
  end.

(** An event that the replay acts on: its type is one of the three, and
    the payload fields that type reads are present and non-empty. *)
Definition well_formed (e : ReferralEvent) : bool :=
  (String.eqb (type e) "STATUS_UPDATE"
   && match truthy (p_status (payload e)) with Some _ => true | None => false end)
  || (String.eqb (type e) "APPOINTMENT_SET"
      && match truthy (p_appt_id (payload e)),
               truthy (p_start_time (payload e)) with
         | Some _, Some _ => true
         | _, _ => false
         end)
  || (String.eqb (type e) "APPOINTMENT_CANCELLED"
      && match truthy (p_appt_id (payload e)) with
         | Some _ => true
         | None => false
         end).

(** The state and flag at the end of the replay loop of one referral. *)
Definition replayed (rid : string) (raw : list ReferralEvent)
    : ReferralState * bool :=
  replay (retained raw)
    (initial_state rid (snd (dedup raw)) (count_gaps (retained raw))
       (retained raw), false).

(** ** Sample data *)

Definition status_update (rid : string) (n : Z) (s : string) : ReferralEvent :=
  {| referral_id := rid; seq := n; type := "STATUS_UPDATE";
     payload := {| p_status := Some s; p_appt_id := None;
                   p_start_time := None |} |}.

Definition appointment_set (rid : string) (n : Z) (appt t : string)
    : ReferralEvent :=
  {| referral_id := rid; seq := n; type := "APPOINTMENT_SET";
     payload := {| p_status := None; p_appt_id := Some appt;
                   p_start_time := Some t |} |}.

Definition appointment_cancelled (rid : string) (n : Z) (appt : string)
    : ReferralEvent :=
  {| referral_id := rid; seq := n; type := "APPOINTMENT_CANCELLED";
     payload := {| p_status := None; p_appt_id := Some appt;
                   p_start_time := None |} |}.

(** The input of the unit test "should calculate sequence gaps". *)
Definition gap_sample : list ReferralEvent :=
  [ status_update "ref_1" 1 "SENT"; status_update "ref_1" 3 "ACKNOWLEDGED" ].

(** Two status updates of one referral, at seq 1 and at seq 2^53 + 2, which
    is a double. *)
Definition wide_gap_sample : list ReferralEvent :=
  [ status_update "R" 1 "SENT";
    status_update "R" 9007199254740994 "ACKNOWLEDGED" ].

(** The state with another [duplicates] counter. *)
Definition with_duplicates (d : Z) (st : ReferralState) : ReferralState :=
  with_metrics
    {| duplicates := d; seqGaps := seqGaps (metrics st);
       terminalOverrides := terminalOverrides (metrics st);
       reschedules := reschedules (metrics st);
       cancelledAppts := cancelledAppts (metrics st) |} st.

(** Reading one referral out of the result of a call. *)
Definition lookup_state (rid : string) (result : outcome ReconciledMap)
    : option ReferralState :=
  match result with
  | Returned m => own_get rid m
  | Raised _ => None
  end.

(** A single event, the smallest input with nothing to deduplicate. *)
Definition single_sample : list ReferralEvent :=
  [ status_update "R2" 1 "SENT" ].

(** Events that share [(referral_id, seq)] are the same event. *)
Definition duplicates_agree (E : list ReferralEvent) : Prop :=
  forall e1 e2,
    In e1 E -> In e2 E ->
    referral_id e1 = referral_id e2 -> seq e1 = seq e2 -> e1 = e2.

(** Events that share [(referral_id, seq)] carry the same [payload]. *)
Definition payloads_agree (E : list ReferralEvent) : Prop :=
  forall e1 e2,
    In e1 E -> In e2 E ->
    referral_id e1 = referral_id e2 -> seq e1 = seq e2 ->
    payload e1 = payload e2.

(** Two calls end alike: both throw, or both return maps that hold the
    same state under every key. *)
Definition same_result (r1 r2 : outcome ReconciledMap) : Prop :=
  match r1, r2 with
  | Returned m1, Returned m2 => forall rid, own_get rid m1 = own_get rid m2
  | Raised e1, Raised e2 => e1 = e2
  | _, _ => False
  end.

(** Two events filed under the same [(referral_id, seq)] with the same
    payload and different types: an appointment is set, and the same
    payload arrives once more as a cancellation. *)
Definition retyped_sample : list ReferralEvent :=
  [ {| referral_id := "R"; seq := 1; type := "APPOINTMENT_SET";
       payload := {| p_status := None; p_appt_id := Some "A";
                     p_start_time := Some "2025-02-01T10:00:00Z" |} |};
    {| referral_id := "R"; seq := 1; type := "APPOINTMENT_CANCELLED";
       payload := {| p_status := None; p_appt_id := Some "A";
                     p_start_time := Some "2025-02-01T10:00:00Z" |} |} ].

(** Scenario 3 of the specification, delivered out of order. *)
Definition reschedule_sample : list ReferralEvent :=
  [ appointment_set "R3" 3 "A" "2025-03-02T09:00:00Z";
    status_update "R3" 1 "SCHEDULED";
    appointment_set "R3" 2 "A" "2025-03-01T09:00:00Z";
    appointment_cancelled "R3" 4 "A" ].

(** ** Active appointment *)

(** The non-cancelled appointments of a record, in the order in which
    [Object.values] lists them. *)
Definition live_appointments (o : Appointments) : list Appointment :=
  flat_map (fun v => match v with Some a => [a] | None => [] end)
    (values (own o)).

Section Instants.
Variable parseISO : string -> option Z.

Definition valid_time (a : Appointment) : Prop :=
  parseISO (start_time a) <> None.

Definition instant_lt (a b : Appointment) : Prop :=
  match parseISO (start_time a), parseISO (start_time b) with
  | Some x, Some y => x < y
  | _, _ => False
  end.

Definition instant_le (a b : Appointment) : Prop :=
  match parseISO (start_time a), parseISO (start_time b) with
  | Some x, Some y => x <= y
  | _, _ => False
  end.

(** [a] occurs in [l], everything before it starts strictly later and
    nothing after it starts earlier: of the appointments with the minimum
    start, [a] is the first in the list. *)
Definition first_earliest (a : Appointment) (l : list Appointment) : Prop :=
  exists l1 l2,
    l = l1 ++ a :: l2
    /\ Forall (instant_lt a) l1
    /\ Forall (instant_le a) l2.

(** [a] occurs in [l] and every member of [l] either starts strictly later
    or starts at the same instant and has an [appt_id] that is not
    lexicographically smaller. *)
Definition earliest_then_smallest_id (a : Appointment) (l : list Appointment)
    : Prop :=
  In a l
  /\ forall b, In b l ->
       instant_lt a b
       \/ (parseISO (start_time a) = parseISO (start_time b)
           /\ String.leb (appt_id a) (appt_id b) = true).

End Instants.

(** Two appointments with the same start, the one with the greater id set
    first. *)
Definition tie_sample : list ReferralEvent :=
  [ appointment_set "R" 1 "B" "2025-05-05T09:00:00Z";
    appointment_set "R" 2 "A" "2025-05-05T09:00:00Z" ].

(** Scenario 4 of the specification: two appointments, earliest active. *)
Definition two_appointments_sample : list ReferralEvent :=
  [ status_update "R4" 1 "SCHEDULED";
    appointment_set "R4" 2 "B" "2025-05-10T09:00:00Z";
    appointment_set "R4" 3 "A" "2025-05-05T09:00:00Z" ].

(** ** Data quality *)


(** A reconciled referral with the given id and duplicate count and no
    other anomaly. *)
Definition referral_with_duplicates (rid : string) (d : Z) : ReferralState :=
  initial_state rid d 0 [].

(** ** Chunked writer *)

(** What holds of a writer and its store after [ops] have been enqueued:
    the committed batches followed by the open batch are [ops]; [count] is
    the size of the open batch and stays below the limit; every committed
    batch is full; and [promises] names every commit made. *)
Definition writer_inv {Ref Data : Type} (ops : list (Firestore.Op Ref Data))
    (ws : Firestore.ChunkedBatchWriter Ref Data * Firestore.Store Ref Data)
    : Prop :=
  let '(w, store) := ws in
  List.concat store ++ Firestore.batch w = ops
  /\ Firestore.count w = Z.of_nat (List.length (Firestore.batch w))
  /\ Firestore.count w < Firestore.MAX_BATCH_SIZE
  /\ Forall (fun b => List.length b = 400%nat) store
  /\ Firestore.promises w = List.seq 0 (List.length store).

(** ** Sample identity provider and user store *)

(** A verifier that accepts the one token ["good"]. *)
Definition sample_verify (token : string) : option DecodedToken :=
  if String.eqb token "good"
  then Some {| token_uid := "u1"; token_email := None |}
  else None.

(** A user store in which nobody has a role. *)
Definition sample_roles (uid : string) : outcome (option string) :=
  Returned None.

(** A user store in which everybody is an admin. *)
Definition admin_roles (uid : string) : outcome (option string) :=
  Returned (Some "admin").

(** ** Sample uploads *)

(** An event whose [type] is none of the three known ones. *)
Definition unknown_type_event : ReferralEvent :=
  {| referral_id := "R1"; seq := 1; type := "REFERRAL_ARCHIVED";
     payload := {| p_status := Some "SENT"; p_appt_id := None;
                   p_start_time := None |} |}.

(** An upload of that one event by a verified principal. *)
Definition unknown_type_upload : Request UploadBody :=
  {| authorization := Some "Bearer good"; user := None;
     body := BodyArray [unknown_type_event] |}.

(** A well-formed event whose [referral_id] is the name of a member of
    [Object.prototype]. *)
Definition inherited_name_event : ReferralEvent :=
  status_update "constructor" 1 "SENT".

(** ** Scenarios of the specification *)

(** What the scenarios look at: status, active appointment, counters and
    own appointment entries of one referral. *)
Definition summary (rid : string) (result : outcome ReconciledMap) :=
  option_map
    (fun st => (status st, active_appointment st, metrics st,
                own (appointments st)))
    (lookup_state rid result).

Definition no_anomalies : Metrics :=
  {| duplicates := 0; seqGaps := 0; terminalOverrides := 0;
     reschedules := 0; cancelledAppts := 0 |}.

(** ** Proof automation *)

(** Case analysis on the innermost scrutinees of the goal. *)
Ltac split_matches :=
  repeat match goal with
         | |- context [match ?x with _ => _ end] =>
             lazymatch x with
             | context [match _ with _ => _ end] => fail
             | _ => destruct x eqn:?
             end
         end.

(** Case analysis over one turn of the replay loop. *)
Ltac step_cases :=
  unfold replay_step, status_logic, appointment_set_logic,
    appointment_cancelled_logic;
  split_matches.

(* ================================================================== *)
(** * Further vocabulary *)
(* ================================================================== *)

(** ** Replay, read as a whole *)

(** The statuses that the replay acts on: those of the STATUS_UPDATE events
    with a non-empty status, in order. *)
Definition statuses (l : list ReferralEvent) : list string :=
  flat_map
    (fun e =>
       if String.eqb (type e) "STATUS_UPDATE" then
         match truthy (p_status (payload e)) with
         | Some s => [s]
         | None => []
         end
       else [])
    l.

Definition terminal_statuses (l : list ReferralEvent) : list string :=
  filter (includes TERMINAL_STATUSES) (statuses l).

(** The last terminal status if there is one, else the last status, else
    the initial ["CREATED"]. *)
Definition final_status (l : list ReferralEvent) : string :=
  match terminal_statuses l with
  | [] => last (statuses l) "CREATED"
  | ts => last ts "CREATED"
  end.

Definition count_type (t : string) (l : list ReferralEvent) : Z :=
  Z.of_nat (List.length (filter (fun e => String.eqb (type e) t) l)).

(** Every own entry of an appointments record sits under its own
    [appt_id], and the ids are pairwise distinct. *)
Definition appointments_ok (o : Appointments) : Prop :=
  NoDup (map fst (own o))
  /\ forall k a, In (k, Some a) (own o) -> appt_id a = k.

(** The first event of a list that carries a given [seq]. *)
Definition first_with_seq (n : Z) (l : list ReferralEvent)
    : option ReferralEvent :=
  find (fun e => seq e =? n) l.

(** The status a single event brings to the replay, if any. *)
Definition status_of (e : ReferralEvent) : option string :=
  if String.eqb (type e) "STATUS_UPDATE"
  then truthy (p_status (payload e))
  else None.

(** ** Aggregate metrics, by counting *)

Definition count_where (p : ReferralState -> bool) (l : list ReferralState)
    : Z :=
  Z.of_nat (List.length (filter p l)).

Definition is_completed (r : ReferralState) : bool :=
  String.eqb (status r) "COMPLETED".

Definition is_cancelled (r : ReferralState) : bool :=
  String.eqb (status r) "CANCELLED".

Definition in_progress (r : ReferralState) : bool :=
  negb (is_completed r) && negb (is_cancelled r).

Definition has_active (r : ReferralState) : bool :=
  match active_appointment r with Some _ => true | None => false end.

(* ================================================================== *)
(** * The HTTP client and the profile route (api.ts, auth.ts) *)
(* ================================================================== *)

(** The [Authorization] header that [apiClient] sends: the caller's own, if
    any, replaced by the bearer header when the signed-in user has a
    token. *)
Definition client_authorization (custom token : option string)
    : option string :=
  match truthy token with
  | Some t => Some ("Bearer " ++ t)%string
  | None => custom
  end.

Inductive MeReply :=
| NotAuthenticated
| Profile (profile_uid : string) (profile_email : option string)
    (profile_role : string).

(** The handler of [GET /auth/me], behind [authenticate]. *)
Definition me_handler {Body : Type} (req : Request Body) : Z * MeReply :=
  match user req with
  | None => (401, NotAuthenticated)
  | Some u => (200, Profile (uid u) (email u) (role u))
  end.

(** The characters of a string. *)
Fixpoint chars (s : string) : list ascii :=
  match s with
  | EmptyString => []
  | String c s' => c :: chars s'
  end.

(* ================================================================== *)
(** * Vocabulary for the writes of an upload *)
(* ================================================================== *)

From Stdlib Require DecimalZ DecimalPos.

(** The document an operation is aimed at. *)
Definition op_ref {Ref Data : Type} (op : Firestore.Op Ref Data) : Ref :=
  match op with
  | Firestore.OpSet r _ => r
  | Firestore.OpUpdate r _ => r
  | Firestore.OpDelete _ r => r
  end.

Definition same_ref (a b : DocRef) : bool :=
  if list_eq_dec string_dec a b then true else false.

(** An id that is one path segment: not empty and without ["/"]. *)
Definition plain_id (id : string) : bool :=
  negb (String.eqb id "") && forallb (fun c => negb (Ascii.eqb c "/")) (chars id).

(** A sequence number that a double holds with every integer around it. *)
Definition safe_integer (n : Z) : bool := Z.abs n <? 2 ^ 53.

(** The document of the read model of a referral with a plain id. *)
Definition referral_document (rid : string) : DocRef :=
  ["organizations"; "default"; "referrals"; rid].

(** The document of an event with a plain referral id and a safe seq. *)
Definition event_document (rid : string) (n : Z) : DocRef :=
  ["organizations"; "default"; "referrals"; rid; "events";
   (rid ++ "_" ++ JsNumber.decimal n)%string].

(** No reference of the upload throws: those of the upload and metrics
    documents, of every raw event and of every reconciled referral. *)
Definition references_resolve (uploadId : string)
    (rawEvents : list ReferralEvent) (reconciledMap : ReconciledMap) : bool :=
  returns (upload_ref uploadId) && returns (metrics_ref uploadId)
  && forallb (fun event => returns (event_ref event)) rawEvents
  && forallb (fun refId => returns (referral_ref refId)) (keys reconciledMap).

(** The operations of an upload whose references resolve, in program
    order: the upload envelope, the metrics snapshot, the raw events, the
    reconciled referrals. *)
Definition upload_operations (uploadId timestamp : string)
    (rawEvents : list ReferralEvent) (reconciledMap : ReconciledMap)
    : list (Firestore.Op DocRef Document) :=
  [ Firestore.OpSet
      (Firestore.append ["organizations"; "default"; "uploads"] uploadId)
      (UploadDoc uploadId timestamp (Z.of_nat (List.length rawEvents))
         (Z.of_nat (List.length (keys reconciledMap))) "COMPLETED"
         (getDerivedMetrics reconciledMap));
    Firestore.OpSet
      (Firestore.append ["organizations"; "default"; "metrics"] uploadId)
      (MetricsDoc (getDerivedMetrics reconciledMap) timestamp uploadId) ]
  ++ map (event_write uploadId timestamp) rawEvents
  ++ map (referral_write uploadId timestamp) (entries reconciledMap).

(** The operations of an upload, batch after batch. *)
Definition upload_writes
    (engine : list ReferralEvent -> outcome ReconciledMap)
    (uploadId timestamp : string) (commits_resolve : bool)
    (req : Request UploadBody) : list (Firestore.Op DocRef Document) :=
  List.concat
    (snd (upload_handler engine uploadId timestamp commits_resolve req)).

(** 398 status updates of one referral, seq 1 to 398. *)
Definition long_sample : list ReferralEvent :=
  map (fun n => status_update "R" (Z.of_nat n) "SENT") (List.seq 1 398).

(** An event whose [referral_id] is the empty string. *)
Definition unnamed_event : ReferralEvent := status_update "" 1 "SENT".

(** An upload of Scenario 3 and Scenario 4 together, as a bare array. *)
Definition two_referrals_upload : Request UploadBody :=
  {| authorization := Some "Bearer good"; user := None;
     body := BodyArray (reschedule_sample ++ two_appointments_sample) |}.

(* ================================================================== *)
(** * The referrals provider (ReferralsProvider.tsx) *)
(* ================================================================== *)

(** [referralMap[r.referral_id] = r] on an object literal: the key
    ["__proto__"] reaches the inherited setter, which takes [r] as the new
    prototype and creates no own property. *)
Definition provider_assign (referralMap : ReconciledMap) (r : ReferralState)
    : ReconciledMap :=
  if String.eqb (st_referral_id r) "__proto__" then referralMap
  else own_set (st_referral_id r) r referralMap.

(** The [map] and [metrics] that the provider derives from the fetched
    list. *)
Definition provider_map (referrals : list ReferralState) : ReconciledMap :=
  fold_left provider_assign referrals [].

Definition provider_metrics (referrals : list ReferralState)
    : DerivedMetrics :=
  getDerivedMetrics (provider_map referrals).

(** The fetched referrals that get a key of their own. *)
Definition keyed (referrals : list ReferralState) : list ReferralState :=
  filter (fun r => negb (String.eqb (st_referral_id r) "__proto__"))
    referrals.
(* ================================================================== *)
(** * Properties of the sorting model *)
(* ================================================================== *)

Section SortFacts.
Context {A : Type}.
Variable cmp : A -> A -> Z.
Variable key : A -> Z.
Hypothesis cmp_key : forall x y, cmp x y <= 0 <-> key x <= key y.

Lemma insert_perm (x : A) (l : list A) :
  Permutation (JsArray.insert cmp x l) (x :: l).
Proof.
  induction l as [|y ys IH]; simpl; [reflexivity|].
  destruct (cmp x y <=? 0); [reflexivity|].
  rewrite IH. apply perm_swap.
Qed.

Lemma sort_perm (l : list A) : Permutation (JsArray.sort cmp l) l.
Proof.
  induction l as [|x xs IH]; simpl; [constructor|].
  rewrite insert_perm. now constructor.
Qed.

Lemma sort_In (l : list A) (x : A) : In x (JsArray.sort cmp l) <-> In x l.
Proof.
  split; apply Permutation_in; [|symmetry]; apply sort_perm.
Qed.

Lemma sort_length (l : list A) : List.length (JsArray.sort cmp l) = List.length l.
Proof. apply Permutation_length, sort_perm. Qed.

Lemma insert_sorted (x : A) (l : list A) :
  StronglySorted (key_le key) l -> StronglySorted (key_le key) (JsArray.insert cmp x l).
Proof.
  induction 1 as [|y ys Hs IH Hall]; simpl.
  - repeat constructor.
  - destruct (Z.leb_spec (cmp x y) 0) as [Hc|Hc].
    + apply cmp_key in Hc.
      constructor; [now constructor|].
      constructor; [exact Hc|].
      eapply Forall_impl; [|exact Hall].
      unfold key_le; intros; lia.
    + constructor; [exact IH|].
      assert (Hyx : key y <= key x).
      { destruct (Z.le_gt_cases (key x) (key y)) as [H1|H1]; [|lia].
        apply cmp_key in H1. lia. }
      apply Forall_forall. intros z Hz.
      apply (Permutation_in _ (insert_perm x ys)) in Hz.
      destruct Hz as [<-|Hz]; [exact Hyx|].
      rewrite Forall_forall in Hall. now apply Hall.
Qed.

Lemma sort_sorted (l : list A) : StronglySorted (key_le key) (JsArray.sort cmp l).
Proof.
  induction l; simpl; [constructor|]. now apply insert_sorted.
Qed.



(** With pairwise distinct keys the result is strictly ascending. *)
Lemma sort_strict (l : list A) :
  NoDup (map key l) -> StronglySorted (key_lt key) (JsArray.sort cmp l).
Proof.
  intros Hnd.
  assert (Hnd' : NoDup (map key (JsArray.sort cmp l))).
  { eapply Permutation_NoDup; [|exact Hnd].
    apply Permutation_map. symmetry. apply sort_perm. }
  pose proof (sort_sorted l) as Hs.
  induction Hs as [|y ys Hs IH Hall]; [constructor|].
  simpl in Hnd'. inversion Hnd' as [|? ? Hnin Hnd'']; subst.
  constructor; [now apply IH|].
  rewrite Forall_forall in *. intros z Hz.
  specialize (Hall z Hz). unfold key_le, key_lt in *.
  assert (key z <> key y).
  { intros E. apply Hnin. rewrite <- E. now apply in_map. }
  lia.
Qed.

End SortFacts.

(** Two strictly ascending lists with the same elements are equal. *)
Lemma strict_sorted_unique {A : Type} (key : A -> Z) (l1 l2 : list A) :
  StronglySorted (key_lt key) l1 ->
  StronglySorted (key_lt key) l2 ->
  (forall x, In x l1 <-> In x l2) ->
  l1 = l2.
Proof.
  intros H1. revert l2.
  induction H1 as [|x xs Hs IH Hall]; intros l2 H2 Hin.
  - destruct l2 as [|y ys]; [reflexivity|].
    exfalso. apply (Hin y). now left.
  - destruct H2 as [|y ys Hs2 Hall2].
    + exfalso. apply (Hin x). now left.
    + rewrite Forall_forall in Hall, Hall2.
      assert (x = y).
      { destruct (proj1 (Hin x) (or_introl eq_refl)) as [E|Hx]; [now symmetry|].
        destruct (proj2 (Hin y) (or_introl eq_refl)) as [E|Hy]; [exact E|].
        specialize (Hall _ Hy). specialize (Hall2 _ Hx).
        unfold key_lt in *. lia. }
      subst y. f_equal. apply IH; [exact Hs2|].
      intros z. split; intros Hz.
      * destruct (proj1 (Hin z) (or_intror Hz)) as [E|Hz']; [|exact Hz'].
        subst z. specialize (Hall _ Hz). unfold key_lt in Hall. lia.
      * destruct (proj2 (Hin z) (or_intror Hz)) as [E|Hz']; [|exact Hz'].
        subst z. specialize (Hall2 _ Hz). unfold key_lt in Hall2. lia.
Qed.

(* ================================================================== *)
(** * Properties of the object model *)
(* ================================================================== *)

Section ObjectFacts.
Context {V : Type}.
Implicit Types (o : props V) (k : string) (v : V).

Lemma own_get_set_same k v o : own_get k (own_set k v o) = Some v.
Proof.
  induction o as [|[k' v'] o IH]; simpl.
  - now rewrite String.eqb_refl.
  - destruct (String.eqb_spec k k') as [->|Hne]; simpl.
    + now rewrite String.eqb_refl.
    + destruct (String.eqb_spec k k'); [contradiction|exact IH].
Qed.

Lemma own_get_set_other k k' v o :
  k <> k' -> own_get k (own_set k' v o) = own_get k o.
Proof.
  intros Hne. induction o as [|[k2 v2] o IH]; simpl.
  - destruct (String.eqb_spec k k'); [contradiction|reflexivity].
  - destruct (String.eqb_spec k' k2) as [->|Hne2]; simpl.
    + destruct (String.eqb_spec k k2); [contradiction|reflexivity].
    + now rewrite IH.
Qed.

Lemma own_get_None k o : own_get k o = None <-> ~ In k (map fst o).
Proof.
  induction o as [|[k' v'] o IH]; simpl; [tauto|].
  destruct (String.eqb_spec k k') as [->|Hne].
  - split; [discriminate|]. intros H. exfalso. apply H. now left.
  - rewrite IH. split; intros H; [intros [E|HIn]; [congruence|tauto]|tauto].
Qed.

Lemma own_set_keys k v o :
  map fst (own_set k v o)
  = if existsb (String.eqb k) (map fst o) then map fst o
    else map fst o ++ [k].
Proof.
  induction o as [|[k' v'] o IH]; simpl; [reflexivity|].
  destruct (String.eqb_spec k k') as [->|Hne]; simpl; [reflexivity|].
  rewrite IH. now destruct (existsb (String.eqb k) (map fst o)).
Qed.

Lemma own_set_NoDup k v o :
  NoDup (map fst o) -> NoDup (map fst (own_set k v o)).
Proof.
  intros Hnd. rewrite own_set_keys.
  destruct (existsb (String.eqb k) (map fst o)) eqn:Hex; [exact Hnd|].
  apply NoDup_app; [exact Hnd|repeat constructor; intros []|].
  intros x Hx [E|[]]. subst x.
  assert (existsb (String.eqb k) (map fst o) = true); [|congruence].
  apply existsb_exists. exists k. split; [exact Hx|apply String.eqb_refl].
Qed.

Lemma own_get_In k v o :
  NoDup (map fst o) -> (own_get k o = Some v <-> In (k, v) o).
Proof.
  induction o as [|[k' v'] o IH]; simpl; intros Hnd.
  - split; [discriminate|tauto].
  - inversion Hnd as [|? ? Hnin Hnd']; subst.
    destruct (String.eqb_spec k k') as [->|Hne].
    + split.
      * intros [= ->]. now left.
      * intros [[= ->]|HIn]; [reflexivity|].
        exfalso. apply Hnin. now apply (in_map fst) in HIn.
    + rewrite (IH Hnd'). split; [tauto|].
      intros [[= <- <-]|HIn]; [contradiction|exact HIn].
Qed.

Lemma own_get_perm k o o' :
  NoDup (map fst o) -> Permutation o o' -> own_get k o = own_get k o'.
Proof.
  intros Hnd Hp.
  assert (Hnd' : NoDup (map fst o')).
  { eapply Permutation_NoDup; [|exact Hnd]. now apply Permutation_map. }
  destruct (own_get k o) as [v|] eqn:E.
  - symmetry. apply own_get_In; [exact Hnd'|].
    eapply Permutation_in; [exact Hp|]. now apply own_get_In.
  - symmetry. apply own_get_None. apply own_get_None in E.
    intros H. apply E. eapply Permutation_in; [|exact H].
    apply Permutation_map. now symmetry.
Qed.

Lemma filter_split_perm {A : Type} (f : A -> bool) (l : list A) :
  Permutation (filter f l ++ filter (fun x => negb (f x)) l) l.
Proof.
  induction l as [|x xs IH]; simpl; [constructor|].
  destruct (f x); simpl.
  - now constructor.
  - symmetry. apply Permutation_cons_app. now symmetry.
Qed.

Lemma entries_perm o : Permutation (entries o) o.
Proof.
  unfold entries.
  rewrite (sort_perm (fun a b : string * V => index_of (fst a) - index_of (fst b))).
  apply (filter_split_perm (fun kv : string * V => is_index (fst kv))).
Qed.

Lemma own_get_entries k o :
  NoDup (map fst o) -> own_get k (entries o) = own_get k o.
Proof.
  intros Hnd. symmetry. apply own_get_perm; [exact Hnd|].
  symmetry. apply entries_perm.
Qed.

Lemma entries_NoDup o : NoDup (map fst o) -> NoDup (map fst (entries o)).
Proof.
  intros Hnd. eapply Permutation_NoDup; [|exact Hnd].
  apply Permutation_map. symmetry. apply entries_perm.
Qed.

Lemma values_In v o : In v (values o) <-> In v (map snd o).
Proof.
  unfold values.
  split; apply Permutation_in; apply Permutation_map;
    [|symmetry]; apply entries_perm.
Qed.

End ObjectFacts.

(** Filling a fresh object from a list of entries with distinct keys. *)
Lemma own_get_fill {W V : Type} (f : string -> W -> V)
    (l : props W) (acc : props V) (k : string) :
  NoDup (map fst l) ->
  own_get k
    (fold_left (fun map kv => own_set (fst kv) (f (fst kv) (snd kv)) map)
       l acc)
  = match own_get k l with
    | Some w => Some (f k w)
    | None => own_get k acc
    end.
Proof.
  revert acc. induction l as [|[k' w] l IH]; intros acc Hnd; simpl.
  - reflexivity.
  - inversion Hnd as [|? ? Hnin Hnd']; subst.
    rewrite (IH _ Hnd').
    destruct (String.eqb_spec k k') as [->|Hne].
    + apply own_get_None in Hnin. rewrite Hnin.
      apply own_get_set_same.
    + destruct (own_get k l); [reflexivity|].
      now apply own_get_set_other.
Qed.

(* ================================================================== *)
(** * Grouping *)
(* ================================================================== *)

Lemma group_raised_stays (E : list ReferralEvent) (e : JsError) :
  fold_left group_step E (Raised e) = Raised e.
Proof. induction E; simpl; auto. Qed.


Lemma events_of_cons_same (e : ReferralEvent) (E : list ReferralEvent) :
  events_of (referral_id e) (e :: E) = e :: events_of (referral_id e) E.
Proof. unfold events_of; simpl. now rewrite String.eqb_refl. Qed.

Lemma events_of_cons_other (k : string) (e : ReferralEvent)
    (E : list ReferralEvent) :
  k <> referral_id e -> events_of k (e :: E) = events_of k E.
Proof.
  intros Hne. unfold events_of; simpl.
  destruct (String.eqb_spec (referral_id e) k); [congruence|reflexivity].
Qed.

Lemma grouped_step_seen (g : props (list ReferralEvent)) (e : ReferralEvent)
    (E : list ReferralEvent) (l : list ReferralEvent) (k : string) :
  own_get (referral_id e) g = Some l ->
  grouped (own_set (referral_id e) (l ++ [e]) g) E k = grouped g (e :: E) k.
Proof.
  intros Hg. unfold grouped.
  destruct (String.eqb_spec k (referral_id e)) as [->|Hne].
  - rewrite own_get_set_same, Hg, events_of_cons_same.
    now rewrite <- app_assoc.
  - rewrite own_get_set_other by exact Hne.
    now rewrite events_of_cons_other.
Qed.

Lemma grouped_step_new (g : props (list ReferralEvent)) (e : ReferralEvent)
    (E : list ReferralEvent) (k : string) :
  own_get (referral_id e) g = None ->
  grouped (own_set (referral_id e) [e] g) E k = grouped g (e :: E) k.
Proof.
  intros Hg. unfold grouped.
  destruct (String.eqb_spec k (referral_id e)) as [->|Hne].
  - now rewrite own_get_set_same, Hg, events_of_cons_same.
  - rewrite own_get_set_other by exact Hne.
    now rewrite events_of_cons_other.
Qed.

(** The grouping loop throws exactly when some [referral_id] names an
    inherited member; otherwise every key holds its events in input
    order. *)
Lemma group_fold (E : list ReferralEvent) :
  forall g : props (list ReferralEvent),
  NoDup (map fst g) ->
  (forall k, In k (map fst g) -> inherited k = false) ->
  if names_inherited E
  then fold_left group_step E (Returned g) = Raised TypeError
  else exists g',
      fold_left group_step E (Returned g) = Returned g'
      /\ NoDup (map fst g')
      /\ forall k, own_get k g' = grouped g E k.
Proof.
  induction E as [|e E IH]; intros g Hnd Hown; simpl.
  - exists g. repeat split; [exact Hnd|]. intros k. unfold grouped; simpl.
    destruct (own_get k g); [now rewrite app_nil_r|reflexivity].
  - destruct (own_get (referral_id e) g) as [l|] eqn:Hg.
    + assert (Hin : inherited (referral_id e) = false).
      { apply Hown. destruct (in_dec string_dec (referral_id e) (map fst g))
          as [H|H]; [exact H|]. apply own_get_None in H. congruence. }
      rewrite Hin. simpl.
      specialize (IH (own_set (referral_id e) (l ++ [e]) g)).
      assert (Hk : map fst (own_set (referral_id e) (l ++ [e]) g) = map fst g).
      { rewrite own_set_keys.
        destruct (existsb (String.eqb (referral_id e)) (map fst g)) eqn:Hex;
          [reflexivity|].
        assert (Hn : own_get (referral_id e) g = None); [|congruence].
        apply own_get_None. intros H.
        assert (existsb (String.eqb (referral_id e)) (map fst g) = true);
          [|congruence].
        apply existsb_exists. eexists. split; [exact H|apply String.eqb_refl]. }
      rewrite Hk in IH. specialize (IH Hnd Hown).
      destruct (names_inherited E); [exact IH|].
      destruct IH as (g' & Hf & Hnd' & Hget).
      exists g'. repeat split; [exact Hf|exact Hnd'|].
      intros k. rewrite Hget. now apply grouped_step_seen.
    + destruct (inherited (referral_id e)) eqn:Hin; simpl.
      * apply group_raised_stays.
      * specialize (IH (own_set (referral_id e) [e] g)).
        assert (Hnd1 : NoDup (map fst (own_set (referral_id e) [e] g)))
          by now apply own_set_NoDup.
        assert (Hown1 : forall k,
                   In k (map fst (own_set (referral_id e) [e] g)) ->
                   inherited k = false).
        { intros k. rewrite own_set_keys.
          destruct (existsb _ _); [apply Hown|].
          rewrite in_app_iff. intros [H|[<-|[]]]; [now apply Hown|exact Hin]. }
        specialize (IH Hnd1 Hown1).
        destruct (names_inherited E); [exact IH|].
        destruct IH as (g' & Hf & Hnd' & Hget).
        exists g'. repeat split; [exact Hf|exact Hnd'|].
        intros k. rewrite Hget. now apply grouped_step_new.
Qed.

Section EngineFacts.
Variable parseISO : string -> option Z.

(** [reconcile] throws exactly when some [referral_id] names an inherited
    member. *)
Lemma reconcile_raises (E : list ReferralEvent) :
  names_inherited E = true -> reconcile parseISO E = Raised TypeError.
Proof.
  intros H. unfold reconcile, group_by_referral.
  pose proof (@group_fold E []) as G.
  rewrite H in G. rewrite G; [reflexivity|constructor|intros k []].
Qed.

(** Otherwise it returns a map that holds, for every [referral_id] of the
    input, the state computed from that referral's events in input order,
    and nothing else. *)
Lemma reconcile_returns (E : list ReferralEvent) :
  names_inherited E = false ->
  exists m,
    reconcile parseISO E = Returned m
    /\ NoDup (map fst m)
    /\ forall rid,
         own_get rid m
         = match events_of rid E with
           | [] => None
           | raw => Some (reconcile_referral parseISO rid raw)
           end.
Proof.
  intros H. unfold reconcile, group_by_referral.
  pose proof (@group_fold E []) as G.
  rewrite H in G.
  destruct G as (g' & Hf & Hnd & Hget); [constructor|intros k []|].
  rewrite Hf. eexists. split; [reflexivity|]. split.
  - clear Hget Hf. generalize (entries g').
    assert (Hacc : NoDup (map fst (@nil (string * ReferralState))))
      by constructor.
    revert Hacc. generalize (@nil (string * ReferralState)).
    intros acc Hacc l. revert acc Hacc.
    induction l as [|kv l IH]; intros acc Hacc; simpl; [exact Hacc|].
    apply IH. now apply own_set_NoDup.
  - intros rid.
    rewrite (own_get_fill (fun k raw => reconcile_referral parseISO k raw))
      by now apply entries_NoDup.
    rewrite own_get_entries by exact Hnd.
    rewrite Hget. unfold grouped; simpl.
    now destruct (events_of rid E).
Qed.

End EngineFacts.

(* ================================================================== *)
(** * Deduplication *)
(* ================================================================== *)

Lemma map_has_In (k : Z) (m : SeqMap) :
  map_has k m = true <-> In k (map fst m).
Proof.
  unfold map_has. rewrite existsb_exists, in_map_iff.
  split; intros (kv & H1 & H2); exists kv.
  - apply Z.eqb_eq in H2. tauto.
  - split; [tauto|]. apply Z.eqb_eq. tauto.
Qed.

Lemma dedup_step_ok (acc : SeqMap * Z) (e : ReferralEvent) :
  seqmap_ok (fst acc) -> seqmap_ok (fst (dedup_step acc e)).
Proof.
  destruct acc as [m c]. unfold dedup_step. intros [Hk Hnd].
  destruct (map_has (seq e) m) eqn:Hh; simpl; [now split|].
  split.
  - apply Forall_app. split; [exact Hk|now repeat constructor].
  - rewrite map_app. simpl. apply NoDup_app; [exact Hnd|repeat constructor; intros []|].
    intros x Hx [<-|[]].
    apply map_has_In in Hx. congruence.
Qed.

Lemma dedup_fold_ok (raw : list ReferralEvent) (acc : SeqMap * Z) :
  seqmap_ok (fst acc) -> seqmap_ok (fst (fold_left dedup_step raw acc)).
Proof.
  revert acc. induction raw as [|e raw IH]; intros acc H; simpl; [exact H|].
  apply IH. now apply dedup_step_ok.
Qed.

Lemma dedup_step_has (acc : SeqMap * Z) (e : ReferralEvent) (k : Z) :
  map_has k (fst (dedup_step acc e))
  = map_has k (fst acc) || (k =? seq e).
Proof.
  destruct acc as [m c]. unfold dedup_step.
  destruct (map_has (seq e) m) eqn:Hh; simpl.
  - destruct (Z.eqb_spec k (seq e)) as [->|Hne].
    + rewrite Hh. reflexivity.
    + now rewrite orb_false_r.
  - unfold map_has. rewrite existsb_app. simpl.
    now rewrite orb_false_r, (Z.eqb_sym (seq e) k).
Qed.

Lemma dedup_fold_has (raw : list ReferralEvent) (acc : SeqMap * Z) (k : Z) :
  map_has k (fst (fold_left dedup_step raw acc))
  = map_has k (fst acc) || existsb (fun e => k =? seq e) raw.
Proof.
  revert acc. induction raw as [|e raw IH]; intros acc; simpl.
  - now rewrite orb_false_r.
  - rewrite IH, dedup_step_has. now rewrite orb_assoc.
Qed.

Lemma dedup_fold_from (raw : list ReferralEvent) (acc : SeqMap * Z)
    (kv : Z * ReferralEvent) :
  In kv (fst (fold_left dedup_step raw acc)) ->
  In kv (fst acc) \/ (In (snd kv) raw /\ fst kv = seq (snd kv)).
Proof.
  revert acc. induction raw as [|e raw IH]; intros acc H; simpl in *.
  - now left.
  - apply IH in H. destruct H as [H|[H1 H2]]; [|right; tauto].
    destruct acc as [m c]. unfold dedup_step in H.
    destruct (map_has (seq e) m); simpl in H; [now left|].
    apply in_app_iff in H. destruct H as [H|[<-|[]]]; [now left|].
    right. simpl. tauto.
Qed.

Lemma dedup_fold_keeps (raw : list ReferralEvent) (acc : SeqMap * Z) :
  exists added, fst (fold_left dedup_step raw acc) = fst acc ++ added.
Proof.
  revert acc. induction raw as [|e raw IH]; intros acc; simpl.
  - exists []. now rewrite app_nil_r.
  - destruct (IH (dedup_step acc e)) as [added Ha]. rewrite Ha.
    destruct acc as [m c]. unfold dedup_step.
    destruct (map_has (seq e) m); simpl.
    + now exists added.
    + exists ((seq e, e) :: added). now rewrite <- app_assoc.
Qed.

(** [duplicateCount] is the number of raw events that were not retained. *)
Lemma dedup_fold_count (raw : list ReferralEvent) (acc : SeqMap * Z) :
  snd (fold_left dedup_step raw acc)
  + Z.of_nat (List.length (fst (fold_left dedup_step raw acc)))
  = snd acc + Z.of_nat (List.length (fst acc))
    + Z.of_nat (List.length raw).
Proof.
  revert acc. induction raw as [|e raw IH]; intros acc; simpl List.length.
  - simpl. lia.
  - simpl fold_left. rewrite IH.
    destruct acc as [m c]. unfold dedup_step.
    destruct (map_has (seq e) m); simpl; [lia|].
    rewrite length_app. simpl. lia.
Qed.

(** Events whose [seq] is already present only raise the counter. *)
Lemma dedup_fold_seen (raw : list ReferralEvent) (m : SeqMap) (c : Z) :
  (forall e, In e raw -> map_has (seq e) m = true) ->
  fold_left dedup_step raw (m, c) = (m, c + Z.of_nat (List.length raw)).
Proof.
  revert c. induction raw as [|e raw IH]; intros c H.
  - simpl. f_equal. lia.
  - change (fold_left dedup_step (e :: raw) (m, c))
      with (fold_left dedup_step raw (dedup_step (m, c) e)).
    assert (Hs : dedup_step (m, c) e = (m, c + 1)).
    { unfold dedup_step. now rewrite (H e) by now left. }
    rewrite Hs, IH by (intros; apply H; now right).
    f_equal. simpl List.length. lia.
Qed.

Lemma dedup_ok (raw : list ReferralEvent) : seqmap_ok (fst (dedup raw)).
Proof. apply dedup_fold_ok. split; constructor. Qed.

Lemma dedup_has (raw : list ReferralEvent) (e : ReferralEvent) :
  In e raw -> map_has (seq e) (fst (dedup raw)) = true.
Proof.
  intros H. unfold dedup. rewrite dedup_fold_has. simpl.
  apply existsb_exists. exists e. split; [exact H|apply Z.eqb_refl].
Qed.

Lemma dedup_from (raw : list ReferralEvent) (e : ReferralEvent) :
  In e (map snd (fst (dedup raw))) -> In e raw.
Proof.
  intros H. apply in_map_iff in H. destruct H as (kv & <- & H).
  apply dedup_fold_from in H. simpl in H. tauto.
Qed.

Lemma dedup_count (raw : list ReferralEvent) :
  snd (dedup raw)
  = Z.of_nat (List.length raw) - Z.of_nat (List.length (fst (dedup raw))).
Proof.
  pose proof (dedup_fold_count raw ([], 0)) as H. simpl in H.
  unfold dedup. lia.
Qed.

(** Feeding the same events a second time retains nothing new. *)
Lemma dedup_twice (raw : list ReferralEvent) :
  dedup (raw ++ raw)
  = (fst (dedup raw), snd (dedup raw) + Z.of_nat (List.length raw)).
Proof.
  unfold dedup at 1. rewrite fold_left_app.
  fold (dedup raw). destruct (dedup raw) as [m c] eqn:Hd.
  apply dedup_fold_seen. intros e He.
  pose proof (dedup_has raw e He) as H. now rewrite Hd in H.
Qed.

Lemma seqmap_keys_are_seqs (m : SeqMap) :
  seqmap_ok m -> map seq (map snd m) = map fst m.
Proof.
  intros [Hk _]. induction Hk as [|kv m Hkv Hk IH]; simpl; [reflexivity|].
  now rewrite IH, Hkv.
Qed.

(** The retained events carry pairwise distinct [seq]s. *)
Lemma dedup_seqs_NoDup (raw : list ReferralEvent) :
  NoDup (map seq (map snd (fst (dedup raw)))).
Proof.
  rewrite seqmap_keys_are_seqs by apply dedup_ok.
  apply dedup_ok.
Qed.

(* ================================================================== *)
(** * Replay *)
(* ================================================================== *)

(** The replay never touches the identity, the retained events or the two
    counters computed before it. *)
Lemma replay_step_frame (acc : ReferralState * bool) (e : ReferralEvent) :
  let acc' := replay_step acc e in
  st_referral_id (fst acc') = st_referral_id (fst acc)
  /\ events (fst acc') = events (fst acc)
  /\ duplicates (metrics (fst acc')) = duplicates (metrics (fst acc))
  /\ seqGaps (metrics (fst acc')) = seqGaps (metrics (fst acc)).
Proof.
  destruct acc as [st t]. cbv zeta. step_cases; simpl; auto.
Qed.

Lemma replay_frame (l : list ReferralEvent) (acc : ReferralState * bool) :
  let acc' := replay l acc in
  st_referral_id (fst acc') = st_referral_id (fst acc)
  /\ events (fst acc') = events (fst acc)
  /\ duplicates (metrics (fst acc')) = duplicates (metrics (fst acc))
  /\ seqGaps (metrics (fst acc')) = seqGaps (metrics (fst acc)).
Proof.
  revert acc. induction l as [|e l IH]; intros acc; simpl; [auto|].
  destruct (IH (replay_step acc e)) as (H1 & H2 & H3 & H4).
  destruct (replay_step_frame acc e) as (G1 & G2 & G3 & G4).
  unfold replay in *. repeat split; congruence.
Qed.

(** The appointment blocks leave the status alone. *)
Lemma appointment_logic_status (st : ReferralState) (e : ReferralEvent) :
  status (appointment_cancelled_logic (appointment_set_logic st e) e)
  = status st.
Proof.
  unfold appointment_set_logic, appointment_cancelled_logic.
  split_matches; reflexivity.
Qed.

Lemma replay_step_status (acc : ReferralState * bool) (e : ReferralEvent) :
  status (fst (replay_step acc e)) = status (fst (status_logic acc e))
  /\ snd (replay_step acc e) = snd (status_logic acc e).
Proof.
  unfold replay_step. destruct (status_logic acc e) as [st t]. simpl.
  split; [apply appointment_logic_status|reflexivity].
Qed.

(** The flag [isTerminal] is true exactly when the status is terminal. *)
Lemma status_logic_flag (acc : ReferralState * bool) (e : ReferralEvent) :
  flag_ok acc -> flag_ok (status_logic acc e).
Proof.
  destruct acc as [st t]. unfold flag_ok, is_terminal, status_logic.
  cbn [fst snd]. intros ->.
  destruct (String.eqb (type e) "STATUS_UPDATE"); [|reflexivity].
  destruct (truthy (p_status (payload e))) as [s|]; [|reflexivity].
  destruct (includes TERMINAL_STATUSES (status st)) eqn:Ht;
    destruct (includes TERMINAL_STATUSES s) eqn:Hs;
    cbn [fst snd status with_status with_metrics]; congruence.
Qed.

Lemma replay_step_flag (acc : ReferralState * bool) (e : ReferralEvent) :
  flag_ok acc -> flag_ok (replay_step acc e).
Proof.
  intros H. apply (status_logic_flag e) in H.
  destruct (replay_step_status acc e) as [H1 H2].
  unfold flag_ok, is_terminal in *. now rewrite H1, H2.
Qed.

Lemma replay_flag (l : list ReferralEvent) (acc : ReferralState * bool) :
  flag_ok acc -> flag_ok (replay l acc).
Proof.
  revert acc. induction l as [|e l IH]; intros acc H; simpl; [exact H|].
  apply IH. now apply replay_step_flag.
Qed.




(** An event that lacks what its type needs leaves the replay state as it
    was. *)
Lemma replay_step_malformed (acc : ReferralState * bool) (e : ReferralEvent) :
  well_formed e = false -> replay_step acc e = acc.
Proof.
  destruct acc as [st t]. unfold well_formed.
  unfold replay_step, status_logic, appointment_set_logic,
    appointment_cancelled_logic.
  destruct (String.eqb (type e) "STATUS_UPDATE");
    destruct (String.eqb (type e) "APPOINTMENT_SET");
    destruct (String.eqb (type e) "APPOINTMENT_CANCELLED");
    destruct (truthy (p_status (payload e)));
    destruct (truthy (p_appt_id (payload e)));
    destruct (truthy (p_start_time (payload e)));
    simpl; intros H; try discriminate; reflexivity.
Qed.

Lemma initial_flag_ok (rid : string) (d g : Z) (evs : list ReferralEvent) :
  flag_ok (initial_state rid d g evs, false).
Proof. reflexivity. Qed.

Lemma replay_app (l1 l2 : list ReferralEvent) (acc : ReferralState * bool) :
  replay (l1 ++ l2) acc = replay l2 (replay l1 acc).
Proof. apply fold_left_app. Qed.



(* ================================================================== *)
(** * The state of one referral *)
(* ================================================================== *)

Section ReferralFacts.
Variable parseISO : string -> option Z.

Lemma reconcile_referral_unfold (rid : string) (raw : list ReferralEvent) :
  reconcile_referral parseISO rid raw = finalize parseISO (replayed rid raw).
Proof.
  unfold reconcile_referral, replayed, retained.
  now destruct (dedup raw).
Qed.

Lemma finalize_frame (acc : ReferralState * bool) :
  let st := finalize parseISO acc in
  st_referral_id st = st_referral_id (fst acc)
  /\ status st = status (fst acc)
  /\ metrics st = metrics (fst acc)
  /\ events st = events (fst acc)
  /\ appointments st = appointments (fst acc)
  /\ active_appointment st
     = if snd acc then None else find_best parseISO (appointments (fst acc)).
Proof. destruct acc as [st []]; simpl; repeat split. Qed.

Lemma reconcile_referral_events (rid : string) (raw : list ReferralEvent) :
  events (reconcile_referral parseISO rid raw) = retained raw.
Proof.
  rewrite reconcile_referral_unfold.
  destruct (finalize_frame (replayed rid raw)) as (_ & _ & _ & -> & _).
  unfold replayed.
  now destruct (replay_frame (retained raw)
    (initial_state rid (snd (dedup raw)) (count_gaps (retained raw))
       (retained raw), false)) as (_ & -> & _).
Qed.

Lemma reconcile_referral_counts (rid : string) (raw : list ReferralEvent) :
  duplicates (metrics (reconcile_referral parseISO rid raw)) = snd (dedup raw)
  /\ seqGaps (metrics (reconcile_referral parseISO rid raw))
     = count_gaps (retained raw).
Proof.
  rewrite reconcile_referral_unfold.
  destruct (finalize_frame (replayed rid raw)) as (_ & _ & -> & _).
  unfold replayed.
  destruct (replay_frame (retained raw)
    (initial_state rid (snd (dedup raw)) (count_gaps (retained raw))
       (retained raw), false)) as (_ & _ & -> & ->).
  split; reflexivity.
Qed.

(** Every state in the returned map is the state of its referral,
    computed from that referral's events, of which there is at least
    one. *)
Lemma reconcile_lookup (E : list ReferralEvent) (m : ReconciledMap)
    (rid : string) (st : ReferralState) :
  reconcile parseISO E = Returned m ->
  own_get rid m = Some st ->
  events_of rid E <> []
  /\ st = reconcile_referral parseISO rid (events_of rid E).
Proof.
  intros Hr Hg.
  destruct (names_inherited E) eqn:Hn.
  - rewrite (reconcile_raises parseISO E Hn) in Hr. discriminate.
  - destruct (reconcile_returns parseISO E Hn) as (m' & Hr' & _ & Hget).
    rewrite Hr in Hr'. injection Hr' as <-.
    rewrite Hget in Hg.
    destruct (events_of rid E); [discriminate|].
    split; [discriminate|congruence].
Qed.

End ReferralFacts.

(* ================================================================== *)
(** * Retained events and gaps *)
(* ================================================================== *)

(** ** Rounding *)

Lemma round_exact (z : Z) : Z.abs z <= 2 ^ 53 -> JsNumber.round z = z.
Proof.
  intros H. unfold JsNumber.round.
  destruct (Z.ltb_spec (Z.abs z) (2 ^ 53)) as [_|Hge]; [reflexivity|].
  assert (Hz : z = 2 ^ 53 \/ z = - 2 ^ 53) by lia.
  destruct Hz as [-> | ->]; reflexivity.
Qed.

(** Past [2 ^ 53] the rounded magnitude is a positive multiple of the
    spacing, so rounding never changes a sign. *)
Lemma round_magnitude (a : Z) (up : bool) :
  2 ^ 53 <= a ->
  0 < (if up then a / 2 ^ (Z.log2 a - 52) + 1 else a / 2 ^ (Z.log2 a - 52))
      * 2 ^ (Z.log2 a - 52).
Proof.
  intros Ha.
  assert (Hl : 53 <= Z.log2 a).
  { change 53 with (Z.log2 (2 ^ 53)). now apply Z.log2_le_mono. }
  assert (Hp : 0 < 2 ^ (Z.log2 a - 52)) by (apply Z.pow_pos_nonneg; lia).
  assert (Hle : 2 ^ (Z.log2 a - 52) <= a).
  { transitivity (2 ^ Z.log2 a).
    - apply Z.pow_le_mono_r; lia.
    - apply Z.log2_spec. lia. }
  assert (Hq : 0 < a / 2 ^ (Z.log2 a - 52)) by now apply Z.div_str_pos.
  destruct up; nia.
Qed.

Lemma round_sign (z : Z) :
  (JsNumber.round z <= 0 <-> z <= 0) /\ (0 <= z -> 0 <= JsNumber.round z).
Proof.
  unfold JsNumber.round.
  destruct (Z.ltb_spec (Z.abs z) (2 ^ 53)) as [_|Hge]; [lia|].
  match goal with
  | |- context [if ?b then _ + 1 else _] =>
      pose proof (@round_magnitude (Z.abs z) b Hge) as Hm
  end.
  cbv zeta.
  destruct (Z.sgn_spec z) as [[Hz ->]|[[Hz ->]|[Hz ->]]]; lia.
Qed.

Lemma seq_cmp_key (a b : ReferralEvent) :
  JsNumber.sub (seq a) (seq b) <= 0 <-> seq a <= seq b.
Proof.
  unfold JsNumber.sub.
  destruct (round_sign (seq a - seq b)) as [H _]. rewrite H. lia.
Qed.

Lemma retained_sorted (raw : list ReferralEvent) :
  StronglySorted (key_lt seq) (retained raw).
Proof.
  apply (sort_strict (fun a b => JsNumber.sub (seq a) (seq b)) seq
           seq_cmp_key).
  apply dedup_seqs_NoDup.
Qed.

Lemma retained_In (raw : list ReferralEvent) (e : ReferralEvent) :
  In e (retained raw) <-> In e (map snd (fst (dedup raw))).
Proof. apply sort_In. Qed.

Lemma retained_length (raw : list ReferralEvent) :
  List.length (retained raw) = List.length (fst (dedup raw)).
Proof. unfold retained, sort_by_seq. now rewrite sort_length, length_map. Qed.

Lemma retained_nonempty (raw : list ReferralEvent) :
  raw <> [] -> retained raw <> [].
Proof.
  destruct raw as [|e raw]; [congruence|]. intros _ H.
  pose proof (dedup_has (e :: raw) e (or_introl eq_refl)) as Hh.
  apply map_has_In in Hh.
  apply (f_equal (@List.length _)) in H. rewrite retained_length in H.
  destruct (fst (dedup (e :: raw))); [destruct Hh|discriminate].
Qed.

Lemma sorted_seqs (l : list ReferralEvent) :
  StronglySorted (key_lt seq) l -> StronglySorted Z.lt (map seq l).
Proof.
  induction 1 as [|x xs Hs IH Hall]; simpl; constructor; [exact IH|].
  apply Forall_map. exact Hall.
Qed.

Lemma count_gaps_loop (l : list ReferralEvent) (seqGaps : Z) :
  count_gaps_from seqGaps l = gap_loop seqGaps (map seq l).
Proof.
  revert seqGaps. induction l as [|a [|b l] IH]; intros seqGaps;
    [reflexivity|reflexivity|].
  change (count_gaps_from seqGaps (a :: b :: l))
    with (count_gaps_from
            (if 1 <? JsNumber.sub (seq b) (seq a)
             then JsNumber.add seqGaps
                    (JsNumber.sub (JsNumber.sub (seq b) (seq a)) 1)
             else seqGaps) (b :: l)).
  now rewrite IH.
Qed.

Lemma gap_loop_nonneg (seqs : list Z) (seqGaps : Z) :
  0 <= seqGaps -> 0 <= gap_loop seqGaps seqs.
Proof.
  revert seqGaps. induction seqs as [|a [|b l] IH]; intros seqGaps H;
    [exact H|exact H|].
  change (gap_loop seqGaps (a :: b :: l))
    with (gap_loop
            (if 1 <? JsNumber.sub b a
             then JsNumber.add seqGaps (JsNumber.sub (JsNumber.sub b a) 1)
             else seqGaps) (b :: l)).
  apply IH.
  destruct (Z.ltb_spec 1 (JsNumber.sub b a)) as [Hd|_]; [|exact H].
  unfold JsNumber.add. apply round_sign.
  assert (0 <= JsNumber.sub (JsNumber.sub b a) 1); [|lia].
  unfold JsNumber.sub at 1. apply round_sign. lia.
Qed.

(** While the first and the last sequence number are no more than [2 ^ 53]
    apart, no step of the loop rounds. *)
Lemma gap_loop_exact (seqs : list Z) (seqGaps : Z) :
  StronglySorted Z.lt seqs ->
  0 <= seqGaps ->
  seqGaps + (last seqs 0 - hd 0 seqs) <= 2 ^ 53 ->
  gap_loop seqGaps seqs = seqGaps + gap_sum seqs.
Proof.
  intros Hs. revert seqGaps.
  induction Hs as [|a l Hs IH Hall]; intros seqGaps H0 Hb; [simpl; lia|].
  destruct l as [|b l]; [simpl; lia|].
  change (gap_loop seqGaps (a :: b :: l))
    with (gap_loop
            (if 1 <? JsNumber.sub b a
             then JsNumber.add seqGaps (JsNumber.sub (JsNumber.sub b a) 1)
             else seqGaps) (b :: l)).
  change (gap_sum (a :: b :: l))
    with (Z.max 0 (b - a - 1) + gap_sum (b :: l)).
  change (last (a :: b :: l) 0) with (last (b :: l) 0) in Hb.
  change (hd 0 (a :: b :: l)) with a in Hb.
  inversion Hall as [|? ? Hab _]; subst.
  assert (Hlast : b <= last (b :: l) 0).
  { clear - Hs. inversion Hs as [|? ? _ Hall']; subst.
    destruct l as [|c l]; [simpl; lia|].
    assert (Hin : In (last (c :: l) 0) (c :: l)).
    { destruct (exists_last (l := c :: l)) as (l' & x & E);
        [discriminate|].
      rewrite E, last_last. apply in_or_app. right. now left. }
    change (last (b :: c :: l) 0) with (last (c :: l) 0).
    rewrite Forall_forall in Hall'. specialize (Hall' _ Hin). lia. }
  assert (Hd : JsNumber.sub b a = b - a).
  { unfold JsNumber.sub. apply round_exact. lia. }
  rewrite Hd.
  destruct (Z.ltb_spec 1 (b - a)) as [Hgap|Hgap].
  - assert (Hd1 : JsNumber.sub (b - a) 1 = b - a - 1).
    { unfold JsNumber.sub. apply round_exact. lia. }
    rewrite Hd1.
    assert (Ha : JsNumber.add seqGaps (b - a - 1) = seqGaps + (b - a - 1)).
    { unfold JsNumber.add. apply round_exact. lia. }
    rewrite Ha. rewrite IH.
    + lia.
    + lia.
    + change (hd 0 (b :: l)) with b. lia.
  - rewrite IH.
    + lia.
    + exact H0.
    + change (hd 0 (b :: l)) with b. lia.
Qed.

(** On a strictly increasing list the gaps add up to the missing numbers
    between the first and the last element. *)
Lemma gap_sum_strict (seqs : list Z) :
  StronglySorted Z.lt seqs -> seqs <> [] ->
  gap_sum seqs
  = last seqs 0 - hd 0 seqs - (Z.of_nat (List.length seqs) - 1).
Proof.
  induction 1 as [|a l Hs IH Hall]; [congruence|]. intros _.
  destruct l as [|b l].
  - simpl. lia.
  - change (gap_sum (a :: b :: l))
      with (Z.max 0 (b - a - 1) + gap_sum (b :: l)).
    rewrite IH by discriminate.
    change (last (a :: b :: l) 0) with (last (b :: l) 0).
    inversion Hall as [|? ? Hab _]; subst.
    simpl hd. simpl List.length. lia.
Qed.

(** The first and the last element of a non-empty list are among its
    elements. *)
Lemma hd_last_In (seqs : list Z) :
  seqs <> [] -> In (hd 0 seqs) seqs /\ In (last seqs 0) seqs.
Proof.
  intros H. split.
  - destruct seqs; [congruence|now left].
  - destruct (exists_last H) as (l & x & ->).
    rewrite last_last. apply in_or_app. right. now left.
Qed.

Lemma retained_seq_from (rid : string) (E : list ReferralEvent) (n : Z) :
  In n (map seq (retained (events_of rid E))) ->
  exists e, In e E /\ referral_id e = rid /\ seq e = n.
Proof.
  intros H. apply in_map_iff in H. destruct H as (e & He & Hin).
  apply retained_In, dedup_from in Hin.
  unfold events_of in Hin. apply filter_In in Hin.
  destruct Hin as [Hin Hid]. apply String.eqb_eq in Hid.
  now exists e.
Qed.

(** C4. Gap accounting.  For every referral of the returned map, the
    retained events are the deduplicated events of that referral sorted by
    seq and their seqs are strictly increasing; when the sequence numbers
    of the referral lie within 2^53 of one another, metrics.seqGaps is both
    the sum over consecutive retained pairs of max(0, seq[i+1] - seq[i] - 1)
    and last - first - (len - 1); nothing before the first or after the
    last retained seq is counted. *)
Theorem gap_accounting (parseISO : string -> option Z)
    (E : list ReferralEvent) (m : ReconciledMap) (rid : string)
    (st : ReferralState) :
  reconcile parseISO E = Returned m ->
  own_get rid m = Some st ->
  seqs_span_exact rid E ->
  let seqs := map seq (events st) in
  events st = retained (events_of rid E)
  /\ StronglySorted Z.lt seqs
  /\ seqs <> []
  /\ seqGaps (metrics st) = gap_sum seqs
  /\ seqGaps (metrics st)
     = last seqs 0 - hd 0 seqs - (Z.of_nat (List.length seqs) - 1).
Proof.
  intros Hr Hg Hspan seqs.
  destruct (reconcile_lookup _ _ _ Hr Hg) as [Hne ->].
  subst seqs. rewrite reconcile_referral_events.
  destruct (reconcile_referral_counts parseISO rid (events_of rid E))
    as [_ ->].
  assert (Hs : StronglySorted Z.lt (map seq (retained (events_of rid E)))).
  { apply sorted_seqs, retained_sorted. }
  assert (Hn : map seq (retained (events_of rid E)) <> []).
  { intros H. apply map_eq_nil in H. now apply retained_nonempty in H. }
  assert (Hexact : count_gaps (retained (events_of rid E))
                   = gap_sum (map seq (retained (events_of rid E)))).
  { unfold count_gaps. rewrite count_gaps_loop.
    rewrite gap_loop_exact; [lia|exact Hs|lia|].
    destruct (hd_last_In Hn) as [Hhd Hlast].
    apply retained_seq_from in Hhd. destruct Hhd as (e1 & H1 & I1 & <-).
    apply retained_seq_from in Hlast. destruct Hlast as (e2 & H2 & I2 & <-).
    specialize (Hspan e1 e2 H1 H2 I1 I2). lia. }
  repeat split; try assumption.
  rewrite Hexact. now apply gap_sum_strict.
Qed.

(** The unit test "should calculate sequence gaps": seqs 1 and 3, one gap. *)
Lemma gap_accounting_witness :
  let st := reconcile_referral sample_parseISO "ref_1" gap_sample in
  seqs_span_exact "ref_1" gap_sample
  /\ seqGaps (metrics st) = 1
  /\ seqGaps (metrics st) = gap_sum [1; 3]
  /\ seqGaps (metrics st) = 3 - 1 - (2 - 1).
Proof.
  intros st.
  assert (Hspan : seqs_span_exact "ref_1" gap_sample).
  { intros e1 e2 H1 H2 _ _. simpl in H1, H2.
    destruct H1 as [<-|[<-|[]]]; destruct H2 as [<-|[<-|[]]]; simpl; lia. }
  pose proof (@gap_accounting sample_parseISO gap_sample
                [("ref_1", st)] "ref_1" st eq_refl eq_refl Hspan) as H.
  destruct H as (_ & _ & _ & H1 & H2).
  split; [exact Hspan|]. split; [reflexivity|]. split; [exact H1|exact H2].
Defined.

(** Past the exact range the loop rounds.  With retained seqs 1 and
    2^53 + 2 the difference 2^53 + 1 is not a double and is rounded to 2^53
    before 1 is taken off: seqGaps is 2^53 - 1, while the sum of
    max(0, seq[i+1] - seq[i] - 1), which is also last - first - (len - 1),
    is 2^53. *)
Lemma wide_gap_is_rounded :
  exists st,
    lookup_state "R" (reconcile sample_parseISO wide_gap_sample) = Some st
    /\ map seq (events st) = [1; 9007199254740994]
    /\ seqGaps (metrics st) = 9007199254740991
    /\ gap_sum (map seq (events st)) = 9007199254740992
    /\ last (map seq (events st)) 0 - hd 0 (map seq (events st))
       - (Z.of_nat (List.length (events st)) - 1) = 9007199254740992
    /\ seqGaps (metrics st) <> gap_sum (map seq (events st)).
Proof.
  eexists. split; [reflexivity|]. vm_compute. repeat split; discriminate.
Qed.

(* ================================================================== *)
(** * Feeding the input twice *)
(* ================================================================== *)

(** The replay does not read the [duplicates] counter. *)
Lemma status_logic_duplicates (d : Z) (acc : ReferralState * bool)
    (e : ReferralEvent) :
  status_logic (with_duplicates d (fst acc), snd acc) e
  = (with_duplicates d (fst (status_logic acc e)), snd (status_logic acc e)).
Proof.
  destruct acc as [[i s a [d0 g0 o r c] ev ap] t].
  unfold status_logic. cbn [fst snd].
  split_matches; reflexivity.
Qed.

Lemma appointment_set_logic_duplicates (d : Z) (st : ReferralState)
    (e : ReferralEvent) :
  appointment_set_logic (with_duplicates d st) e
  = with_duplicates d (appointment_set_logic st e).
Proof.
  destruct st as [i s a [d0 g0 o r c] ev ap].
  unfold appointment_set_logic, with_duplicates, with_metrics,
    with_appointments, bump_reschedules.
  cbn [appointments metrics st_referral_id status active_appointment events
       duplicates seqGaps terminalOverrides reschedules cancelledAppts].
  split_matches; reflexivity.
Qed.

Lemma appointment_cancelled_logic_duplicates (d : Z) (st : ReferralState)
    (e : ReferralEvent) :
  appointment_cancelled_logic (with_duplicates d st) e
  = with_duplicates d (appointment_cancelled_logic st e).
Proof.
  destruct st as [i s a [d0 g0 o r c] ev ap].
  unfold appointment_cancelled_logic, with_duplicates, with_metrics,
    with_appointments, bump_cancelledAppts.
  cbn [appointments metrics st_referral_id status active_appointment events
       duplicates seqGaps terminalOverrides reschedules cancelledAppts].
  split_matches; reflexivity.
Qed.

Lemma replay_step_duplicates (d : Z) (acc : ReferralState * bool)
    (e : ReferralEvent) :
  replay_step (with_duplicates d (fst acc), snd acc) e
  = (with_duplicates d (fst (replay_step acc e)), snd (replay_step acc e)).
Proof.
  unfold replay_step. rewrite status_logic_duplicates.
  destruct (status_logic acc e) as [st t]. cbn [fst snd].
  now rewrite appointment_set_logic_duplicates,
    appointment_cancelled_logic_duplicates.
Qed.

Lemma replay_duplicates (d : Z) (l : list ReferralEvent)
    (acc : ReferralState * bool) :
  replay l (with_duplicates d (fst acc), snd acc)
  = (with_duplicates d (fst (replay l acc)), snd (replay l acc)).
Proof.
  revert acc. induction l as [|e l IH]; intros acc; simpl.
  - reflexivity.
  - rewrite replay_step_duplicates. apply IH.
Qed.

Lemma finalize_duplicates (parseISO : string -> option Z) (d : Z)
    (acc : ReferralState * bool) :
  finalize parseISO (with_duplicates d (fst acc), snd acc)
  = with_duplicates d (finalize parseISO acc).
Proof. destruct acc as [st []]; reflexivity. Qed.

Lemma retained_twice (raw : list ReferralEvent) :
  retained (raw ++ raw) = retained raw.
Proof. unfold retained. now rewrite dedup_twice. Qed.

(** The state of a referral whose events are fed twice differs from the
    state for one copy in the [duplicates] counter only, which grows by
    the number of raw events. *)
Lemma reconcile_referral_twice (parseISO : string -> option Z)
    (rid : string) (raw : list ReferralEvent) :
  reconcile_referral parseISO rid (raw ++ raw)
  = with_duplicates (snd (dedup raw) + Z.of_nat (List.length raw))
      (reconcile_referral parseISO rid raw).
Proof.
  rewrite !reconcile_referral_unfold. unfold replayed.
  rewrite retained_twice, dedup_twice. cbn [snd].
  set (l := retained raw).
  set (d2 := snd (dedup raw) + Z.of_nat (List.length raw)).
  change (initial_state rid d2 (count_gaps l) l, false)
    with (with_duplicates d2
            (fst (initial_state rid (snd (dedup raw)) (count_gaps l) l,
                  false)),
          snd (initial_state rid (snd (dedup raw)) (count_gaps l) l, false)).
  rewrite replay_duplicates. apply finalize_duplicates.
Qed.

Lemma duplicates_with_duplicates (d : Z) (st : ReferralState) :
  duplicates (metrics (with_duplicates d st)) = d.
Proof. reflexivity. Qed.

Lemma events_of_app (rid : string) (E1 E2 : list ReferralEvent) :
  events_of rid (E1 ++ E2) = events_of rid E1 ++ events_of rid E2.
Proof. apply filter_app. Qed.

Lemma names_inherited_twice (E : list ReferralEvent) :
  names_inherited (E ++ E) = names_inherited E.
Proof.
  unfold names_inherited. rewrite existsb_app. apply orb_diag.
Qed.

(** C5, as amended.  Feeding the input twice yields the same referrals and,
    for each of them, the same retained events, status, active_appointment,
    appointments mapping and remaining counters; the duplicates counter
    grows by the number of raw events of the referral, which makes it twice
    the old counter plus the number of retained events. *)
Theorem duplicate_idempotence (parseISO : string -> option Z)
    (E : list ReferralEvent) (m : ReconciledMap) :
  reconcile parseISO E = Returned m ->
  exists m2,
    reconcile parseISO (E ++ E) = Returned m2
    /\ forall rid,
         match own_get rid m, own_get rid m2 with
         | Some st, Some st2 =>
             events st2 = events st
             /\ status st2 = status st
             /\ active_appointment st2 = active_appointment st
             /\ appointments st2 = appointments st
             /\ seqGaps (metrics st2) = seqGaps (metrics st)
             /\ terminalOverrides (metrics st2) = terminalOverrides (metrics st)
             /\ reschedules (metrics st2) = reschedules (metrics st)
             /\ cancelledAppts (metrics st2) = cancelledAppts (metrics st)
             /\ duplicates (metrics st2)
                = duplicates (metrics st)
                  + Z.of_nat (List.length (events_of rid E))
             /\ duplicates (metrics st2)
                = 2 * duplicates (metrics st)
                  + Z.of_nat (List.length (events st))
         | None, None => True
         | _, _ => False
         end.
Proof.
  intros Hr.
  destruct (names_inherited E) eqn:Hn.
  { rewrite (reconcile_raises parseISO E Hn) in Hr. discriminate. }
  destruct (reconcile_returns parseISO E Hn) as (m' & Hr' & _ & Hget).
  rewrite Hr in Hr'. injection Hr' as <-.
  destruct (reconcile_returns parseISO (E ++ E)) as (m2 & Hr2 & _ & Hget2).
  { now rewrite names_inherited_twice. }
  exists m2. split; [exact Hr2|]. intros rid.
  rewrite Hget, Hget2, events_of_app.
  destruct (events_of rid E) as [|e raw] eqn:Hraw; [exact I|].
  cbn [app]. change (e :: raw ++ e :: raw) with ((e :: raw) ++ e :: raw).
  rewrite reconcile_referral_twice.
  set (st := reconcile_referral parseISO rid (e :: raw)).
  assert (Hd : duplicates (metrics st) = snd (dedup (e :: raw)))
    by apply reconcile_referral_counts.
  assert (He : events st = retained (e :: raw))
    by apply reconcile_referral_events.
  repeat split; try reflexivity; rewrite duplicates_with_duplicates.
  - rewrite Hd. reflexivity.
  - rewrite He, retained_length, Hd, (dedup_count (e :: raw)). lia.
Qed.

(** C5 as the specification states it ("duplicates doubles") fails on a
    single event: fed twice, it is counted as one duplicate, and twice zero
    is zero. *)
Lemma duplicates_do_not_double :
  exists st st2,
    lookup_state "R2" (reconcile sample_parseISO single_sample) = Some st
    /\ lookup_state "R2"
         (reconcile sample_parseISO (single_sample ++ single_sample))
       = Some st2
    /\ duplicates (metrics st) = 0
    /\ duplicates (metrics st2) = 1
    /\ duplicates (metrics st2) <> 2 * duplicates (metrics st).
Proof. do 2 eexists. repeat split. discriminate. Qed.

Lemma duplicate_idempotence_witness :
  exists m2,
    reconcile sample_parseISO (single_sample ++ single_sample) = Returned m2
    /\ option_map (fun st => duplicates (metrics st)) (own_get "R2" m2)
       = Some 1.
Proof.
  destruct (@duplicate_idempotence sample_parseISO single_sample
              [("R2", reconcile_referral sample_parseISO "R2" single_sample)]
              eq_refl) as (m2 & Hr & _).
  exists m2. split; [exact Hr|].
  injection Hr as <-. reflexivity.
Defined.

(* ================================================================== *)
(** * Reordering the input *)
(* ================================================================== *)

Lemma filter_perm {A : Type} (f : A -> bool) (l l' : list A) :
  Permutation l l' -> Permutation (filter f l) (filter f l').
Proof.
  induction 1 as [|x l l' Hp IH|x y l|l l' l'' H1 IH1 H2 IH2]; simpl.
  - constructor.
  - destruct (f x); [now constructor|exact IH].
  - destruct (f x), (f y); try reflexivity. apply perm_swap.
  - now transitivity (filter f l').
Qed.

Lemma names_inherited_perm (E E' : list ReferralEvent) :
  Permutation E E' -> names_inherited E = names_inherited E'.
Proof.
  intros Hp. unfold names_inherited.
  apply eq_true_iff_eq. rewrite !existsb_exists.
  split; intros (e & He & Hi); exists e; split; try exact Hi.
  - eapply Permutation_in; [exact Hp|exact He].
  - eapply Permutation_in; [symmetry; exact Hp|exact He].
Qed.

(** When equal [seq]s mean equal events, deduplication retains exactly the
    events that occur in the input. *)
Lemma retained_In_agree (raw : list ReferralEvent) (e : ReferralEvent) :
  (forall e1 e2, In e1 raw -> In e2 raw -> seq e1 = seq e2 -> e1 = e2) ->
  (In e (retained raw) <-> In e raw).
Proof.
  intros Hag. rewrite retained_In. split; [apply dedup_from|].
  intros He.
  pose proof (dedup_has raw e He) as Hh.
  unfold map_has in Hh. apply existsb_exists in Hh.
  destruct Hh as (kv & Hkv & Hk). apply Z.eqb_eq in Hk.
  apply in_map_iff. exists kv. split; [|exact Hkv].
  pose proof (dedup_fold_from raw ([], 0) kv Hkv) as [[]|[Hin Hs]].
  apply Hag; [exact Hin|exact He|congruence].
Qed.

Lemma retained_perm (raw raw' : list ReferralEvent) :
  (forall e1 e2, In e1 raw -> In e2 raw -> seq e1 = seq e2 -> e1 = e2) ->
  Permutation raw raw' ->
  retained raw = retained raw'.
Proof.
  intros Hag Hp.
  assert (Hag' : forall e1 e2,
             In e1 raw' -> In e2 raw' -> seq e1 = seq e2 -> e1 = e2).
  { intros e1 e2 H1 H2. apply Hag; eapply Permutation_in;
      try (symmetry; exact Hp); assumption. }
  apply (@strict_sorted_unique _ seq); try apply retained_sorted.
  intros e. rewrite (retained_In_agree raw e Hag),
    (retained_In_agree raw' e Hag').
  split; apply Permutation_in; [exact Hp|now symmetry].
Qed.

Lemma dedup_count_perm (raw raw' : list ReferralEvent) :
  retained raw = retained raw' ->
  Permutation raw raw' ->
  snd (dedup raw) = snd (dedup raw').
Proof.
  intros Hr Hp. rewrite !dedup_count, <- !retained_length, Hr.
  now rewrite (Permutation_length Hp).
Qed.

Lemma reconcile_referral_perm (parseISO : string -> option Z) (rid : string)
    (raw raw' : list ReferralEvent) :
  (forall e1 e2, In e1 raw -> In e2 raw -> seq e1 = seq e2 -> e1 = e2) ->
  Permutation raw raw' ->
  reconcile_referral parseISO rid raw = reconcile_referral parseISO rid raw'.
Proof.
  intros Hag Hp. rewrite !reconcile_referral_unfold. unfold replayed.
  pose proof (retained_perm Hag Hp) as Hr.
  now rewrite (dedup_count_perm Hr Hp), Hr.
Qed.

Lemma events_of_In (rid : string) (E : list ReferralEvent) (e : ReferralEvent) :
  In e (events_of rid E) <-> In e E /\ referral_id e = rid.
Proof.
  unfold events_of. rewrite filter_In.
  now rewrite String.eqb_eq.
Qed.

(** C1, as amended.  For an input in which any two events that share
    (referral_id, seq) agree on type as well as payload, every permutation
    of the input gives the same result: either both calls throw, or both
    return maps that hold, under every referral_id, the same ReferralState,
    with the same retained events, status, appointments, active_appointment
    and all five counters. *)
Theorem permutation_invariance (parseISO : string -> option Z)
    (E E' : list ReferralEvent) :
  Permutation E E' ->
  duplicates_agree E ->
  same_result (reconcile parseISO E) (reconcile parseISO E').
Proof.
  intros Hp Hag.
  pose proof (names_inherited_perm Hp) as Hn.
  destruct (names_inherited E) eqn:Hn1.
  - rewrite (reconcile_raises parseISO E Hn1).
    rewrite (reconcile_raises parseISO E') by congruence.
    reflexivity.
  - destruct (reconcile_returns parseISO E Hn1) as (m & -> & _ & Hget).
    destruct (reconcile_returns parseISO E') as (m' & -> & _ & Hget');
      [congruence|].
    intros rid. rewrite Hget, Hget'.
    assert (Hpr : Permutation (events_of rid E) (events_of rid E'))
      by now apply filter_perm.
    assert (Hagr : forall e1 e2,
               In e1 (events_of rid E) -> In e2 (events_of rid E) ->
               seq e1 = seq e2 -> e1 = e2).
    { intros e1 e2 H1 H2 Hs.
      apply events_of_In in H1, H2. apply Hag; try tauto.
      destruct H1 as [_ ->], H2 as [_ ->]. reflexivity. }
    pose proof (reconcile_referral_perm parseISO rid Hagr Hpr) as Heq.
    destruct (events_of rid E) as [|e raw] eqn:H1;
      destruct (events_of rid E') as [|e' raw'] eqn:H2.
    + reflexivity.
    + apply Permutation_nil in Hpr. discriminate.
    + symmetry in Hpr. apply Permutation_nil in Hpr. discriminate.
    + now rewrite Heq.
Qed.

(** C1 as the specification states it asks for equal payloads only.  Two
    events under one
    (referral_id, seq) with the same payload and different types satisfy
    that, and the first one met is retained: in one order appointment A is
    set and active, in the other the cancellation is retained and no
    appointment is ever recorded. *)
Lemma same_payload_other_type :
  Permutation retyped_sample (rev retyped_sample)
  /\ payloads_agree retyped_sample
  /\ ~ same_result (reconcile sample_parseISO retyped_sample)
         (reconcile sample_parseISO (rev retyped_sample)).
Proof.
  split; [apply Permutation_rev|]. split.
  - intros e1 e2 H1 H2 _ _.
    destruct H1 as [<-|[<-|[]]], H2 as [<-|[<-|[]]]; reflexivity.
  - intros H. specialize (H "R"). discriminate H.
Qed.

(** Scenario 3 of the specification against its own reversal. *)
Lemma permutation_invariance_witness :
  same_result (reconcile sample_parseISO reschedule_sample)
    (reconcile sample_parseISO (rev reschedule_sample)).
Proof.
  apply permutation_invariance; [apply Permutation_rev|].
  intros e1 e2 H1 H2 _ Hs.
  destruct H1 as [<-|[<-|[<-|[<-|[]]]]], H2 as [<-|[<-|[<-|[<-|[]]]]];
    try reflexivity; discriminate Hs.
Defined.

(* ================================================================== *)
(** * Choosing the active appointment *)
(* ================================================================== *)

Section BestFacts.
Variable parseISO : string -> option Z.

Lemma best_skips_cancelled (vs : list (option Appointment))
    (best : option Appointment) :
  fold_left (best_step parseISO) vs best
  = fold_left (fun b a => best_step parseISO b (Some a))
      (flat_map (fun v => match v with Some a => [a] | None => [] end) vs)
      best.
Proof.
  revert best. induction vs as [|[a|] vs IH]; intros best; simpl.
  - reflexivity.
  - apply IH.
  - apply IH.
Qed.

Lemma best_is_member (l : list Appointment) (b : Appointment) :
  exists a,
    fold_left (fun b a => best_step parseISO b (Some a)) l (Some b) = Some a
    /\ In a (b :: l).
Proof.
  revert b. induction l as [|x l IH]; intros b; simpl.
  - exists b. auto.
  - destruct (earlier parseISO x b).
    + destruct (IH x) as (a & Ha & Hin). exists a. split; [exact Ha|].
      now right.
    + destruct (IH b) as (a & Ha & Hin). exists a. split; [exact Ha|].
      destruct Hin as [<-|Hin]; [now left|now right; right].
Qed.

Lemma earlier_lt (a b : Appointment) :
  earlier parseISO a b = true <-> instant_lt parseISO a b.
Proof.
  unfold earlier, instant_lt.
  destruct (parseISO (start_time a)), (parseISO (start_time b));
    try (split; [discriminate|tauto]).
  apply Z.ltb_lt.
Qed.

Lemma not_earlier_le (a b : Appointment) :
  valid_time parseISO a -> valid_time parseISO b ->
  earlier parseISO a b = false -> instant_le parseISO b a.
Proof.
  unfold earlier, instant_le, valid_time.
  destruct (parseISO (start_time a)), (parseISO (start_time b));
    try congruence.
  intros _ _ H. apply Z.ltb_ge in H. exact H.
Qed.

Lemma instant_le_refl (a : Appointment) :
  valid_time parseISO a -> instant_le parseISO a a.
Proof.
  unfold instant_le, valid_time.
  destruct (parseISO (start_time a)); [lia|congruence].
Qed.

Lemma instant_lt_le_trans (a b c : Appointment) :
  instant_lt parseISO a b -> instant_le parseISO b c ->
  instant_lt parseISO a c.
Proof.
  unfold instant_lt, instant_le.
  destruct (parseISO (start_time a)), (parseISO (start_time b)),
    (parseISO (start_time c)); try tauto. lia.
Qed.

Lemma instant_le_lt_trans (a b c : Appointment) :
  instant_le parseISO a b -> instant_lt parseISO b c ->
  instant_lt parseISO a c.
Proof.
  unfold instant_lt, instant_le.
  destruct (parseISO (start_time a)), (parseISO (start_time b)),
    (parseISO (start_time c)); try tauto. lia.
Qed.

Lemma instant_lt_le (a b : Appointment) :
  instant_lt parseISO a b -> instant_le parseISO a b.
Proof.
  unfold instant_lt, instant_le.
  destruct (parseISO (start_time a)), (parseISO (start_time b));
    try tauto. lia.
Qed.

(** The head of a [first_earliest] list is no earlier than the choice. *)
Lemma first_earliest_head (a b : Appointment) (l : list Appointment) :
  valid_time parseISO b ->
  first_earliest parseISO a (b :: l) -> instant_le parseISO a b.
Proof.
  intros Hb (l1 & l2 & Heq & H1 & H2).
  destruct l1 as [|y l1]; simpl in Heq; injection Heq as <- _.
  - now apply instant_le_refl.
  - inversion H1; subst. now apply instant_lt_le.
Qed.

(** The loop keeps the first of the earliest appointments. *)
Lemma best_first_earliest (l : list Appointment) (b : Appointment) :
  Forall (valid_time parseISO) (b :: l) ->
  exists a,
    fold_left (fun b a => best_step parseISO b (Some a)) l (Some b) = Some a
    /\ first_earliest parseISO a (b :: l).
Proof.
  revert b. induction l as [|x l IH]; intros b Hv.
  - exists b. split; [reflexivity|]. exists [], []. repeat split; constructor.
  - inversion Hv as [|? ? Hb Hv']; subst.
    inversion Hv' as [|? ? Hx Hl]; subst.
    simpl. destruct (earlier parseISO x b) eqn:Hxb.
    + destruct (IH x Hv') as (a & Ha & Hfe).
      exists a. split; [exact Ha|].
      pose proof (first_earliest_head Hx Hfe) as Hax.
      destruct Hfe as (l1 & l2 & Heq & H1 & H2).
      exists (b :: l1), l2. rewrite Heq. repeat split; [|exact H2].
      constructor; [|exact H1].
      apply earlier_lt in Hxb. eapply instant_le_lt_trans; eassumption.
    + assert (Hvb : Forall (valid_time parseISO) (b :: l))
        by now constructor.
      destruct (IH b Hvb) as (a & Ha & Hfe).
      exists a. split; [exact Ha|].
      pose proof (not_earlier_le Hx Hb Hxb) as Hbx.
      destruct Hfe as (l1 & l2 & Heq & H1 & H2).
      destruct l1 as [|y l1]; simpl in Heq; injection Heq as <- ->.
      * exists [], (x :: l2). repeat split; [constructor|].
        now constructor.
      * exists (b :: x :: l1), l2. repeat split; [|exact H2].
        inversion H1 as [|? ? Hab H1']; subst.
        constructor; [exact Hab|].
        constructor; [|exact H1'].
        eapply instant_lt_le_trans; eassumption.
Qed.

Lemma find_best_live (o : Appointments) :
  find_best parseISO o
  = fold_left (fun b a => best_step parseISO b (Some a))
      (live_appointments o) None.
Proof. apply best_skips_cancelled. Qed.

(** What [finalize] stores, in terms of the final state alone. *)
Lemma reconcile_referral_active (rid : string) (raw : list ReferralEvent) :
  let st := reconcile_referral parseISO rid raw in
  active_appointment st
  = if is_terminal st then None else find_best parseISO (appointments st).
Proof.
  cbv zeta. rewrite reconcile_referral_unfold.
  destruct (finalize_frame parseISO (replayed rid raw))
    as (_ & Hs & _ & _ & -> & ->).
  unfold is_terminal. rewrite Hs.
  assert (Hf : flag_ok (replayed rid raw))
    by apply replay_flag, initial_flag_ok.
  unfold flag_ok, is_terminal in Hf. now rewrite Hf.
Qed.

End BestFacts.

(** C2, as amended.  In each ReferralState of the returned map:
    active_appointment is null when the referral is terminal, and when no
    non-cancelled appointment exists; when the referral is not terminal and
    some non-cancelled appointment exists, active_appointment is one of the
    non-cancelled appointments, and if their start_times are valid dates it
    has the minimum start_time, ties between equal start_times going to the
    entry that Object.values lists first (array-index keys ascending, then
    the other keys in order of first assignment). *)
Theorem active_appointment_selection (parseISO : string -> option Z)
    (E : list ReferralEvent) (m : ReconciledMap) (rid : string)
    (st : ReferralState) :
  reconcile parseISO E = Returned m ->
  own_get rid m = Some st ->
  let live := live_appointments (appointments st) in
  (is_terminal st = true -> active_appointment st = None)
  /\ (live = [] -> active_appointment st = None)
  /\ (is_terminal st = false -> live <> [] ->
      exists a, active_appointment st = Some a /\ In a live)
  /\ (is_terminal st = false -> live <> [] ->
      Forall (valid_time parseISO) live ->
      exists a,
        active_appointment st = Some a /\ first_earliest parseISO a live).
Proof.
  intros Hr Hg live.
  destruct (reconcile_lookup _ _ _ Hr Hg) as [_ Hst].
  pose proof (reconcile_referral_active parseISO rid (events_of rid E)) as Ha.
  cbv zeta in Ha. rewrite <- Hst in Ha. rewrite Ha, find_best_live.
  fold live. clear Ha.
  split; [now intros ->|].
  split.
  { intros ->. now destruct (is_terminal st). }
  split.
  - intros -> Hne. destruct live as [|b l]; [congruence|]. simpl.
    apply best_is_member.
  - intros -> Hne Hv. destruct live as [|b l]; [congruence|]. simpl.
    now apply best_first_earliest.
Qed.

(** Scenario 4 of the specification: B at 10 May, A at 5 May, A is
    active. *)
Lemma active_appointment_selection_witness :
  let st := reconcile_referral sample_parseISO "R4" two_appointments_sample in
  exists a,
    active_appointment st = Some a
    /\ first_earliest sample_parseISO a (live_appointments (appointments st)).
Proof.
  intros st.
  destruct (@active_appointment_selection sample_parseISO
              two_appointments_sample [("R4", st)] "R4" st eq_refl eq_refl)
    as (_ & _ & _ & H).
  apply H.
  - reflexivity.
  - discriminate.
  - repeat constructor; discriminate.
Defined.

(** C2 as the specification states it (ties broken by ascending appt_id)
    fails on a tie: B and A start at the same instant,
    B was set first, and B is what the loop keeps, although "A" sorts before
    "B". *)
Lemma tie_keeps_first_entry :
  exists st,
    lookup_state "R" (reconcile sample_parseISO tie_sample) = Some st
    /\ is_terminal st = false
    /\ live_appointments (appointments st)
       = [ {| appt_id := "B"; start_time := "2025-05-05T09:00:00Z" |};
           {| appt_id := "A"; start_time := "2025-05-05T09:00:00Z" |} ]
    /\ active_appointment st
       = Some {| appt_id := "B"; start_time := "2025-05-05T09:00:00Z" |}
    /\ ~ earliest_then_smallest_id sample_parseISO
           {| appt_id := "B"; start_time := "2025-05-05T09:00:00Z" |}
           (live_appointments (appointments st)).
Proof.
  eexists. split; [reflexivity|]. repeat split.
  intros [_ H].
  destruct (H {| appt_id := "A"; start_time := "2025-05-05T09:00:00Z" |})
    as [Hlt|[_ Hle]].
  - right. now left.
  - vm_compute in Hlt. discriminate.
  - vm_compute in Hle. discriminate.
Qed.

(* ================================================================== *)
(** * Data-quality ranking *)
(* ================================================================== *)











(* ================================================================== *)
(** * The chunked batch writer *)
(* ================================================================== *)

Section WriterFacts.
Variables Ref Data : Type.

Lemma writer_inv_new : writer_inv (Ref := Ref) (Data := Data) []
                         (Firestore.new_writer Ref Data, []).
Proof. repeat split; try constructor. Qed.

Lemma seq_snoc (n : nat) : List.seq 0 n ++ [n] = List.seq 0 (S n).
Proof. now rewrite seq_S. Qed.

Lemma writer_inv_enqueue (ops : list (Firestore.Op Ref Data))
    (ws : Firestore.ChunkedBatchWriter Ref Data * Firestore.Store Ref Data)
    (op : Firestore.Op Ref Data) :
  writer_inv ops ws -> writer_inv (ops ++ [op]) (Firestore.enqueue ws op).
Proof.
  destruct ws as [[b c p] store].
  unfold writer_inv, Firestore.enqueue, Firestore.increment, Firestore.rotate.
  cbn [Firestore.batch Firestore.count Firestore.promises].
  intros (Hops & Hc & Hlt & Hfull & Hp).
  unfold Firestore.MAX_BATCH_SIZE in *.
  destruct (Z.leb_spec 400 (c + 1)) as [Hge|Hlt'];
    cbn [Firestore.batch Firestore.count Firestore.promises].
  - repeat split.
    + rewrite concat_app. simpl. rewrite !app_nil_r, app_assoc.
      now rewrite Hops.
    + apply Forall_app. split; [exact Hfull|].
      constructor; [|constructor]. rewrite length_app. simpl. lia.
    + rewrite length_app, Hp. simpl. rewrite Nat.add_1_r. apply seq_snoc.
  - repeat split.
    + now rewrite app_assoc, Hops.
    + rewrite length_app. simpl. lia.
    + lia.
    + exact Hfull.
    + exact Hp.
Qed.

Lemma writer_inv_fold (ops0 ops : list (Firestore.Op Ref Data))
    (ws : Firestore.ChunkedBatchWriter Ref Data * Firestore.Store Ref Data) :
  writer_inv ops0 ws ->
  writer_inv (ops0 ++ ops) (fold_left (@Firestore.enqueue Ref Data) ops ws).
Proof.
  revert ops0 ws. induction ops as [|op ops IH]; intros ops0 ws H; simpl.
  - now rewrite app_nil_r.
  - replace (ops0 ++ op :: ops) with ((ops0 ++ [op]) ++ ops)
      by now rewrite <- app_assoc.
    apply IH. now apply writer_inv_enqueue.
Qed.

(** Enqueueing on a fresh writer keeps the invariant. *)
Lemma writer_inv_enqueued (ops : list (Firestore.Op Ref Data)) :
  writer_inv ops
    (fold_left (@Firestore.enqueue Ref Data) ops
       (Firestore.new_writer Ref Data, [])).
Proof. exact (@writer_inv_fold [] ops _ writer_inv_new). Qed.

(** The batches that reach the store are, in order, what was enqueued. *)
Lemma write_all_store (ops : list (Firestore.Op Ref Data)) :
  List.concat (snd (fst (Firestore.write_all ops))) = ops.
Proof.
  unfold Firestore.write_all.
  pose proof (writer_inv_enqueued ops) as H.
  destruct (fold_left (@Firestore.enqueue Ref Data) ops
              (Firestore.new_writer Ref Data, [])) as [[b c p] store].
  unfold writer_inv in H.
  cbn [Firestore.batch Firestore.count Firestore.promises] in H.
  destruct H as (Hops & Hc & _).
  unfold Firestore.commit. cbn [Firestore.batch Firestore.count].
  destruct (Z.ltb_spec 0 c) as [Hpos|Hzero]; cbn [fst snd].
  - rewrite concat_app. simpl. now rewrite app_nil_r.
  - assert (b = []) by (destruct b; [reflexivity|simpl in Hc; lia]).
    subst b. now rewrite app_nil_r in Hops.
Qed.

(** C9. Chunked batch writer.  After any sequence of set, update and delete
    calls on a fresh writer followed by commit(): the committed batches,
    taken in order, are exactly the enqueued operations, each once; every
    committed batch holds at least one and at most 400 operations; and the
    promises that commit() waits for are those of all the batch commits
    made, the ones made at rotation included. *)
Theorem chunked_writer_commits (ops : list (Firestore.Op Ref Data)) :
  let result := Firestore.write_all ops in
  let store := snd (fst result) in
  let awaited := snd result in
  List.concat store = ops
  /\ Forall (fun b => (1 <= List.length b <= 400)%nat) store
  /\ awaited = List.seq 0 (List.length store).
Proof.
  cbv zeta. split; [apply write_all_store|].
  unfold Firestore.write_all.
  pose proof (writer_inv_enqueued ops) as H.
  destruct (fold_left (@Firestore.enqueue Ref Data) ops
              (Firestore.new_writer Ref Data, [])) as [[b c p] store].
  unfold writer_inv in H.
  cbn [Firestore.batch Firestore.count Firestore.promises] in H.
  destruct H as (_ & Hc & Hlt & Hfull & Hp).
  unfold Firestore.MAX_BATCH_SIZE in *.
  assert (Hfull' : Forall (fun b0 : list (Firestore.Op Ref Data) =>
                             (1 <= List.length b0 <= 400)%nat) store).
  { eapply Forall_impl; [|exact Hfull]. simpl. intros; lia. }
  unfold Firestore.commit.
  cbn [Firestore.batch Firestore.count Firestore.promises].
  destruct (Z.ltb_spec 0 c) as [Hpos|Hzero]; cbn [fst snd Firestore.promises].
  - split.
    + apply Forall_app. split; [exact Hfull'|].
      constructor; [lia|constructor].
    + rewrite length_app, Hp. simpl. rewrite Nat.add_1_r. apply seq_snoc.
  - split; [exact Hfull'|exact Hp].
Qed.

End WriterFacts.

(* ================================================================== *)
(** * The authentication gate *)
(* ================================================================== *)

Section AuthzFacts.
Variable Body : Type.
Variable verifyIdToken : string -> option DecodedToken.
Variable storedRole : string -> outcome (option string).

Lemma authenticate_rejects (req : Request Body) :
  authorization req = None
  \/ (exists h, authorization req = Some h
                /\ verifyIdToken (bearer_token h) = None) ->
  exists message,
    authenticate verifyIdToken storedRole req = Respond 401 message.
Proof.
  unfold authenticate. intros [->|(h & -> & Hv)].
  - eexists. reflexivity.
  - rewrite Hv. destruct (String.prefix "Bearer " h); eexists; reflexivity.
Qed.

(** C8. Auth gate.  On every route that names authenticate (POST /uploads,
    GET /referrals, GET /referrals/:id, GET /auth/me), a request without an
    Authorization header, or whose bearer token fails verification, is
    answered 401 by the middleware, whatever the handler is, so the handler
    does not run.  On POST /uploads a request that passes authenticate with
    a role other than admin is answered 403 by requireAdmin, again without
    the handler.  A verified principal whose user document stores no role
    is given the role viewer. *)
Theorem auth_gate (R : Type) (handler : Request Body -> R)
    (req : Request Body) :
  (authorization req = None
   \/ (exists h, authorization req = Some h
                 /\ verifyIdToken (bearer_token h) = None) ->
   exists message,
     post_uploads verifyIdToken storedRole handler req = Stopped 401 message
     /\ get_referrals verifyIdToken storedRole handler req
        = Stopped 401 message
     /\ get_referral_by_id verifyIdToken storedRole handler req
        = Stopped 401 message
     /\ get_auth_me verifyIdToken storedRole handler req
        = Stopped 401 message)
  /\ (forall req' u,
        authenticate verifyIdToken storedRole req = Next req' ->
        user req' = Some u ->
        role u <> "admin" ->
        post_uploads verifyIdToken storedRole handler req
        = Stopped 403 "Forbidden: Admins Only")
  /\ (forall h token,
        authorization req = Some h ->
        String.prefix "Bearer " h = true ->
        verifyIdToken (bearer_token h) = Some token ->
        storedRole (token_uid token) = Returned None ->
        exists req',
          authenticate verifyIdToken storedRole req = Next req'
          /\ option_map role (user req') = Some "viewer").
Proof.
  split; [|split].
  - intros H. destruct (authenticate_rejects req H) as [message Hm].
    exists message.
    unfold post_uploads, get_referrals, get_referral_by_id, get_auth_me.
    simpl. rewrite Hm. repeat split.
  - intros req' u Ha Hu Hr. unfold post_uploads. simpl. rewrite Ha.
    unfold requireAdmin. rewrite Hu.
    destruct (String.eqb_spec (role u) "admin"); [contradiction|reflexivity].
  - intros h token Hh Hp Hv Hs. unfold authenticate.
    rewrite Hh, Hp, Hv, Hs. eexists. split; reflexivity.
Qed.

End AuthzFacts.

(** Scenario 6 of the specification: no header gives 401 on every
    protected route; a verified user without a stored role is a viewer and
    gets 403 on POST /uploads. *)
Lemma auth_gate_witness :
  let anonymous :=
    {| authorization := None; user := None; body := tt |} in
  let viewer :=
    {| authorization := Some "Bearer good"; user := None; body := tt |} in
  (exists message,
     post_uploads sample_verify sample_roles (fun _ => tt) anonymous
     = Stopped 401 message)
  /\ post_uploads sample_verify sample_roles (fun _ => tt) viewer
     = Stopped 403 "Forbidden: Admins Only"
  /\ exists req',
       authenticate sample_verify sample_roles viewer = Next req'
       /\ option_map role (user req') = Some "viewer".
Proof.
  intros anonymous viewer.
  destruct (@auth_gate unit sample_verify sample_roles unit (fun _ => tt)
              anonymous) as (H401 & _ & _).
  destruct (@auth_gate unit sample_verify sample_roles unit (fun _ => tt)
              viewer) as (_ & H403 & Hviewer).
  split; [|split].
  - destruct (H401 (or_introl eq_refl)) as (message & H & _).
    exists message. exact H.
  - eapply H403; [reflexivity|reflexivity|discriminate].
  - apply (Hviewer "Bearer good" {| token_uid := "u1"; token_email := None |});
      reflexivity.
Defined.

(* ================================================================== *)
(** * The upload endpoint *)
(* ================================================================== *)

(** ** References *)

Lemma doc_cases (parent : Firestore.Path) (documentPath : string) :
  Firestore.doc parent documentPath
  = Returned (Firestore.append parent documentPath)
  \/ Firestore.doc parent documentPath = Raised Error.
Proof.
  unfold Firestore.doc.
  destruct (Firestore.valid_resource_path documentPath); [|now right].
  cbv zeta.
  destruct (Firestore.is_document (Firestore.append parent documentPath));
    [now left|now right].
Qed.

Lemma doc_returned (parent : Firestore.Path) (documentPath : string) :
  returns (Firestore.doc parent documentPath) = true ->
  Firestore.doc parent documentPath
  = Returned (Firestore.append parent documentPath).
Proof.
  destruct (doc_cases parent documentPath) as [H|H]; rewrite H;
    [reflexivity|discriminate].
Qed.

Lemma events_collection (referral : Firestore.Path) :
  Firestore.collection referral "events"
  = Returned (referral ++ ["events"])
  \/ Firestore.collection referral "events" = Raised Error.
Proof.
  unfold Firestore.collection.
  change (Firestore.valid_resource_path "events") with true. cbv iota zeta.
  change (Firestore.append referral "events") with (referral ++ ["events"]).
  destruct (Firestore.is_collection (referral ++ ["events"]));
    [now left|now right].
Qed.

Lemma document_in_doc (id : string) :
  document_in "uploads" id
  = Firestore.doc ["organizations"; "default"; "uploads"] id
  /\ document_in "metrics" id
     = Firestore.doc ["organizations"; "default"; "metrics"] id
  /\ document_in "referrals" id
     = Firestore.doc ["organizations"; "default"; "referrals"] id.
Proof. repeat split. Qed.

Lemma referral_ref_returned (refId : string) :
  returns (referral_ref refId) = true ->
  referral_ref refId
  = Returned
      (Firestore.append ["organizations"; "default"; "referrals"] refId).
Proof.
  unfold referral_ref.
  destruct (document_in_doc refId) as (_ & _ & ->). apply doc_returned.
Qed.

Lemma event_ref_returned (event : ReferralEvent) :
  returns (event_ref event) = true ->
  event_ref event
  = Returned
      (Firestore.append
         (Firestore.append ["organizations"; "default"; "referrals"]
            (referral_id event) ++ ["events"])
         (event_id event)).
Proof.
  unfold event_ref.
  destruct (document_in_doc (referral_id event)) as (_ & _ & ->).
  destruct (doc_cases ["organizations"; "default"; "referrals"]
              (referral_id event)) as [-> | ->]; cbn [and_then];
    [|discriminate].
  match goal with
  | |- context [Firestore.collection ?r "events"] =>
      destruct (events_collection r) as [-> | ->]
  end; cbn [and_then]; [|discriminate].
  apply doc_returned.
Qed.

(** ** The writes of the handler *)

Lemma enqueue_each_returned {Ref Data : Type}
    (ops : list (Firestore.Op Ref Data))
    (ws : Firestore.ChunkedBatchWriter Ref Data * Firestore.Store Ref Data) :
  enqueue_each (map Returned ops) ws
  = (fold_left (@Firestore.enqueue Ref Data) ops ws, false).
Proof.
  revert ws. induction ops as [|op ops IH]; intros ws; [reflexivity|].
  simpl. apply IH.
Qed.

Lemma enqueue_each_raised {Ref Data : Type}
    (ops : list (Firestore.Op Ref Data)) (e : JsError)
    (rest : list (outcome (Firestore.Op Ref Data)))
    (ws : Firestore.ChunkedBatchWriter Ref Data * Firestore.Store Ref Data) :
  enqueue_each (map Returned ops ++ Raised e :: rest) ws
  = (fold_left (@Firestore.enqueue Ref Data) ops ws, true).
Proof.
  revert ws. induction ops as [|op ops IH]; intros ws; [reflexivity|].
  simpl. apply IH.
Qed.

Lemma map_resolved {A B : Type} (f : A -> outcome B) (g : A -> B)
    (l : list A) :
  (forall x, In x l -> f x = Returned (g x)) ->
  map f l = map Returned (map g l).
Proof.
  induction l as [|x l IH]; intros H; [reflexivity|].
  simpl. rewrite (H x (or_introl eq_refl)). f_equal.
  apply IH. intros y Hy. apply H. now right.
Qed.

Lemma set_event_resolved (uploadId timestamp : string)
    (event : ReferralEvent) :
  returns (event_ref event) = true ->
  set_event uploadId timestamp event
  = Returned (event_write uploadId timestamp event).
Proof.
  intros H. unfold set_event, set_at.
  now rewrite (event_ref_returned event H).
Qed.

Lemma set_referral_resolved (uploadId timestamp : string)
    (entry : string * ReferralState) :
  returns (referral_ref (fst entry)) = true ->
  set_referral uploadId timestamp entry
  = Returned (referral_write uploadId timestamp entry).
Proof.
  intros H. unfold set_referral, set_at.
  now rewrite (referral_ref_returned (fst entry) H).
Qed.

(** The handler, unfolded on a batch that the engine accepts and whose
    references resolve. *)
Lemma upload_handler_returned
    (engine : list ReferralEvent -> outcome ReconciledMap)
    (uploadId timestamp : string) (commits_resolve : bool)
    (req : Request UploadBody) (rawEvents : list ReferralEvent)
    (reconciledMap : ReconciledMap) :
  body req = BodyArray rawEvents \/ body req = BodyWithEvents rawEvents ->
  engine rawEvents = Returned reconciledMap ->
  references_resolve uploadId rawEvents reconciledMap = true ->
  let result :=
    upload_handler engine uploadId timestamp commits_resolve req in
  fst result
  = (if commits_resolve
     then {| code := 200;
             reply := UploadProcessed uploadId
                        (Z.of_nat (List.length rawEvents))
                        (Z.of_nat (List.length (keys reconciledMap)))
                        (getDerivedMetrics reconciledMap) |}
     else {| code := 500; reply := InternalServerError |})
  /\ List.concat (snd result)
     = upload_operations uploadId timestamp rawEvents reconciledMap.
Proof.
  intros Hb He Hres result. subst result. unfold upload_handler.
  assert (Hn : match body req with
               | BodyArray inputEvents => Some inputEvents
               | BodyWithEvents inputEvents => Some inputEvents
               | BodyOther => None
               end = Some rawEvents) by (destruct Hb as [-> | ->]; reflexivity).
  rewrite Hn, He.
  unfold references_resolve in Hres.
  apply andb_prop in Hres. destruct Hres as [Hres Hk].
  apply andb_prop in Hres. destruct Hres as [Hres Hev].
  apply andb_prop in Hres. destruct Hres as [Hu Hm].
  rewrite forallb_forall in Hev, Hk.
  rewrite (map_resolved (set_event uploadId timestamp)
             (event_write uploadId timestamp) rawEvents)
    by (intros x Hx; apply set_event_resolved; now apply Hev).
  rewrite (map_resolved (set_referral uploadId timestamp)
             (referral_write uploadId timestamp) (entries reconciledMap))
    by (intros x Hx; apply set_referral_resolved, Hk;
        unfold keys; now apply in_map).
  unfold upload_ref, metrics_ref in *.
  destruct (document_in_doc uploadId) as (Eu & Em & _).
  rewrite Eu in *. rewrite Em in *.
  rewrite (doc_returned _ _ Hu), (doc_returned _ _ Hm).
  unfold set_at. cbn [and_then].
  match goal with
  | |- context [enqueue_each ?steps _] =>
      replace steps
        with (map Returned
                (upload_operations uploadId timestamp rawEvents
                   reconciledMap))
        by (unfold upload_operations; now rewrite !map_app)
  end.
  rewrite enqueue_each_returned.
  pose proof (write_all_store
                (upload_operations uploadId timestamp rawEvents
                   reconciledMap)) as Hc.
  unfold Firestore.write_all in Hc.
  destruct (Firestore.commit _) as [[w' store] awaited].
  cbn [fst snd] in Hc. cbv beta iota.
  destruct commits_resolve; cbn [fst snd]; split; try reflexivity; exact Hc.
Qed.

(** The handler never looks at the [type] of an event: whenever the engine
    returns, the references of the batch resolve and the commits resolve,
    the batch is answered 200 and every raw event is written. *)
Lemma upload_handler_accepts
    (engine : list ReferralEvent -> outcome ReconciledMap)
    (uploadId timestamp : string) (req : Request UploadBody)
    (rawEvents : list ReferralEvent) (reconciledMap : ReconciledMap) :
  body req = BodyArray rawEvents \/ body req = BodyWithEvents rawEvents ->
  engine rawEvents = Returned reconciledMap ->
  references_resolve uploadId rawEvents reconciledMap = true ->
  let result := upload_handler engine uploadId timestamp true req in
  code (fst result) = 200
  /\ forall event, In event rawEvents ->
       In (event_write uploadId timestamp event) (List.concat (snd result)).
Proof.
  intros Hb He Hres result. subst result.
  destruct (upload_handler_returned engine uploadId timestamp true req Hb He
              Hres) as [H1 H2].
  cbv zeta in H1, H2. split; [now rewrite H1|].
  intros event Hin. rewrite H2. unfold upload_operations.
  apply in_or_app. right. apply in_or_app. left. now apply in_map.
Qed.

(** C6, at a failing input.  An admin uploads one event of the unknown type
    REFERRAL_ARCHIVED.  The request passes both middlewares, the handler
    answers 200 with processed = 1 and referrals = 1, and one batch of four
    documents goes to the store: the upload envelope, the metrics snapshot,
    the event itself and the read model of its referral. *)
Theorem unknown_type_is_persisted :
  exists snapshot store,
    post_uploads sample_verify admin_roles
      (upload_handler (reconcile sample_parseISO) "upload-1"
         "2024-12-24T00:00:00.000Z" true)
      unknown_type_upload
    = Handled ({| code := 200;
                  reply := UploadProcessed "upload-1" 1 1 snapshot |}, store)
    /\ map (@List.length _) store = [4%nat]
    /\ In (event_write "upload-1" "2024-12-24T00:00:00.000Z"
             unknown_type_event)
          (List.concat store).
Proof.
  do 2 eexists. split; [vm_compute; reflexivity|].
  split; [reflexivity|]. right. right. left. reflexivity.
Qed.

(* ================================================================== *)
(** * Totality *)
(* ================================================================== *)

Lemma replay_ignores_malformed (l : list ReferralEvent)
    (acc : ReferralState * bool) :
  replay l acc = replay (filter well_formed l) acc.
Proof.
  revert acc. induction l as [|e l IH]; intros acc; simpl; [reflexivity|].
  destruct (well_formed e) eqn:Hw; simpl.
  - apply IH.
  - rewrite (replay_step_malformed acc e Hw). apply IH.
Qed.

(** Events that lack what their type needs are retained and counted like
    any other, and the rest of the state is what the well-formed retained
    events alone produce. *)
Lemma malformed_events_are_inert (parseISO : string -> option Z)
    (rid : string) (raw : list ReferralEvent) :
  let st := reconcile_referral parseISO rid raw in
  let inert :=
    replay (filter well_formed (retained raw))
      (initial_state rid (snd (dedup raw)) (count_gaps (retained raw))
         (retained raw), false) in
  events st = retained raw
  /\ duplicates (metrics st) = snd (dedup raw)
  /\ seqGaps (metrics st) = count_gaps (retained raw)
  /\ st = finalize parseISO inert.
Proof.
  cbv zeta. split; [apply reconcile_referral_events|].
  split; [apply reconcile_referral_counts|].
  split; [apply reconcile_referral_counts|].
  rewrite reconcile_referral_unfold. unfold replayed.
  now rewrite replay_ignores_malformed.
Qed.

(** C10, at a failing input.  A single well-formed STATUS_UPDATE whose
    referral_id is "constructor" makes reconcile throw a TypeError: the
    grouping loop reads the inherited member under that key, takes it for
    an existing array and calls push on it.  reconcile returns a map
    exactly for the inputs in which no referral_id names a member of
    Object.prototype. *)
Theorem reconcile_throws_on_inherited_name (parseISO : string -> option Z) :
  reconcile parseISO [inherited_name_event] = Raised TypeError
  /\ forall E,
       (exists m, reconcile parseISO E = Returned m)
       <-> names_inherited E = false.
Proof.
  split; [reflexivity|]. intros E. split.
  - intros [m Hm]. destruct (names_inherited E) eqn:Hn; [|reflexivity].
    rewrite (reconcile_raises parseISO E Hn) in Hm. discriminate.
  - intros Hn. destruct (reconcile_returns parseISO E Hn) as (m & Hm & _).
    now exists m.
Qed.

(* ================================================================== *)
(** * The scenarios of the specification, run on the model *)
(* ================================================================== *)

Example scenario_1_happy_path :
  summary "R1"
    (reconcile sample_parseISO
       [ status_update "R1" 1 "SENT";
         appointment_set "R1" 2 "A" "2025-02-01T10:00:00Z";
         status_update "R1" 3 "SCHEDULED";
         status_update "R1" 4 "COMPLETED" ])
  = Some ("COMPLETED", None, no_anomalies,
          [("A", Some {| appt_id := "A";
                         start_time := "2025-02-01T10:00:00Z" |})]).
Proof. reflexivity. Qed.

Example scenario_2_duplicates_and_gaps :
  summary "R2"
    (reconcile sample_parseISO
       [ status_update "R2" 1 "SENT"; status_update "R2" 1 "SENT";
         status_update "R2" 3 "ACKNOWLEDGED" ])
  = Some ("ACKNOWLEDGED", None,
          {| duplicates := 1; seqGaps := 1; terminalOverrides := 0;
             reschedules := 0; cancelledAppts := 0 |}, []).
Proof. reflexivity. Qed.

Example scenario_3_reschedule_then_cancel :
  summary "R3" (reconcile sample_parseISO reschedule_sample)
  = Some ("SCHEDULED", None,
          {| duplicates := 0; seqGaps := 0; terminalOverrides := 0;
             reschedules := 1; cancelledAppts := 1 |}, [("A", None)]).
Proof. reflexivity. Qed.

Example scenario_4_earliest_active :
  summary "R4" (reconcile sample_parseISO two_appointments_sample)
  = Some ("SCHEDULED",
          Some {| appt_id := "A"; start_time := "2025-05-05T09:00:00Z" |},
          no_anomalies,
          [("B", Some {| appt_id := "B";
                         start_time := "2025-05-10T09:00:00Z" |});
           ("A", Some {| appt_id := "A";
                         start_time := "2025-05-05T09:00:00Z" |})]).
Proof. reflexivity. Qed.

Example scenario_5_terminal_absorption :
  summary "R5"
    (reconcile sample_parseISO
       [ status_update "R5" 1 "CANCELLED"; status_update "R5" 2 "SENT";
         status_update "R5" 3 "COMPLETED" ])
  = Some ("COMPLETED", None,
          {| duplicates := 0; seqGaps := 0; terminalOverrides := 1;
             reschedules := 0; cancelledAppts := 0 |}, []).
Proof. reflexivity. Qed.

(** The keys of the returned map are enumerated in the order in which the
    referrals first occur in the input (array-index keys first), so two
    permutations of one input can list the same referrals in different
    orders. *)
Example key_order_follows_input :
  option_map keys
    (match reconcile sample_parseISO
             [status_update "A" 1 "SENT"; status_update "B" 1 "SENT"] with
     | Returned m => Some m
     | Raised _ => None
     end) = Some ["A"; "B"]
  /\ option_map keys
       (match reconcile sample_parseISO
                [status_update "B" 1 "SENT"; status_update "A" 1 "SENT"] with
        | Returned m => Some m
        | Raised _ => None
        end) = Some ["B"; "A"].
Proof. split; reflexivity. Qed.

(** An inherited name used as an appointment id: cancelling an appointment
    that was never set reads the inherited member, finds it truthy, and
    counts a cancellation. *)
Example inherited_appt_id_counts_as_cancelled :
  summary "R"
    (reconcile sample_parseISO [appointment_cancelled "R" 1 "toString"])
  = Some ("CREATED", None,
          {| duplicates := 0; seqGaps := 0; terminalOverrides := 0;
             reschedules := 0; cancelledAppts := 1 |},
          [("toString", None)]).
Proof. reflexivity. Qed.

(** 801 operations go out as batches of 400, 400 and 1, and commit waits
    for all three. *)
Example writer_801_operations :
  let result :=
    Firestore.write_all (map (fun n => Firestore.OpDelete unit n)
                           (List.seq 0 801)) in
  map (@List.length _) (snd (fst result)) = [400; 400; 1]%nat
  /\ snd result = [0; 1; 2]%nat.
Proof. vm_compute. split; reflexivity. Qed.

(* ================================================================== *)
(** * More on the reconciliation engine *)
(* ================================================================== *)

Section MoreEngineFacts.
Variable parseISO : string -> option Z.

Lemma reconcile_referral_id (rid : string) (raw : list ReferralEvent) :
  st_referral_id (reconcile_referral parseISO rid raw) = rid.
Proof.
  rewrite reconcile_referral_unfold.
  destruct (finalize_frame parseISO (replayed rid raw)) as (-> & _).
  unfold replayed.
  now destruct (replay_frame (retained raw)
    (initial_state rid (snd (dedup raw)) (count_gaps (retained raw))
       (retained raw), false)) as (-> & _).
Qed.

Lemma events_of_nil_iff (rid : string) (E : list ReferralEvent) :
  events_of rid E = [] <-> ~ In rid (map referral_id E).
Proof.
  split.
  - intros H Hin. apply in_map_iff in Hin. destruct Hin as (e & Hr & He).
    assert (Hx : In e (events_of rid E)) by now apply events_of_In.
    rewrite H in Hx. destruct Hx.
  - intros H. destruct (events_of rid E) as [|e l] eqn:Hl; [reflexivity|].
    exfalso. apply H.
    assert (Hx : In e (events_of rid E)) by (rewrite Hl; now left).
    apply events_of_In in Hx. destruct Hx as [He <-]. now apply in_map.
Qed.

(** The keys of the returned map are the referral_ids of the input, each
    once. *)
Lemma reconcile_key_set (E : list ReferralEvent) (m : ReconciledMap) :
  reconcile parseISO E = Returned m ->
  NoDup (map fst m)
  /\ forall rid, In rid (map fst m) <-> In rid (map referral_id E).
Proof.
  intros Hr.
  destruct (names_inherited E) eqn:Hn.
  { rewrite (reconcile_raises parseISO E Hn) in Hr. discriminate. }
  destruct (reconcile_returns parseISO E Hn) as (m' & Hr' & Hnd & Hget).
  rewrite Hr in Hr'. injection Hr' as <-.
  split; [exact Hnd|].
  intros rid.
  destruct (in_dec string_dec rid (map fst m)) as [Hin|Hnin].
  - split; [intros _|tauto].
    destruct (in_dec string_dec rid (map referral_id E)) as [H|H];
      [exact H|].
    apply events_of_nil_iff in H. specialize (Hget rid). rewrite H in Hget.
    apply own_get_None in Hget. contradiction.
  - split; [tauto|]. intros H. exfalso.
    apply own_get_None in Hnin. specialize (Hget rid).
    rewrite Hnin in Hget.
    destruct (events_of rid E) eqn:Hev; [|discriminate].
    apply events_of_nil_iff in Hev. contradiction.
Qed.

(** X1. The returned map has one entry for each referral_id that occurs in
    the input and no other; keys do not repeat, and every entry carries its
    key as referral_id. *)
Theorem reconcile_keys (E : list ReferralEvent) (m : ReconciledMap) :
  reconcile parseISO E = Returned m ->
  NoDup (map fst m)
  /\ (forall rid, In rid (map fst m) <-> In rid (map referral_id E))
  /\ (forall rid st, own_get rid m = Some st -> st_referral_id st = rid).
Proof.
  intros Hr. destruct (reconcile_key_set E Hr) as [Hnd Hin].
  split; [exact Hnd|]. split; [exact Hin|].
  intros rid st Hg. destruct (reconcile_lookup _ _ _ Hr Hg) as [_ ->].
  apply reconcile_referral_id.
Qed.

End MoreEngineFacts.

Lemma reconcile_keys_witness :
  In "R3" (map referral_id reschedule_sample)
  /\ exists m,
       reconcile sample_parseISO reschedule_sample = Returned m
       /\ In "R3" (map fst m).
Proof.
  split; [now left|].
  eexists. split; [reflexivity|].
  destruct (@reconcile_keys sample_parseISO reschedule_sample _ eq_refl)
    as (_ & H & _).
  apply H. now left.
Defined.

(* ================================================================== *)
(** * What deduplication retains *)
(* ================================================================== *)

Lemma dedup_fold_first (raw : list ReferralEvent) (acc : SeqMap * Z)
    (kv : Z * ReferralEvent) :
  In kv (fst (fold_left dedup_step raw acc)) ->
  In kv (fst acc)
  \/ (map_has (fst kv) (fst acc) = false
      /\ first_with_seq (fst kv) raw = Some (snd kv)).
Proof.
  revert acc. induction raw as [|e raw IH]; intros acc H; simpl in H.
  - now left.
  - apply IH in H. destruct H as [H|[Hh Hf]].
    + destruct acc as [m c]. unfold dedup_step in H.
      destruct (map_has (seq e) m) eqn:Hm; simpl in H; [now left|].
      apply in_app_iff in H. destruct H as [H|[<-|[]]]; [now left|].
      right. simpl. split; [exact Hm|].
      unfold first_with_seq. simpl. now rewrite Z.eqb_refl.
    + rewrite dedup_step_has in Hh. apply orb_false_iff in Hh.
      destruct Hh as [Hh Hne]. right. split; [exact Hh|].
      unfold first_with_seq in *. simpl.
      rewrite Z.eqb_sym, Hne. exact Hf.
Qed.

Lemma retained_first (raw : list ReferralEvent) (e : ReferralEvent) :
  In e (retained raw) <->
  In e raw /\ first_with_seq (seq e) raw = Some e.
Proof.
  rewrite retained_In. split.
  - intros H. split; [now apply dedup_from|].
    apply in_map_iff in H. destruct H as (kv & <- & Hkv).
    pose proof (dedup_fold_from raw ([], 0) kv Hkv) as [[]|[_ Hs]].
    destruct (dedup_fold_first raw ([], 0) kv Hkv) as [[]|[_ Hf]].
    now rewrite <- Hs.
  - intros [Hin Hf].
    pose proof (dedup_has raw e Hin) as Hh.
    unfold map_has in Hh. apply existsb_exists in Hh.
    destruct Hh as (kv & Hkv & Hk). apply Z.eqb_eq in Hk.
    apply in_map_iff. exists kv. split; [|exact Hkv].
    destruct (dedup_fold_first raw ([], 0) kv Hkv) as [[]|[_ Hf']].
    rewrite Hk, Hf in Hf'. congruence.
Qed.

(** X2. First occurrence wins.  In every returned state the retained
    events are exactly those events of the referral that are the first in
    input order to carry their seq; so every seq of the referral's input is
    retained once, and a later event with a seq already seen is never
    retained, whatever its payload. *)
Theorem retained_are_first_occurrences (parseISO : string -> option Z)
    (E : list ReferralEvent) (m : ReconciledMap) (rid : string)
    (st : ReferralState) :
  reconcile parseISO E = Returned m ->
  own_get rid m = Some st ->
  (forall e,
     In e (events st) <->
     In e (events_of rid E)
     /\ first_with_seq (seq e) (events_of rid E) = Some e)
  /\ NoDup (map seq (events st))
  /\ (forall e, In e E -> referral_id e = rid ->
      In (seq e) (map seq (events st))).
Proof.
  intros Hr Hg. destruct (reconcile_lookup _ _ _ Hr Hg) as [_ ->].
  rewrite reconcile_referral_events.
  split; [intros e; apply retained_first|]. split.
  - eapply Permutation_NoDup; [|apply dedup_seqs_NoDup].
    apply Permutation_map. symmetry.
    apply (sort_perm (fun a b : ReferralEvent => JsNumber.sub (seq a) (seq b))).
  - intros e He Hrid.
    assert (Hin : In e (events_of rid E)) by now apply events_of_In.
    pose proof (dedup_has _ e Hin) as Hh. apply map_has_In in Hh.
    rewrite <- seqmap_keys_are_seqs in Hh by apply dedup_ok.
    apply in_map_iff in Hh. destruct Hh as (x & Hx & Hxin).
    rewrite <- Hx. apply in_map. now apply retained_In.
Qed.

(** Scenario 2: of the two events with seq 1, the first is retained. *)
Lemma retained_are_first_occurrences_witness :
  let E := [ status_update "R2" 1 "SENT"; status_update "R2" 1 "ACKNOWLEDGED" ] in
  let st := reconcile_referral sample_parseISO "R2" E in
  In (status_update "R2" 1 "SENT") (events st)
  /\ ~ In (status_update "R2" 1 "ACKNOWLEDGED") (events st).
Proof.
  intros E st.
  destruct (@retained_are_first_occurrences sample_parseISO E
              [("R2", st)] "R2" st eq_refl eq_refl) as (H & _ & _).
  split.
  - apply H. split; [now left|reflexivity].
  - intros Hin. apply H in Hin. destruct Hin as [_ Hf]. discriminate Hf.
Defined.

(** X3. The duplicates counter is the number of raw events of the referral
    that were not retained: duplicates plus the number of retained events is
    the number of input events of the referral, and the counter is never
    negative. *)
Theorem duplicates_count_dropped (parseISO : string -> option Z)
    (E : list ReferralEvent) (m : ReconciledMap) (rid : string)
    (st : ReferralState) :
  reconcile parseISO E = Returned m ->
  own_get rid m = Some st ->
  duplicates (metrics st) + Z.of_nat (List.length (events st))
  = Z.of_nat (List.length (events_of rid E))
  /\ 0 <= duplicates (metrics st).
Proof.
  intros Hr Hg. destruct (reconcile_lookup _ _ _ Hr Hg) as [_ ->].
  rewrite reconcile_referral_events, retained_length.
  destruct (reconcile_referral_counts parseISO rid (events_of rid E))
    as [-> _].
  rewrite dedup_count. split; [lia|].
  assert (Hle : (List.length (fst (dedup (events_of rid E)))
                 <= List.length (events_of rid E))%nat).
  { rewrite <- retained_length.
    apply NoDup_incl_length.
    - apply NoDup_map_inv with (f := seq).
      eapply Permutation_NoDup; [|apply dedup_seqs_NoDup].
      apply Permutation_map. symmetry.
      apply (sort_perm (fun a b : ReferralEvent => JsNumber.sub (seq a) (seq b))).
    - intros e He. apply retained_first in He. tauto. }
  lia.
Qed.

Lemma duplicates_count_dropped_witness :
  let E := [ status_update "R2" 1 "SENT"; status_update "R2" 1 "SENT";
             status_update "R2" 3 "ACKNOWLEDGED" ] in
  let st := reconcile_referral sample_parseISO "R2" E in
  duplicates (metrics st) + 2 = 3.
Proof.
  intros E st.
  destruct (@duplicates_count_dropped sample_parseISO E
              [("R2", st)] "R2" st eq_refl eq_refl) as [H _].
  exact H.
Defined.

(* ================================================================== *)
(** * The status after replay *)
(* ================================================================== *)

Lemma appointment_logic_overrides (st : ReferralState) (e : ReferralEvent) :
  terminalOverrides
    (metrics (appointment_cancelled_logic (appointment_set_logic st e) e))
  = terminalOverrides (metrics st).
Proof.
  unfold appointment_set_logic, appointment_cancelled_logic.
  split_matches; reflexivity.
Qed.

Lemma replay_step_overrides (acc : ReferralState * bool) (e : ReferralEvent) :
  terminalOverrides (metrics (fst (replay_step acc e)))
  = terminalOverrides (metrics (fst (status_logic acc e))).
Proof.
  unfold replay_step. destruct (status_logic acc e) as [st t]. simpl.
  apply appointment_logic_overrides.
Qed.

Lemma statuses_app (l1 l2 : list ReferralEvent) :
  statuses (l1 ++ l2) = statuses l1 ++ statuses l2.
Proof. apply flat_map_app. Qed.

Lemma terminal_statuses_app (l1 l2 : list ReferralEvent) :
  terminal_statuses (l1 ++ l2) = terminal_statuses l1 ++ terminal_statuses l2.
Proof. unfold terminal_statuses. now rewrite statuses_app, filter_app. Qed.

Lemma statuses_single (e : ReferralEvent) :
  statuses [e] = match status_of e with Some s => [s] | None => [] end.
Proof.
  unfold statuses, status_of. cbn [flat_map]. rewrite app_nil_r.
  destruct (String.eqb (type e) "STATUS_UPDATE"); [|reflexivity].
  now destruct (truthy (p_status (payload e))).
Qed.

Lemma status_logic_of (st : ReferralState) (t : bool) (e : ReferralEvent) :
  status_logic (st, t) e
  = match status_of e with
    | None => (st, t)
    | Some s =>
        if t then
          if includes TERMINAL_STATUSES s
          then (with_metrics (bump_terminalOverrides (metrics st))
                  (with_status s st), t)
          else (st, t)
        else (with_status s st,
              if includes TERMINAL_STATUSES s then true else t)
    end.
Proof.
  unfold status_logic, status_of.
  destruct (String.eqb (type e) "STATUS_UPDATE"); [|reflexivity].
  now destruct (truthy (p_status (payload e))).
Qed.

(** What the replay has done to status, flag and terminalOverrides after
    any list of events. *)
Lemma replay_status (rid : string) (d g : Z) (evs l : list ReferralEvent) :
  let acc := replay l (initial_state rid d g evs, false) in
  status (fst acc) = final_status l
  /\ snd acc = match terminal_statuses l with [] => false | _ => true end
  /\ terminalOverrides (metrics (fst acc))
     = Z.max 0 (Z.of_nat (List.length (terminal_statuses l)) - 1).
Proof.
  induction l as [|e l IH] using rev_ind.
  - repeat split.
  - cbv zeta in *. rewrite replay_app.
    change (replay [e] ?a) with (replay_step a e).
    destruct (replay_step_status
                (replay l (initial_state rid d g evs, false)) e) as [Hs Ht].
    rewrite Hs, Ht, replay_step_overrides. clear Hs Ht.
    destruct (replay l (initial_state rid d g evs, false)) as [st t].
    cbn [fst snd] in IH. destruct IH as (IHs & IHt & IHo).
    unfold final_status in *. rewrite terminal_statuses_app, statuses_app.
    unfold terminal_statuses in *. rewrite statuses_single, status_logic_of.
    remember (statuses l) as ss eqn:Hss. clear Hss.
    remember (filter (includes TERMINAL_STATUSES) ss) as ts eqn:Hts.
    clear Hts.
    destruct (status_of e) as [s|].
    + cbn [filter].
      destruct (includes TERMINAL_STATUSES s) eqn:Hterm.
      * rewrite length_app. cbn [List.length].
        destruct ts as [|x ts]; subst t;
          cbn [fst snd status metrics terminalOverrides with_status
               with_metrics bump_terminalOverrides app List.length].
        -- repeat split. exact IHo.
        -- change (x :: ts ++ [s]) with ((x :: ts) ++ [s]).
           rewrite last_last. repeat split.
           rewrite IHo. cbn [List.length]. lia.
      * rewrite !app_nil_r.
        destruct ts as [|x ts]; subst t; cbn [fst snd status with_status].
        -- repeat split; [|exact IHo]. now rewrite last_last.
        -- repeat split; [exact IHs|exact IHo].
    + cbn [filter]. rewrite !app_nil_r. cbn [fst snd].
      now repeat split.
Qed.

(** X4. The last word on status.  In every returned state the status is
    that of the last retained terminal STATUS_UPDATE if there is one,
    otherwise that of the last retained STATUS_UPDATE, otherwise CREATED;
    the referral is terminal exactly when a terminal STATUS_UPDATE was
    retained; and terminalOverrides is the number of retained terminal
    STATUS_UPDATEs beyond the first. *)
Theorem status_is_last_word (parseISO : string -> option Z)
    (E : list ReferralEvent) (m : ReconciledMap) (rid : string)
    (st : ReferralState) :
  reconcile parseISO E = Returned m ->
  own_get rid m = Some st ->
  status st = final_status (events st)
  /\ (is_terminal st = true <-> terminal_statuses (events st) <> [])
  /\ terminalOverrides (metrics st)
     = Z.max 0 (Z.of_nat (List.length (terminal_statuses (events st))) - 1).
Proof.
  intros Hr Hg. destruct (reconcile_lookup _ _ _ Hr Hg) as [_ ->].
  rewrite reconcile_referral_events.
  set (raw := events_of rid E).
  pose proof (reconcile_referral_unfold parseISO rid raw) as Hu.
  destruct (finalize_frame parseISO (replayed rid raw))
    as (_ & Hs & Hm & _).
  rewrite <- Hu in Hs, Hm.
  assert (Hf : flag_ok (replayed rid raw))
    by apply replay_flag, initial_flag_ok.
  unfold flag_ok, is_terminal in Hf. unfold is_terminal.
  rewrite Hs, Hm, <- Hf.
  unfold replayed.
  destruct (replay_status rid (snd (dedup raw)) (count_gaps (retained raw))
              (retained raw) (retained raw)) as (H1 & H2 & H3).
  split; [exact H1|]. split; [|exact H3].
  rewrite H2. destruct (terminal_statuses (retained raw)).
  - split; [discriminate|congruence].
  - split; [discriminate|reflexivity].
Qed.

(** Scenario 5: CANCELLED, SENT, COMPLETED ends COMPLETED with one
    override. *)
Lemma status_is_last_word_witness :
  let E := [ status_update "R5" 1 "CANCELLED"; status_update "R5" 2 "SENT";
             status_update "R5" 3 "COMPLETED" ] in
  let st := reconcile_referral sample_parseISO "R5" E in
  status st = "COMPLETED" /\ terminalOverrides (metrics st) = 1.
Proof.
  intros E st.
  destruct (@status_is_last_word sample_parseISO E [("R5", st)] "R5" st
              eq_refl eq_refl) as (H1 & _ & H3).
  split; [exact H1|exact H3].
Defined.

(* ================================================================== *)
(** * Appointment counters and the appointments record *)
(* ================================================================== *)

Lemma status_logic_appointment_counters (acc : ReferralState * bool)
    (e : ReferralEvent) :
  reschedules (metrics (fst (status_logic acc e)))
  = reschedules (metrics (fst acc))
  /\ cancelledAppts (metrics (fst (status_logic acc e)))
     = cancelledAppts (metrics (fst acc))
  /\ appointments (fst (status_logic acc e)) = appointments (fst acc).
Proof.
  destruct acc as [st t]. rewrite status_logic_of.
  destruct (status_of e); [|now repeat split].
  destruct t, (includes TERMINAL_STATUSES s); now repeat split.
Qed.

Lemma appointment_set_logic_counters (st : ReferralState) (e : ReferralEvent) :
  let st' := appointment_set_logic st e in
  0 <= reschedules (metrics st') - reschedules (metrics st)
    <= (if String.eqb (type e) "APPOINTMENT_SET" then 1 else 0)
  /\ cancelledAppts (metrics st') = cancelledAppts (metrics st).
Proof.
  cbv zeta. unfold appointment_set_logic.
  destruct (String.eqb (type e) "APPOINTMENT_SET"); [|split; [lia|reflexivity]].
  split_matches; cbn; split; try reflexivity; lia.
Qed.

Lemma appointment_cancelled_logic_counters (st : ReferralState)
    (e : ReferralEvent) :
  let st' := appointment_cancelled_logic st e in
  0 <= cancelledAppts (metrics st') - cancelledAppts (metrics st)
    <= (if String.eqb (type e) "APPOINTMENT_CANCELLED" then 1 else 0)
  /\ reschedules (metrics st') = reschedules (metrics st).
Proof.
  cbv zeta. unfold appointment_cancelled_logic.
  destruct (String.eqb (type e) "APPOINTMENT_CANCELLED");
    [|split; [lia|reflexivity]].
  split_matches; cbn; split; try reflexivity; lia.
Qed.

Lemma replay_step_counters (acc : ReferralState * bool) (e : ReferralEvent) :
  let st' := fst (replay_step acc e) in
  0 <= reschedules (metrics st') - reschedules (metrics (fst acc))
    <= (if String.eqb (type e) "APPOINTMENT_SET" then 1 else 0)
  /\ 0 <= cancelledAppts (metrics st') - cancelledAppts (metrics (fst acc))
       <= (if String.eqb (type e) "APPOINTMENT_CANCELLED" then 1 else 0).
Proof.
  cbv zeta. unfold replay_step.
  destruct (status_logic_appointment_counters acc e) as (H1 & H2 & _).
  destruct (status_logic acc e) as [st t]. cbn [fst] in *.
  destruct (appointment_set_logic_counters st e) as [S1 S2].
  destruct (appointment_cancelled_logic_counters
              (appointment_set_logic st e) e) as [C1 C2].
  cbv zeta in *. lia.
Qed.

Lemma count_type_cons (t : string) (e : ReferralEvent)
    (l : list ReferralEvent) :
  count_type t (e :: l)
  = (if String.eqb (type e) t then 1 else 0) + count_type t l.
Proof.
  unfold count_type. cbn [filter].
  destruct (String.eqb (type e) t); cbn [List.length]; lia.
Qed.

Lemma replay_counters (l : list ReferralEvent) (acc : ReferralState * bool) :
  let st' := fst (replay l acc) in
  0 <= reschedules (metrics st') - reschedules (metrics (fst acc))
    <= count_type "APPOINTMENT_SET" l
  /\ 0 <= cancelledAppts (metrics st') - cancelledAppts (metrics (fst acc))
       <= count_type "APPOINTMENT_CANCELLED" l.
Proof.
  revert acc. induction l as [|e l IH]; intros acc; cbv zeta.
  - unfold count_type. simpl. lia.
  - change (replay (e :: l) acc) with (replay l (replay_step acc e)).
    rewrite !count_type_cons.
    specialize (IH (replay_step acc e)). cbv zeta in IH.
    pose proof (replay_step_counters acc e) as H. cbv zeta in H. lia.
Qed.

(** X5. In every returned state, reschedules lies between 0 and the number
    of retained APPOINTMENT_SET events, and cancelledAppts between 0 and
    the number of retained APPOINTMENT_CANCELLED events: each retained event
    moves at most the one counter of its type, by at most one. *)
Theorem appointment_counters_bounded (parseISO : string -> option Z)
    (E : list ReferralEvent) (m : ReconciledMap) (rid : string)
    (st : ReferralState) :
  reconcile parseISO E = Returned m ->
  own_get rid m = Some st ->
  0 <= reschedules (metrics st) <= count_type "APPOINTMENT_SET" (events st)
  /\ 0 <= cancelledAppts (metrics st)
       <= count_type "APPOINTMENT_CANCELLED" (events st).
Proof.
  intros Hr Hg. destruct (reconcile_lookup _ _ _ Hr Hg) as [_ ->].
  rewrite reconcile_referral_events.
  set (raw := events_of rid E).
  pose proof (reconcile_referral_unfold parseISO rid raw) as Hu.
  destruct (finalize_frame parseISO (replayed rid raw)) as (_ & _ & Hm & _).
  rewrite <- Hu in Hm. rewrite Hm. unfold replayed.
  pose proof (replay_counters (retained raw)
                (initial_state rid (snd (dedup raw))
                   (count_gaps (retained raw)) (retained raw), false)) as H.
  cbv zeta in H. cbn [fst initial_state metrics reschedules cancelledAppts]
    in H.
  lia.
Qed.

(** Scenario 3: two APPOINTMENT_SET events, one reschedule. *)
Lemma appointment_counters_bounded_witness :
  let st := reconcile_referral sample_parseISO "R3" reschedule_sample in
  0 <= reschedules (metrics st) <= 2
  /\ 0 <= cancelledAppts (metrics st) <= 1.
Proof.
  intros st.
  exact (@appointment_counters_bounded sample_parseISO reschedule_sample
           [("R3", st)] "R3" st eq_refl eq_refl).
Defined.

(** ** The appointments record *)

Lemma appt_assign_ok (k : string) (v : option Appointment) (o : Appointments) :
  appointments_ok o ->
  (forall a, v = Some a -> appt_id a = k) ->
  appointments_ok (appt_assign k v o).
Proof.
  intros [Hnd Hid] Hv. unfold appt_assign.
  assert (Hset : appointments_ok
                   {| own := own_set k v (own o); proto := proto o |}).
  { split; cbn [own].
    - now apply own_set_NoDup.
    - intros k' a Hin.
      assert (Hnd' : NoDup (map fst (own_set k v (own o))))
        by now apply own_set_NoDup.
      apply (@own_get_In _ k' (Some a) _ Hnd') in Hin.
      destruct (String.eqb_spec k' k) as [->|Hne].
      + rewrite own_get_set_same in Hin. injection Hin as Hin.
        now apply Hv.
      + rewrite own_get_set_other in Hin by exact Hne.
        apply (@own_get_In _ k' (Some a) _ Hnd) in Hin. now apply Hid. }
  destruct (own_get k (own o)); [exact Hset|].
  destruct (String.eqb k "__proto__"); [|exact Hset].
  destruct (proto o); [split; assumption|split; assumption|exact Hset].
Qed.

Lemma replay_step_appointments_ok (acc : ReferralState * bool)
    (e : ReferralEvent) :
  appointments_ok (appointments (fst acc)) ->
  appointments_ok (appointments (fst (replay_step acc e))).
Proof.
  intros H. unfold replay_step.
  destruct (status_logic_appointment_counters acc e) as (_ & _ & Ha).
  destruct (status_logic acc e) as [st t]. cbn [fst] in *.
  rewrite <- Ha in H. clear Ha.
  assert (Hs : appointments_ok (appointments (appointment_set_logic st e))).
  { unfold appointment_set_logic.
    split_matches; cbn [appointments with_appointments with_metrics];
      try exact H;
      (apply appt_assign_ok; [exact H|now intros a [= <-]]). }
  unfold appointment_cancelled_logic.
  split_matches; cbn [appointments with_appointments with_metrics];
    try exact Hs;
    (apply appt_assign_ok; [exact Hs|discriminate]).
Qed.

Lemma replay_appointments_ok (l : list ReferralEvent)
    (acc : ReferralState * bool) :
  appointments_ok (appointments (fst acc)) ->
  appointments_ok (appointments (fst (replay l acc))).
Proof.
  revert acc. induction l as [|e l IH]; intros acc H; [exact H|].
  apply IH. now apply replay_step_appointments_ok.
Qed.

Lemma live_In (o : Appointments) (a : Appointment) :
  In a (live_appointments o) <-> exists k, In (k, Some a) (own o).
Proof.
  unfold live_appointments. rewrite in_flat_map. split.
  - intros ([b|] & Hv & Hin); [|destruct Hin].
    destruct Hin as [->|[]]. apply (proj1 (values_In _ _)) in Hv.
    apply in_map_iff in Hv. destruct Hv as ([k v] & Hs & Hin).
    simpl in Hs. subst v. now exists k.
  - intros (k & Hin). exists (Some a). split; [|now left].
    apply (proj2 (values_In _ _)). apply in_map_iff. now exists (k, Some a).
Qed.

(** X6. In every returned state the appointments record has pairwise
    distinct keys, every non-cancelled entry sits under its own appt_id,
    and a non-null active_appointment is the non-cancelled entry stored
    under its appt_id in a referral that is not terminal. *)
Theorem active_is_a_stored_appointment (parseISO : string -> option Z)
    (E : list ReferralEvent) (m : ReconciledMap) (rid : string)
    (st : ReferralState) :
  reconcile parseISO E = Returned m ->
  own_get rid m = Some st ->
  NoDup (map fst (own (appointments st)))
  /\ (forall k a,
        own_get k (own (appointments st)) = Some (Some a) -> appt_id a = k)
  /\ (forall a,
        active_appointment st = Some a ->
        own_get (appt_id a) (own (appointments st)) = Some (Some a)
        /\ is_terminal st = false).
Proof.
  intros Hr Hg. destruct (reconcile_lookup _ _ _ Hr Hg) as [_ Hst].
  pose proof (reconcile_referral_active parseISO rid (events_of rid E)) as Ha.
  cbv zeta in Ha. rewrite <- Hst in Ha.
  assert (Hok : appointments_ok (appointments st)).
  { rewrite Hst, reconcile_referral_unfold.
    destruct (finalize_frame parseISO (replayed rid (events_of rid E)))
      as (_ & _ & _ & _ & -> & _).
    apply replay_appointments_ok. split; [constructor|intros k a []]. }
  destruct Hok as [Hnd Hid].
  split; [exact Hnd|]. split.
  - intros k a Hk. apply Hid. now apply own_get_In.
  - intros a Hact. rewrite Hact in Ha.
    destruct (is_terminal st); [discriminate|]. split; [|reflexivity].
    rewrite find_best_live in Ha.
    assert (Hin : In a (live_appointments (appointments st))).
    { destruct (live_appointments (appointments st)) as [|b l];
        [discriminate|].
      destruct (best_is_member parseISO l b) as (a' & Ha' & Hin).
      change (fold_left (fun b0 a0 => best_step parseISO b0 (Some a0))
                (b :: l) None)
        with (fold_left (fun b0 a0 => best_step parseISO b0 (Some a0))
                l (Some b)) in Ha.
      rewrite Ha' in Ha. injection Ha as ->. exact Hin. }
    apply live_In in Hin. destruct Hin as (k & Hin).
    rewrite (Hid k a Hin). now apply own_get_In.
Qed.

(** Scenario 4: the active appointment A is the entry under key "A". *)
Lemma active_is_a_stored_appointment_witness :
  let st := reconcile_referral sample_parseISO "R4" two_appointments_sample in
  own_get "A" (own (appointments st))
  = Some (Some {| appt_id := "A"; start_time := "2025-05-05T09:00:00Z" |}).
Proof.
  intros st.
  destruct (@active_is_a_stored_appointment sample_parseISO
              two_appointments_sample [("R4", st)] "R4" st eq_refl eq_refl)
    as (_ & _ & H).
  apply (H {| appt_id := "A"; start_time := "2025-05-05T09:00:00Z" |}).
  reflexivity.
Defined.

(* ================================================================== *)
(** * Referrals do not interfere, and retained events replay to the same
      state *)
(* ================================================================== *)

(** X7. Referrals are reconciled independently: if two inputs on which
    reconcile returns hold the same events for a referral, in the same
    relative order, then they give that referral the same state (or both
    give it none), whatever else the inputs contain and however the events
    of other referrals are interleaved. *)
Theorem referrals_are_independent (parseISO : string -> option Z)
    (E E' : list ReferralEvent) (m m' : ReconciledMap) (rid : string) :
  reconcile parseISO E = Returned m ->
  reconcile parseISO E' = Returned m' ->
  events_of rid E = events_of rid E' ->
  own_get rid m = own_get rid m'.
Proof.
  intros Hr Hr' Hev.
  destruct (names_inherited E) eqn:Hn.
  { rewrite (reconcile_raises parseISO E Hn) in Hr. discriminate. }
  destruct (names_inherited E') eqn:Hn'.
  { rewrite (reconcile_raises parseISO E' Hn') in Hr'. discriminate. }
  destruct (reconcile_returns parseISO E Hn) as (m1 & H1 & _ & Hget).
  destruct (reconcile_returns parseISO E' Hn') as (m2 & H2 & _ & Hget').
  rewrite Hr in H1. injection H1 as <-.
  rewrite Hr' in H2. injection H2 as <-.
  now rewrite Hget, Hget', Hev.
Qed.

(** Scenario 4 alone and Scenario 4 with the events of Scenario 3 mixed
    in. *)
Lemma referrals_are_independent_witness :
  lookup_state "R4" (reconcile sample_parseISO two_appointments_sample)
  = lookup_state "R4"
      (reconcile sample_parseISO
         (reschedule_sample ++ two_appointments_sample)).
Proof.
  exact (@referrals_are_independent sample_parseISO two_appointments_sample
           (reschedule_sample ++ two_appointments_sample) _ _ "R4"
           eq_refl eq_refl eq_refl).
Defined.

Lemma sort_sorted_id {A : Type} (cmp : A -> A -> Z) (key : A -> Z)
    (l : list A) :
  (forall x y, cmp x y <= 0 <-> key x <= key y) ->
  StronglySorted (key_lt key) l -> JsArray.sort cmp l = l.
Proof.
  intros Hk. induction 1 as [|x xs Hs IH Hall]; simpl; [reflexivity|].
  rewrite IH. destruct xs as [|y ys]; [reflexivity|]. simpl.
  inversion Hall as [|? ? Hxy _]; subst. unfold key_lt in Hxy.
  destruct (Z.leb_spec (cmp x y) 0) as [H|H]; [reflexivity|].
  exfalso. assert (cmp x y <= 0) by (apply Hk; lia). lia.
Qed.

Lemma dedup_fold_fresh (l : list ReferralEvent) (m : SeqMap) (c : Z) :
  NoDup (map fst m ++ map seq l) ->
  fold_left dedup_step l (m, c) = (m ++ map (fun e => (seq e, e)) l, c).
Proof.
  revert m. induction l as [|e l IH]; intros m Hnd; simpl.
  - now rewrite app_nil_r.
  - assert (Hh : map_has (seq e) m = false).
    { destruct (map_has (seq e) m) eqn:Hh; [|reflexivity].
      apply map_has_In in Hh. apply NoDup_remove_2 in Hnd.
      exfalso. apply Hnd. apply in_or_app. now left. }
    rewrite Hh, IH.
    + now rewrite <- app_assoc.
    + rewrite map_app. simpl. rewrite <- app_assoc. exact Hnd.
Qed.

Lemma dedup_distinct (l : list ReferralEvent) :
  NoDup (map seq l) -> dedup l = (map (fun e => (seq e, e)) l, 0).
Proof. intros H. unfold dedup. now rewrite dedup_fold_fresh. Qed.

Lemma retained_retained (raw : list ReferralEvent) :
  retained (retained raw) = retained raw
  /\ snd (dedup (retained raw)) = 0.
Proof.
  assert (Hnd : NoDup (map seq (retained raw))).
  { eapply Permutation_NoDup; [|apply (dedup_seqs_NoDup raw)].
    apply Permutation_map. symmetry.
    apply (sort_perm (fun a b : ReferralEvent => JsNumber.sub (seq a) (seq b))). }
  split; [|now rewrite (@dedup_distinct _ Hnd)].
  unfold retained at 1. rewrite (@dedup_distinct _ Hnd).
  cbn [fst]. rewrite map_map. cbn [snd].
  rewrite map_id. unfold sort_by_seq.
  apply (@sort_sorted_id _ (fun a b => JsNumber.sub (seq a) (seq b)) seq
           (retained raw)
           seq_cmp_key).
  apply retained_sorted.
Qed.

Lemma reconcile_referral_retained (parseISO : string -> option Z)
    (rid : string) (raw : list ReferralEvent) :
  reconcile_referral parseISO rid (retained raw)
  = with_duplicates 0 (reconcile_referral parseISO rid raw).
Proof.
  rewrite !reconcile_referral_unfold. unfold replayed.
  destruct (retained_retained raw) as [-> ->].
  set (l := retained raw).
  change (initial_state rid 0 (count_gaps l) l, false)
    with (with_duplicates 0
            (fst (initial_state rid (snd (dedup raw)) (count_gaps l) l,
                  false)),
          snd (initial_state rid (snd (dedup raw)) (count_gaps l) l, false)).
  rewrite replay_duplicates. apply finalize_duplicates.
Qed.

Lemma events_of_same (rid : string) (l : list ReferralEvent) :
  (forall e, In e l -> referral_id e = rid) -> events_of rid l = l.
Proof.
  intros H. induction l as [|e l IH]; [reflexivity|].
  unfold events_of in *. simpl.
  rewrite (proj2 (String.eqb_eq _ _) (H e (or_introl eq_refl))).
  f_equal. apply IH. intros x Hx. apply H. now right.
Qed.

(** X8. Deduplication followed by replay is idempotent: reconciling the
    retained events of a referral again gives a map with that referral
    alone, in the same state (same events, status, appointments,
    active_appointment, seqGaps and replay counters) with duplicates 0. *)
Theorem retained_events_replay (parseISO : string -> option Z)
    (E : list ReferralEvent) (m : ReconciledMap) (rid : string)
    (st : ReferralState) :
  reconcile parseISO E = Returned m ->
  own_get rid m = Some st ->
  exists m',
    reconcile parseISO (events st) = Returned m'
    /\ own_get rid m' = Some (with_duplicates 0 st)
    /\ forall r, r <> rid -> own_get r m' = None.
Proof.
  intros Hr Hg.
  destruct (names_inherited E) eqn:Hn.
  { rewrite (reconcile_raises parseISO E Hn) in Hr. discriminate. }
  destruct (reconcile_lookup _ _ _ Hr Hg) as [Hne ->].
  rewrite reconcile_referral_events.
  set (raw := events_of rid E) in *.
  assert (Hsub : forall e, In e (retained raw) ->
                           In e E /\ referral_id e = rid).
  { intros e He. apply retained_first in He. destruct He as [He _].
    now apply events_of_In in He. }
  assert (Hn' : names_inherited (retained raw) = false).
  { destruct (names_inherited (retained raw)) eqn:Hx; [|reflexivity].
    unfold names_inherited in Hx. apply existsb_exists in Hx.
    destruct Hx as (e & He & Hi).
    assert (names_inherited E = true); [|congruence].
    apply existsb_exists. exists e. split; [apply Hsub, He|exact Hi]. }
  destruct (reconcile_returns parseISO _ Hn') as (m' & Hm' & _ & Hget).
  exists m'. split; [exact Hm'|]. split.
  - rewrite Hget, events_of_same by (intros e He; apply Hsub, He).
    pose proof (retained_nonempty Hne) as Hne'. fold raw in Hne'.
    destruct (retained raw) eqn:Hl; [congruence|].
    rewrite <- Hl. now rewrite reconcile_referral_retained.
  - intros r Hr'. rewrite Hget.
    destruct (events_of r (retained raw)) as [|e l] eqn:Hl; [reflexivity|].
    exfalso.
    assert (He : In e (events_of r (retained raw))) by (rewrite Hl; now left).
    apply events_of_In in He. destruct He as [He Hid].
    apply Hsub in He. destruct He as [_ He]. congruence.
Qed.

(** Scenario 2: one duplicate on the first pass, none on the second. *)
Lemma retained_events_replay_witness :
  let E := [ status_update "R2" 1 "SENT"; status_update "R2" 1 "SENT";
             status_update "R2" 3 "ACKNOWLEDGED" ] in
  let st := reconcile_referral sample_parseISO "R2" E in
  duplicates (metrics st) = 1
  /\ exists m',
       reconcile sample_parseISO (events st) = Returned m'
       /\ own_get "R2" m' = Some (with_duplicates 0 st).
Proof.
  intros E st. split; [reflexivity|].
  destruct (@retained_events_replay sample_parseISO E [("R2", st)] "R2" st
              eq_refl eq_refl) as (m' & H1 & H2 & _).
  exists m'. split; assumption.
Defined.

(* ================================================================== *)
(** * Aggregate metrics *)
(* ================================================================== *)

Lemma count_where_cons (p : ReferralState -> bool) (r : ReferralState)
    (l : list ReferralState) :
  count_where p (r :: l) = (if p r then 1 else 0) + count_where p l.
Proof.
  unfold count_where. cbn [filter].
  destruct (p r); cbn [List.length]; lia.
Qed.

Lemma derive_fold (l : list ReferralState) (acc : DerivedMetrics) :
  let d := fold_left derive_step l acc in
  total d = total acc
  /\ completed d = completed acc + count_where is_completed l
  /\ cancelled d = cancelled acc + count_where is_cancelled l
  /\ inProgress d = inProgress acc + count_where in_progress l
  /\ scheduled d
     = scheduled acc
       + count_where (fun r => in_progress r && has_active r) l
  /\ noAppointment d
     = noAppointment acc
       + count_where (fun r => in_progress r && negb (has_active r)) l.
Proof.
  revert acc. induction l as [|r l IH]; intros acc; cbv zeta.
  - unfold count_where. simpl. repeat split; lia.
  - cbn [fold_left]. specialize (IH (derive_step acc r)). cbv zeta in IH.
    destruct IH as (H1 & H2 & H3 & H4 & H5 & H6).
    rewrite H1, H2, H3, H4, H5, H6, !count_where_cons.
    unfold derive_step, in_progress, is_completed, is_cancelled, has_active.
    destruct (String.eqb_spec (status r) "COMPLETED") as [Hc|Hc].
    { assert (Hx : String.eqb (status r) "CANCELLED" = false)
        by (rewrite Hc; reflexivity).
      rewrite Hx.
      cbn [total completed cancelled inProgress scheduled noAppointment
           negb andb].
      repeat split; lia. }
    destruct (String.eqb (status r) "CANCELLED");
      [cbn [total completed cancelled inProgress scheduled noAppointment
            negb andb]; repeat split; lia|].
    destruct (active_appointment r);
      cbn [total completed cancelled inProgress scheduled noAppointment
           negb andb]; repeat split; lia.
Qed.

(** The fields of the result, as counts over the referrals. *)
Lemma derived_metrics_counts (reconciledMap : ReconciledMap) :
  let d := getDerivedMetrics reconciledMap in
  let l := values reconciledMap in
  total d = Z.of_nat (List.length reconciledMap)
  /\ completed d = count_where is_completed l
  /\ cancelled d = count_where is_cancelled l
  /\ inProgress d = count_where in_progress l
  /\ scheduled d = count_where (fun r => in_progress r && has_active r) l
  /\ noAppointment d
     = count_where (fun r => in_progress r && negb (has_active r)) l.
Proof.
  cbv zeta. unfold getDerivedMetrics.
  set (l := values reconciledMap).
  destruct (derive_fold l
              {| total := Z.of_nat (List.length l); completed := 0;
                 cancelled := 0; inProgress := 0; scheduled := 0;
                 noAppointment := 0 |}) as (H1 & H2 & H3 & H4 & H5 & H6).
  cbn [total completed cancelled inProgress scheduled noAppointment] in *.
  assert (Hlen : List.length l = List.length reconciledMap).
  { subst l. unfold values. rewrite length_map.
    apply Permutation_length, entries_perm. }
  rewrite H1, H2, H3, H4, H5, H6, <- Hlen. repeat split; lia.
Qed.

(** X9. getDerivedMetrics counts each referral once: total is the number
    of referrals, completed and cancelled count the referrals with exactly
    that status, scheduled and noAppointment split the remaining ones by
    whether active_appointment is set, inProgress is their sum, and total =
    completed + cancelled + inProgress. *)
Theorem derived_metrics_partition (reconciledMap : ReconciledMap) :
  let d := getDerivedMetrics reconciledMap in
  let l := values reconciledMap in
  total d = Z.of_nat (List.length reconciledMap)
  /\ completed d = count_where is_completed l
  /\ cancelled d = count_where is_cancelled l
  /\ scheduled d = count_where (fun r => in_progress r && has_active r) l
  /\ noAppointment d
     = count_where (fun r => in_progress r && negb (has_active r)) l
  /\ inProgress d = scheduled d + noAppointment d
  /\ total d = completed d + cancelled d + inProgress d.
Proof.
  cbv zeta.
  destruct (derived_metrics_counts reconciledMap)
    as (H1 & H2 & H3 & H4 & H5 & H6).
  cbv zeta in *.
  set (l := values reconciledMap) in *.
  assert (Hlen : List.length l = List.length reconciledMap).
  { subst l. unfold values. rewrite length_map.
    apply Permutation_length, entries_perm. }
  assert (Hsplit : forall l0,
             Z.of_nat (List.length l0)
             = count_where is_completed l0 + count_where is_cancelled l0
               + count_where in_progress l0
             /\ count_where in_progress l0
                = count_where (fun r => in_progress r && has_active r) l0
                  + count_where
                      (fun r => in_progress r && negb (has_active r)) l0).
  { induction l0 as [|r l0 [IH1 IH2]]; [split; reflexivity|].
    rewrite !count_where_cons. cbn [List.length].
    unfold in_progress, is_completed, is_cancelled in *.
    destruct (String.eqb_spec (status r) "COMPLETED") as [Hc|Hc];
      destruct (String.eqb_spec (status r) "CANCELLED") as [Hx|Hx];
      destruct (has_active r); cbn [negb andb]; try (split; lia).
    all: rewrite Hc in Hx; discriminate. }
  destruct (Hsplit l) as [S1 S2].
  rewrite H1, H2, H3, H4, H5, H6, <- Hlen. repeat split; lia.
Qed.

Lemma same_entries_perm {V : Type} (m m' : props V) :
  NoDup (map fst m) -> NoDup (map fst m') ->
  (forall k, own_get k m = own_get k m') ->
  Permutation m m'.
Proof.
  intros Hnd Hnd' Hget.
  apply NoDup_Permutation.
  - now apply NoDup_map_inv with (f := fst).
  - now apply NoDup_map_inv with (f := fst).
  - intros [k v]. rewrite <- !own_get_In by assumption.
    now rewrite Hget.
Qed.

Lemma count_where_perm (p : ReferralState -> bool) (l l' : list ReferralState) :
  Permutation l l' -> count_where p l = count_where p l'.
Proof.
  intros H. unfold count_where. f_equal.
  apply Permutation_length. now apply filter_perm.
Qed.

Lemma derived_metrics_perm (m m' : ReconciledMap) :
  Permutation m m' -> getDerivedMetrics m = getDerivedMetrics m'.
Proof.
  intros Hp.
  assert (Hv : Permutation (values m) (values m')).
  { unfold values. apply Permutation_map.
    rewrite (entries_perm m), (entries_perm m'). exact Hp. }
  destruct (derived_metrics_counts m) as (A1 & A2 & A3 & A4 & A5 & A6).
  destruct (derived_metrics_counts m') as (B1 & B2 & B3 & B4 & B5 & B6).
  cbv zeta in *.
  destruct (getDerivedMetrics m) as [t c x i s n].
  destruct (getDerivedMetrics m') as [t' c' x' i' s' n'].
  cbn [total completed cancelled inProgress scheduled noAppointment] in *.
  rewrite (Permutation_length Hp) in A1.
  rewrite (count_where_perm _ Hv) in A2.
  rewrite (count_where_perm _ Hv) in A3.
  rewrite (count_where_perm _ Hv) in A4.
  rewrite (count_where_perm _ Hv) in A5.
  rewrite (count_where_perm _ Hv) in A6.
  f_equal; congruence.
Qed.

(** X10. The aggregate metrics of an upload do not depend on the order of
    its events: for an input whose duplicates agree, every permutation on
    which reconcile returns gives the same getDerivedMetrics. *)
Theorem derived_metrics_order_independent (parseISO : string -> option Z)
    (E E' : list ReferralEvent) (m m' : ReconciledMap) :
  Permutation E E' ->
  duplicates_agree E ->
  reconcile parseISO E = Returned m ->
  reconcile parseISO E' = Returned m' ->
  getDerivedMetrics m = getDerivedMetrics m'.
Proof.
  intros Hp Hag Hr Hr'.
  assert (Hsame : NoDup (map fst m) /\ NoDup (map fst m')
                  /\ forall rid, own_get rid m = own_get rid m').
  { assert (Hag' : forall rid e1 e2,
               In e1 (events_of rid E) -> In e2 (events_of rid E) ->
               seq e1 = seq e2 -> e1 = e2).
    { intros rid e1 e2 H1 H2 Hs. apply events_of_In in H1, H2.
      apply Hag; try tauto. destruct H1 as [_ ->], H2 as [_ ->]. reflexivity. }
    destruct (names_inherited E) eqn:Hn.
    { rewrite (reconcile_raises parseISO E Hn) in Hr. discriminate. }
    destruct (names_inherited E') eqn:Hn'.
    { rewrite (reconcile_raises parseISO E' Hn') in Hr'. discriminate. }
    destruct (reconcile_returns parseISO E Hn) as (m1 & H1 & Hnd & Hget).
    destruct (reconcile_returns parseISO E' Hn') as (m2 & H2 & Hnd' & Hget').
    rewrite Hr in H1. injection H1 as <-.
    rewrite Hr' in H2. injection H2 as <-.
    split; [exact Hnd|]. split; [exact Hnd'|].
    intros rid. rewrite Hget, Hget'.
    assert (Hpr : Permutation (events_of rid E) (events_of rid E'))
      by now apply filter_perm.
    pose proof (reconcile_referral_perm parseISO rid (Hag' rid) Hpr) as Heq.
    destruct (events_of rid E) as [|e raw] eqn:X1;
      destruct (events_of rid E') as [|e' raw'] eqn:X2; try reflexivity.
    - apply Permutation_nil in Hpr. discriminate.
    - symmetry in Hpr. apply Permutation_nil in Hpr. discriminate.
    - now rewrite Heq. }
  destruct Hsame as (Hnd & Hnd' & Hsame).
  now apply derived_metrics_perm, same_entries_perm.
Qed.

(** Scenario 3 of the specification against its own reversal. *)
Lemma derived_metrics_order_independent_witness :
  exists m m',
    reconcile sample_parseISO reschedule_sample = Returned m
    /\ reconcile sample_parseISO (rev reschedule_sample) = Returned m'
    /\ getDerivedMetrics m = getDerivedMetrics m'.
Proof.
  do 2 eexists. split; [reflexivity|]. split; [reflexivity|].
  apply (@derived_metrics_order_independent sample_parseISO
           reschedule_sample (rev reschedule_sample));
    [apply Permutation_rev| |reflexivity|reflexivity].
  intros e1 e2 H1 H2 _ Hs.
  destruct H1 as [<-|[<-|[<-|[<-|[]]]]], H2 as [<-|[<-|[<-|[<-|[]]]]];
    try reflexivity; discriminate Hs.
Defined.

(* ================================================================== *)
(** * More on the data-quality summary *)
(* ================================================================== *)









(* ================================================================== *)
(** * More on the chunked batch writer *)
(* ================================================================== *)

Section MoreWriterFacts.
Variables Ref Data : Type.

Lemma full_batches_length (store : list (list (Firestore.Op Ref Data))) :
  Forall (fun b => List.length b = 400%nat) store ->
  Z.of_nat (List.length (List.concat store))
  = 400 * Z.of_nat (List.length store).
Proof.
  induction 1 as [|b store Hb Hs IH]; [reflexivity|].
  simpl. rewrite length_app, Hb. lia.
Qed.

(** X13. Rotation keeps the open batch below the limit.  After any number
    n of set, update and delete calls on a fresh writer, and before
    commit(), exactly n / 400 batches have been handed to the store, each
    with 400 operations, and the n mod 400 most recent operations are still
    pending in the open batch: never 400 or more. *)
Theorem writer_rotates_at_limit (ops : list (Firestore.Op Ref Data)) :
  let ws := fold_left (@Firestore.enqueue Ref Data) ops
              (Firestore.new_writer Ref Data, []) in
  let n := Z.of_nat (List.length ops) in
  List.concat (snd ws) ++ Firestore.batch (fst ws) = ops
  /\ Forall (fun b => List.length b = 400%nat) (snd ws)
  /\ Z.of_nat (List.length (snd ws)) = n / 400
  /\ Firestore.count (fst ws) = n mod 400
  /\ Z.of_nat (List.length (Firestore.batch (fst ws))) = n mod 400.
Proof.
  cbv zeta.
  pose proof (writer_inv_enqueued ops) as H.
  destruct (fold_left (@Firestore.enqueue Ref Data) ops
              (Firestore.new_writer Ref Data, [])) as [[b c p] store].
  unfold writer_inv in H.
  cbn [Firestore.batch Firestore.count Firestore.promises fst snd] in *.
  destruct H as (Hops & Hc & Hlt & Hfull & _).
  unfold Firestore.MAX_BATCH_SIZE in Hlt.
  assert (Hn : Z.of_nat (List.length ops)
               = 400 * Z.of_nat (List.length store) + c).
  { rewrite <- Hops, length_app, Nat2Z.inj_add, full_batches_length, Hc
      by exact Hfull. reflexivity. }
  assert (Hc0 : 0 <= c) by lia.
  split; [exact Hops|]. split; [exact Hfull|].
  split; [|split].
  - apply (Z.div_unique _ 400 _ c); [left; lia|exact Hn].
  - apply (Z.mod_unique _ 400 (Z.of_nat (List.length store)) c);
      [left; lia|exact Hn].
  - rewrite <- Hc.
    apply (Z.mod_unique _ 400 (Z.of_nat (List.length store)) c);
      [left; lia|exact Hn].
Qed.

(** X14. The shape of what commit() leaves in the store: the number of
    committed batches is the number of operations divided by 400, rounded
    up; every batch but the last holds exactly 400 operations; and a writer
    that was given nothing commits nothing and waits for nothing. *)
Theorem writer_batch_count (ops : list (Firestore.Op Ref Data)) :
  let result := Firestore.write_all ops in
  let store := snd (fst result) in
  Z.of_nat (List.length store) = (Z.of_nat (List.length ops) + 399) / 400
  /\ Forall (fun b => List.length b = 400%nat) (removelast store)
  /\ (ops = [] -> store = [] /\ snd result = []).
Proof.
  cbv zeta. unfold Firestore.write_all.
  pose proof (writer_inv_enqueued ops) as H.
  destruct (fold_left (@Firestore.enqueue Ref Data) ops
              (Firestore.new_writer Ref Data, [])) as [[b c p] store].
  unfold writer_inv in H.
  cbn [Firestore.batch Firestore.count Firestore.promises] in H.
  destruct H as (Hops & Hc & Hlt & Hfull & Hp).
  unfold Firestore.MAX_BATCH_SIZE in Hlt.
  assert (Hn : Z.of_nat (List.length ops)
               = 400 * Z.of_nat (List.length store) + c).
  { rewrite <- Hops, length_app, Nat2Z.inj_add, full_batches_length, Hc
      by exact Hfull. reflexivity. }
  unfold Firestore.commit.
  cbn [Firestore.batch Firestore.count Firestore.promises].
  destruct (Z.ltb_spec 0 c) as [Hpos|Hzero]; cbn [fst snd Firestore.promises].
  - split; [|split].
    + rewrite length_app. cbn [List.length].
      apply (Z.div_unique _ 400 _ (c - 1)); [left; lia|lia].
    + now rewrite removelast_last.
    + intros ->. cbn [List.length Z.of_nat] in Hn. lia.
  - assert (c = 0) by lia. subst c.
    split; [|split].
    + apply (Z.div_unique _ 400 _ 399); [left; lia|lia].
    + destruct store as [|x store] using rev_ind; [constructor|].
      rewrite removelast_last. apply Forall_app in Hfull. tauto.
    + intros ->. cbn [List.length Z.of_nat] in Hn.
      assert (store = [])
        by (destruct store; [reflexivity|cbn [List.length] in Hn; lia]).
      subst store. split; [reflexivity|]. now rewrite Hp.
Qed.

End MoreWriterFacts.

(* ================================================================== *)
(** * More on the authentication gate *)
(* ================================================================== *)

Section MoreAuthzFacts.
Variable Body : Type.
Variable verifyIdToken : string -> option DecodedToken.
Variable storedRole : string -> outcome (option string).

Lemma truthy_Some (o : option string) (s : string) :
  truthy o = Some s <-> o = Some s /\ s <> "".
Proof.
  unfold truthy. destruct o as [x|]; [|split; [discriminate|intros [H _]; discriminate]].
  destruct (String.eqb_spec x "") as [->|Hne].
  - split; [discriminate|]. intros [[= <-] H]. contradiction.
  - split.
    + intros [= <-]. now split.
    + now intros [[= <-] _].
Qed.

(** X15. Only admins reach the upload handler.  The handler of POST
    /uploads runs exactly when the Authorization header starts with
    "Bearer ", the token after it verifies, and the user document of the
    verified uid stores the role "admin", spelled exactly so; it then sees a
    request whose user carries the uid and email of the token and the role
    admin, with the body untouched. *)
Theorem only_admins_upload (R : Type) (handler : Request Body -> R)
    (req : Request Body) (r : R) :
  post_uploads verifyIdToken storedRole handler req = Handled r
  <->
  exists authHeader token,
    authorization req = Some authHeader
    /\ String.prefix "Bearer " authHeader = true
    /\ verifyIdToken (bearer_token authHeader) = Some token
    /\ storedRole (token_uid token) = Returned (Some "admin")
    /\ r = handler {| authorization := authorization req;
                      user := Some {| uid := token_uid token;
                                      email := token_email token;
                                      role := "admin" |};
                      body := body req |}.
Proof.
  unfold post_uploads, run_route, authenticate, requireAdmin. split.
  - destruct (authorization req) as [h|]; [|discriminate].
    destruct (String.prefix "Bearer " h) eqn:Hp; [|discriminate].
    destruct (verifyIdToken (bearer_token h)) as [token|] eqn:Hv;
      [|discriminate].
    destruct (storedRole (token_uid token)) as [stored|] eqn:Hs;
      [|discriminate].
    cbn [user role].
    destruct (truthy stored) as [x|] eqn:Ht.
    + destruct (String.eqb_spec x "admin") as [->|Hne]; [|discriminate].
      intros [= <-]. apply truthy_Some in Ht. destruct Ht as [-> _].
      now exists h, token.
    + discriminate.
  - intros (h & token & -> & Hp & Hv & Hs & ->).
    rewrite Hp, Hv, Hs. reflexivity.
Qed.

End MoreAuthzFacts.

Lemma prefix_bearer_has_space (s : string) :
  String.prefix "Bearer " s = true -> In " "%char (chars s).
Proof.
  intros H.
  do 7 (destruct s as [|? s]; [discriminate H|];
        simpl in H;
        match type of H with
        | (if ?d then _ else _) = true =>
            destruct d; [subst|discriminate H]
        end).
  simpl. tauto.
Qed.

Lemma until_separator_no_space (s : string) :
  ~ In " "%char (chars s) -> until_separator "Bearer " s = s.
Proof.
  induction s as [|c s IH]; intros Hns.
  - reflexivity.
  - assert (Hp : String.prefix "Bearer " (String c s) = false).
    { destruct (String.prefix "Bearer " (String c s)) eqn:Hp; [|reflexivity].
      apply prefix_bearer_has_space in Hp. contradiction. }
    change (until_separator "Bearer " (String c s))
      with (if String.prefix "Bearer " (String c s) then ""
            else String c (until_separator "Bearer " s)).
    rewrite Hp, IH; [reflexivity|].
    intros H. apply Hns. now right.
Qed.

(** X16. The client's token reaches the verifier unchanged.  When the
    signed-in user has a non-empty token without a space, the header that
    apiClient sends makes authenticate hand exactly that token to the
    verifier, so the request passes when, and only when, the verifier
    accepts the token and the role can be read; a client without a token
    and without a header of its own is answered 401. *)
Theorem client_token_reaches_verifier (Body : Type)
    (verifyIdToken : string -> option DecodedToken)
    (storedRole : string -> outcome (option string))
    (custom : option string) (t : string) (b : Body) :
  t <> "" ->
  ~ In " "%char (chars t) ->
  let req := {| authorization := client_authorization custom (Some t);
                user := None; body := b |} in
  bearer_token ("Bearer " ++ t) = t
  /\ ((exists req', authenticate verifyIdToken storedRole req = Next req')
      <-> exists token stored,
            verifyIdToken t = Some token
            /\ storedRole (token_uid token) = Returned stored)
  /\ exists message,
       authenticate verifyIdToken storedRole
         {| authorization := client_authorization None None;
            user := None; body := b |}
       = Respond 401 message.
Proof.
  intros Hne Hns req.
  assert (Hb : bearer_token ("Bearer " ++ t) = t).
  { unfold bearer_token. simpl. now apply until_separator_no_space. }
  assert (Hc : client_authorization custom (Some t)
               = Some ("Bearer " ++ t)%string).
  { unfold client_authorization.
    now rewrite (proj2 (truthy_Some (Some t) t) (conj eq_refl Hne)). }
  split; [exact Hb|]. split.
  - subst req. unfold authenticate. cbn [authorization]. rewrite Hc.
    assert (Hp : String.prefix "Bearer " ("Bearer " ++ t) = true).
    { simpl. repeat (match goal with
                     | |- context [ascii_dec ?a ?a] =>
                         destruct (ascii_dec a a); [|congruence]
                     end; simpl).
      now destruct t. }
    rewrite Hp, Hb. split.
    + intros [req' H].
      destruct (verifyIdToken t) as [token|]; [|discriminate].
      destruct (storedRole (token_uid token)) as [stored|] eqn:Hs;
        [|discriminate].
      now exists token, stored.
    + intros (token & stored & -> & ->). eexists. reflexivity.
  - eexists. reflexivity.
Qed.

Lemma client_token_reaches_verifier_witness :
  bearer_token ("Bearer " ++ "good") = "good"
  /\ exists req',
       authenticate sample_verify sample_roles
         {| authorization := client_authorization None (Some "good");
            user := None; body := tt |}
       = Next req'.
Proof.
  assert (Hns : ~ In " "%char (chars "good")).
  { simpl. intros [H|[H|[H|[H|[]]]]]; discriminate H. }
  destruct (@client_token_reaches_verifier unit sample_verify sample_roles
              None "good" tt ltac:(discriminate) Hns) as (H1 & H2 & _).
  split; [exact H1|]. apply H2.
  exists {| token_uid := "u1"; token_email := None |}, None.
  split; reflexivity.
Defined.

(** X17. GET /auth/me behind authenticate never takes its own 401 branch:
    the route either stops in the middleware with 401, or the handler runs
    and answers 200 with the uid and email of the verified token and the
    stored role, viewer when none is stored. *)
Theorem me_reports_principal (Body : Type)
    (verifyIdToken : string -> option DecodedToken)
    (storedRole : string -> outcome (option string))
    (req : Request Body) :
  (exists message,
     get_auth_me verifyIdToken storedRole (@me_handler Body) req
     = Stopped 401 message)
  \/ (exists authHeader token stored,
        authorization req = Some authHeader
        /\ verifyIdToken (bearer_token authHeader) = Some token
        /\ storedRole (token_uid token) = Returned stored
        /\ get_auth_me verifyIdToken storedRole (@me_handler Body) req
           = Handled (200, Profile (token_uid token) (token_email token)
                             (match truthy stored with
                              | Some s => s
                              | None => "viewer"
                              end))).
Proof.
  unfold get_auth_me, run_route, authenticate.
  destruct (authorization req) as [h|]; [|left; eexists; reflexivity].
  destruct (String.prefix "Bearer " h); [|left; eexists; reflexivity].
  destruct (verifyIdToken (bearer_token h)) as [token|] eqn:Hv;
    [|left; eexists; reflexivity].
  destruct (storedRole (token_uid token)) as [stored|] eqn:Hs;
    [|left; eexists; reflexivity].
  right. exists h, token, stored. repeat split; assumption.
Qed.
(* ================================================================== *)
(** * More on the upload endpoint *)
(* ================================================================== *)

Section MoreUploadFacts.
Variable engine : list ReferralEvent -> outcome ReconciledMap.
Variables uploadId timestamp : string.

(** X18. What a successful upload writes and reports.  When the body is an
    array, or an object with an events array, the engine returns and no
    document reference of the batch throws, the handler hands the store two
    documents for the upload itself, one per raw event, duplicates
    included, and one per reconciled referral; the 200 response reports the
    number of raw events as processed and the number of referrals of the
    map as referrals. *)
Theorem upload_write_count (req : Request UploadBody)
    (rawEvents : list ReferralEvent) (reconciledMap : ReconciledMap) :
  body req = BodyArray rawEvents \/ body req = BodyWithEvents rawEvents ->
  engine rawEvents = Returned reconciledMap ->
  references_resolve uploadId rawEvents reconciledMap = true ->
  Z.of_nat (List.length (upload_writes engine uploadId timestamp true req))
  = 2 + Z.of_nat (List.length rawEvents)
    + Z.of_nat (List.length reconciledMap)
  /\ fst (upload_handler engine uploadId timestamp true req)
     = {| code := 200;
          reply := UploadProcessed uploadId
                     (Z.of_nat (List.length rawEvents))
                     (Z.of_nat (List.length reconciledMap))
                     (getDerivedMetrics reconciledMap) |}.
Proof.
  intros Hb He Hres.
  destruct (upload_handler_returned engine uploadId timestamp true req Hb He
              Hres) as [H1 H2].
  cbv zeta in *. unfold upload_writes.
  assert (Hk : List.length (keys reconciledMap) = List.length reconciledMap).
  { unfold keys. rewrite length_map.
    apply Permutation_length, entries_perm. }
  assert (He' : List.length (entries reconciledMap)
                = List.length reconciledMap)
    by apply Permutation_length, entries_perm.
  split.
  - rewrite H2. unfold upload_operations.
    rewrite !length_app, !length_map, He'. cbn [List.length]. lia.
  - rewrite H1, Hk. reflexivity.
Qed.

(** X19. Failures ahead of the writer leave nothing written.  The handler
    answers 400 exactly when the body is neither an array nor an object
    with an events array, and then, as when the engine throws (answered
    500), no batch reaches the store; with commits that resolve, a 500
    comes from the engine or from a document reference that throws. *)
Theorem upload_failures_write_nothing (commits_resolve : bool)
    (req : Request UploadBody) :
  let result :=
    upload_handler engine uploadId timestamp commits_resolve req in
  (code (fst result) = 400 <-> body req = BodyOther)
  /\ (code (fst result) = 400 -> snd result = [])
  /\ (forall rawEvents e,
        body req = BodyArray rawEvents \/ body req = BodyWithEvents rawEvents ->
        engine rawEvents = Raised e ->
        code (fst result) = 500 /\ snd result = [])
  /\ (code (fst result) = 500 -> commits_resolve = true ->
      exists rawEvents,
        (body req = BodyArray rawEvents
         \/ body req = BodyWithEvents rawEvents)
        /\ ((exists e, engine rawEvents = Raised e)
            \/ exists reconciledMap,
                 engine rawEvents = Returned reconciledMap
                 /\ references_resolve uploadId rawEvents reconciledMap
                    = false)).
Proof.
  cbv zeta.
  assert (Hcode : forall rawEvents,
            body req = BodyArray rawEvents
            \/ body req = BodyWithEvents rawEvents ->
            (code (fst (upload_handler engine uploadId timestamp
                          commits_resolve req)) = 400 -> False)
            /\ (forall e, engine rawEvents = Raised e ->
                upload_handler engine uploadId timestamp commits_resolve req
                = ({| code := 500; reply := InternalServerError |}, []))).
  { intros rawEvents Hb. unfold upload_handler.
    assert (Hn : match body req with
                 | BodyArray inputEvents => Some inputEvents
                 | BodyWithEvents inputEvents => Some inputEvents
                 | BodyOther => None
                 end = Some rawEvents)
      by (destruct Hb as [-> | ->]; reflexivity).
    rewrite Hn. split.
    - destruct (engine rawEvents) as [m|e]; [|discriminate].
      destruct (enqueue_each _ _) as [ws [|]]; [discriminate|].
      destruct (Firestore.commit ws) as [[w store] awaited].
      destruct commits_resolve; discriminate.
    - intros e ->. reflexivity. }
  assert (Hother : body req = BodyOther ->
            upload_handler engine uploadId timestamp commits_resolve req
            = ({| code := 400; reply := InvalidInput |}, [])).
  { intros Hb. unfold upload_handler. now rewrite Hb. }
  assert (Hshape : body req = BodyOther
                   \/ exists rawEvents,
                        body req = BodyArray rawEvents
                        \/ body req = BodyWithEvents rawEvents).
  { destruct (body req) as [raw|raw|];
      [right; exists raw; now left|right; exists raw; now right|now left]. }
  split; [|split; [|split]].
  - split.
    + intros H400. destruct Hshape as [Hb|(raw & Hb)]; [exact Hb|].
      destruct (Hcode raw Hb) as [Hno _]. now destruct (Hno H400).
    + intros Hb. now rewrite (Hother Hb).
  - intros H400. destruct Hshape as [Hb|(raw & Hb)].
    + now rewrite (Hother Hb).
    + destruct (Hcode raw Hb) as [Hno _]. now destruct (Hno H400).
  - intros rawEvents e Hb He. destruct (Hcode rawEvents Hb) as [_ H].
    now rewrite (H e He).
  - intros H500 ->. destruct Hshape as [Hb|(raw & Hb)].
    + rewrite (Hother Hb) in H500. discriminate.
    + exists raw. split; [exact Hb|].
      destruct (engine raw) as [m|e] eqn:He; [right|left; now exists e].
      exists m. split; [reflexivity|].
      destruct (references_resolve uploadId raw m) eqn:Hres; [|reflexivity].
      destruct (upload_handler_returned engine uploadId timestamp true req
                  Hb He Hres) as [H1 _].
      cbv zeta in H1. rewrite H1 in H500. discriminate.
Qed.

(** X20. A reference that throws ends the upload where it stands.  When
    the engine returns and the reference of a raw event throws after the
    references before it resolved, the handler answers 500; of the writes
    issued before that event (two for the upload and one per earlier
    event), all but the last n mod 400 have already been handed to the
    store, in batches of 400, and the rest are dropped.  So nothing is
    written when fewer than 398 events precede the failing one, and an
    upload that fails later is left partly written. *)
Theorem failed_reference_keeps_full_batches (commits_resolve : bool)
    (req : Request UploadBody)
    (good rest : list ReferralEvent) (bad : ReferralEvent)
    (reconciledMap : ReconciledMap) :
  body req = BodyArray (good ++ bad :: rest)
  \/ body req = BodyWithEvents (good ++ bad :: rest) ->
  engine (good ++ bad :: rest) = Returned reconciledMap ->
  returns (upload_ref uploadId) = true ->
  returns (metrics_ref uploadId) = true ->
  forallb (fun event => returns (event_ref event)) good = true ->
  returns (event_ref bad) = false ->
  let result :=
    upload_handler engine uploadId timestamp commits_resolve req in
  let issued :=
    firstn (2 + List.length good)
      (upload_operations uploadId timestamp (good ++ bad :: rest)
         reconciledMap) in
  code (fst result) = 500
  /\ (exists dropped,
        List.concat (snd result) ++ dropped = issued
        /\ Z.of_nat (List.length dropped)
           = (2 + Z.of_nat (List.length good)) mod 400)
  /\ Forall (fun b => List.length b = 400%nat) (snd result)
  /\ ((List.length good < 398)%nat -> snd result = []).
Proof.
  intros Hb He Hu Hm Hgood Hbad result issued.
  set (rawEvents := (good ++ bad :: rest)%list) in *.
  set (first_two :=
         [ Firestore.OpSet
             (Firestore.append ["organizations"; "default"; "uploads"]
                uploadId)
             (UploadDoc uploadId timestamp
                (Z.of_nat (List.length rawEvents))
                (Z.of_nat (List.length (keys reconciledMap))) "COMPLETED"
                (getDerivedMetrics reconciledMap));
           Firestore.OpSet
             (Firestore.append ["organizations"; "default"; "metrics"]
                uploadId)
             (MetricsDoc (getDerivedMetrics reconciledMap) timestamp
                uploadId) ]).
  assert (Hissued : issued
                    = (first_two
                       ++ map (event_write uploadId timestamp) good)%list).
  { subst issued.
    replace (upload_operations uploadId timestamp rawEvents reconciledMap)
      with ((first_two ++ map (event_write uploadId timestamp) good)
            ++ (map (event_write uploadId timestamp) (bad :: rest)
                ++ map (referral_write uploadId timestamp)
                     (entries reconciledMap)))%list
      by (unfold upload_operations; fold first_two; subst rawEvents;
          rewrite map_app, <- !app_assoc; reflexivity).
    rewrite firstn_app.
    assert (Hl : List.length
                   (first_two ++ map (event_write uploadId timestamp) good)
                 = (2 + List.length good)%nat)
      by (rewrite length_app, length_map; reflexivity).
    rewrite Hl, Nat.sub_diag, firstn_O, app_nil_r.
    apply firstn_all2. rewrite Hl. apply Nat.le_refl. }
  assert (Hrun : result
                 = ({| code := 500; reply := InternalServerError |},
                    snd (fold_left (@Firestore.enqueue DocRef Document)
                           issued
                           (Firestore.new_writer DocRef Document, [])))).
  { subst result. unfold upload_handler.
    assert (Hn : match body req with
                 | BodyArray inputEvents => Some inputEvents
                 | BodyWithEvents inputEvents => Some inputEvents
                 | BodyOther => None
                 end = Some rawEvents)
      by (destruct Hb as [-> | ->]; reflexivity).
    rewrite Hn, He.
    unfold upload_ref, metrics_ref in *.
    destruct (document_in_doc uploadId) as (Eu & Em & _).
    rewrite Eu in *. rewrite Em in *.
    rewrite (doc_returned _ _ Hu), (doc_returned _ _ Hm).
    unfold set_at at 1 2. cbn [and_then]. fold first_two.
    assert (Hbad' : exists e, set_event uploadId timestamp bad = Raised e).
    { unfold set_event, set_at.
      destruct (event_ref bad) as [r|e]; [discriminate|]. now exists e. }
    destruct Hbad' as (e & Hbad').
    rewrite forallb_forall in Hgood.
    match goal with
    | |- context [enqueue_each ?steps _] =>
        replace steps
          with (map Returned issued
                ++ Raised e
                   :: map (set_event uploadId timestamp) rest
                      ++ map (set_referral uploadId timestamp)
                           (entries reconciledMap))%list
    end.
    - now rewrite enqueue_each_raised.
    - rewrite Hissued. subst rawEvents.
      rewrite !map_app. cbn [map]. rewrite Hbad'.
      rewrite (map_resolved (set_event uploadId timestamp)
                 (event_write uploadId timestamp) good)
        by (intros x Hx; apply set_event_resolved; now apply Hgood).
      cbn [app]. rewrite <- !app_assoc. reflexivity. }
  rewrite Hrun. cbn [fst snd code].
  pose proof (writer_inv_enqueued issued) as Hinv.
  destruct (fold_left (@Firestore.enqueue DocRef Document) issued
              (Firestore.new_writer DocRef Document, []))
    as [[b c p] store].
  unfold writer_inv in Hinv.
  cbn [Firestore.batch Firestore.count Firestore.promises] in Hinv.
  destruct Hinv as (Hops & Hc & Hlt & Hfull & _). cbn [snd].
  assert (Hlen : Z.of_nat (List.length issued)
                 = 2 + Z.of_nat (List.length good)).
  { rewrite Hissued, length_app, length_map. subst first_two.
    cbn [List.length]. lia. }
  assert (Hsplit : Z.of_nat (List.length issued)
                   = 400 * Z.of_nat (List.length store)
                     + Z.of_nat (List.length b)).
  { rewrite <- Hops, length_app, Nat2Z.inj_add,
      (full_batches_length Hfull). reflexivity. }
  unfold Firestore.MAX_BATCH_SIZE in Hlt.
  split; [reflexivity|]. split; [|split].
  - exists b. split; [exact Hops|].
    rewrite <- Hlen, Hsplit.
    apply (Z.mod_unique_pos _ _ (Z.of_nat (List.length store))); lia.
  - exact Hfull.
  - intros Hshort. destruct store as [|b0 store]; [reflexivity|].
    cbn [List.length] in Hsplit. lia.
Qed.

End MoreUploadFacts.

Lemma upload_write_count_witness :
  Z.of_nat
    (List.length
       (upload_writes (reconcile sample_parseISO) "upload-1"
          "2024-12-24T00:00:00.000Z" true two_referrals_upload))
  = 2 + 7 + 2.
Proof.
  destruct (@upload_write_count (reconcile sample_parseISO) "upload-1"
              "2024-12-24T00:00:00.000Z" two_referrals_upload
              (reschedule_sample ++ two_appointments_sample) _
              (or_introl eq_refl) eq_refl eq_refl) as [H _].
  exact H.
Defined.

Lemma upload_failures_write_nothing_witness :
  let result :=
    upload_handler (reconcile sample_parseISO) "upload-1"
      "2024-12-24T00:00:00.000Z" true
      {| authorization := None; user := None;
         body := BodyArray [inherited_name_event] |} in
  code (fst result) = 500 /\ snd result = [].
Proof.
  intros result.
  destruct (@upload_failures_write_nothing (reconcile sample_parseISO)
              "upload-1" "2024-12-24T00:00:00.000Z" true
              {| authorization := None; user := None;
                 body := BodyArray [inherited_name_event] |})
    as (_ & _ & H & _).
  apply (H [inherited_name_event] TypeError); [now left|reflexivity].
Defined.

(** An event with an empty referral_id after 398 events of one referral:
    the first batch of 400 documents is in the store when the reference
    throws, and the answer is 500. *)
Lemma failed_reference_keeps_full_batches_witness :
  let result :=
    upload_handler (reconcile sample_parseISO) "upload-1"
      "2024-12-24T00:00:00.000Z" true
      {| authorization := None; user := None;
         body := BodyArray (long_sample ++ [unnamed_event]) |} in
  code (fst result) = 500
  /\ map (@List.length _) (snd result) = [400%nat].
Proof.
  intros result.
  destruct (reconcile sample_parseISO (long_sample ++ [unnamed_event]))
    as [m|e] eqn:Hm; [|vm_compute in Hm; discriminate Hm].
  destruct (@failed_reference_keeps_full_batches
              (reconcile sample_parseISO) "upload-1"
              "2024-12-24T00:00:00.000Z" true
              {| authorization := None; user := None;
                 body := BodyArray (long_sample ++ [unnamed_event]) |}
              long_sample [] unnamed_event m
              (or_introl eq_refl) Hm eq_refl eq_refl eq_refl eq_refl)
    as (Hcode & _).
  split; [exact Hcode|vm_compute; reflexivity].
Defined.
(* ================================================================== *)
(** * Documents and their ids *)
(* ================================================================== *)

Lemma same_ref_true (a b : DocRef) : same_ref a b = true <-> a = b.
Proof.
  unfold same_ref. destruct (list_eq_dec string_dec a b); split;
    congruence.
Qed.

Lemma filter_none {A : Type} (f : A -> bool) (l : list A) :
  (forall x, In x l -> f x = false) -> filter f l = [].
Proof.
  induction l as [|x l IH]; intros H; [reflexivity|].
  simpl. rewrite (H x (or_introl eq_refl)). apply IH.
  intros y Hy. apply H. now right.
Qed.

Lemma filter_key_unique {V : Type} (l : props V) (k : string) (v : V) :
  NoDup (map fst l) -> In (k, v) l ->
  filter (fun kv => String.eqb (fst kv) k) l = [(k, v)].
Proof.
  induction l as [|[k' v'] l IH]; intros Hnd Hin; [destruct Hin|].
  inversion Hnd as [|? ? Hnin Hnd']; subst. simpl.
  destruct Hin as [[= -> ->]|Hin].
  - rewrite String.eqb_refl. f_equal. apply filter_none.
    intros [k2 v2] H2. simpl. apply String.eqb_neq. intros ->.
    apply Hnin. now apply (in_map fst) in H2.
  - destruct (String.eqb_spec k' k) as [->|Hne].
    + exfalso. apply Hnin. now apply (in_map fst) in Hin.
    + now apply IH.
Qed.

(** ** Plain ids *)

Lemma split_slash_plain (s : string) :
  forallb (fun c => negb (Ascii.eqb c "/")) (chars s) = true ->
  Firestore.split_slash s = [s].
Proof.
  induction s as [|c s IH]; intros H; [reflexivity|].
  cbn [chars forallb] in H. apply andb_prop in H. destruct H as [Hc Hs].
  cbn [Firestore.split_slash].
  destruct (Ascii.eqb c "/"); [discriminate|]. now rewrite (IH Hs).
Qed.

Lemma has_double_slash_plain (s : string) :
  forallb (fun c => negb (Ascii.eqb c "/")) (chars s) = true ->
  Firestore.has_double_slash s = false.
Proof.
  induction s as [|a s IH]; intros H; [reflexivity|].
  cbn [chars forallb] in H. apply andb_prop in H. destruct H as [Ha Hs].
  destruct s as [|b s]; [reflexivity|].
  change (Firestore.has_double_slash (String a (String b s)))
    with ((Ascii.eqb a "/" && Ascii.eqb b "/")
          || Firestore.has_double_slash (String b s)).
  rewrite (IH Hs). destruct (Ascii.eqb a "/"); [discriminate|reflexivity].
Qed.

Lemma plain_id_path (id : string) :
  plain_id id = true ->
  Firestore.valid_resource_path id = true
  /\ forall path, Firestore.append path id = (path ++ [id])%list.
Proof.
  unfold plain_id. intros H. apply andb_prop in H. destruct H as [Hne Hs].
  split.
  - unfold Firestore.valid_resource_path.
    now rewrite Hne, (has_double_slash_plain id Hs).
  - intros path. unfold Firestore.append, Firestore.segments.
    rewrite (split_slash_plain id Hs). cbn [filter]. now rewrite Hne.
Qed.

Lemma doc_plain (parent : Firestore.Path) (id : string) :
  plain_id id = true ->
  Firestore.doc parent id
  = if Firestore.is_document (parent ++ [id])
    then Returned (parent ++ [id])%list else Raised Error.
Proof.
  intros H. destruct (plain_id_path id H) as [Hv Ha].
  unfold Firestore.doc. now rewrite Hv, Ha.
Qed.

Lemma referral_ref_plain (rid : string) :
  plain_id rid = true ->
  referral_ref rid = Returned (referral_document rid)
  /\ Firestore.append ["organizations"; "default"; "referrals"] rid
     = referral_document rid.
Proof.
  intros H. destruct (plain_id_path rid H) as [Hv Ha].
  unfold referral_ref.
  destruct (document_in_doc rid) as (_ & _ & ->).
  rewrite (doc_plain _ rid H), Ha. now split.
Qed.

(** ** Decimal numerals *)

Lemma chars_app (a b : string) :
  chars (a ++ b)%string = (chars a ++ chars b)%list.
Proof. induction a as [|c a IH]; [reflexivity|]. simpl. now rewrite IH. Qed.

Lemma uint_no_slash (d : Decimal.uint) :
  forallb (fun c => negb (Ascii.eqb c "/")) (chars (NilEmpty.string_of_uint d))
  = true.
Proof. induction d; simpl; auto. Qed.

Lemma decimal_no_slash (n : Z) :
  forallb (fun c => negb (Ascii.eqb c "/")) (chars (JsNumber.decimal n))
  = true.
Proof.
  unfold JsNumber.decimal, NilZero.string_of_int, NilZero.string_of_uint.
  destruct (Z.to_int n) as [d|d].
  - destruct d; try apply uint_no_slash. reflexivity.
  - cbn [chars forallb]. rewrite andb_true_l.
    destruct d; try apply uint_no_slash. reflexivity.
Qed.

Lemma decimal_inj (a b : Z) :
  JsNumber.decimal a = JsNumber.decimal b -> a = b.
Proof.
  unfold JsNumber.decimal. intros H.
  apply DecimalZ.to_int_inj.
  assert (Hnn : forall z, Z.to_int z <> Decimal.Pos Decimal.Nil
                          /\ Z.to_int z <> Decimal.Neg Decimal.Nil).
  { intros [|p|p]; simpl; split; try discriminate;
      intros [= E]; now apply (DecimalPos.Unsigned.to_uint_nonnil p). }
  assert (Hs : Some (Z.to_int a) = Some (Z.to_int b)).
  { rewrite <- (NilZero.isi (Z.to_int a)), <- (NilZero.isi (Z.to_int b));
      try apply Hnn. now rewrite H. }
  now injection Hs.
Qed.

Lemma append_inv_head (p s1 s2 : string) :
  (p ++ s1)%string = (p ++ s2)%string -> s1 = s2.
Proof.
  induction p as [|c p IH]; simpl; intros H; [exact H|].
  injection H as H. now apply IH.
Qed.

Lemma number_to_string_safe (n : Z) :
  safe_integer n = true -> number_to_string n = JsNumber.decimal n.
Proof.
  unfold safe_integer, number_to_string, JsNumber.to_string.
  now intros ->.
Qed.

(** The reference of an event with a plain referral id and a safe seq. *)
Lemma event_ref_plain (event : ReferralEvent) :
  plain_id (referral_id event) = true ->
  safe_integer (seq event) = true ->
  event_ref event
  = Returned (event_document (referral_id event) (seq event))
  /\ forall uploadId timestamp,
       op_ref (event_write uploadId timestamp event)
       = event_document (referral_id event) (seq event).
Proof.
  intros Hp Hs.
  destruct (plain_id_path (referral_id event) Hp) as [Hv Ha].
  assert (Hid : plain_id (event_id event) = true).
  { unfold plain_id, event_id. rewrite (number_to_string_safe _ Hs).
    apply andb_true_intro. split.
    - destruct (referral_id event); reflexivity.
    - rewrite !chars_app, !forallb_app, decimal_no_slash.
      unfold plain_id in Hp. apply andb_prop in Hp. destruct Hp as [_ ->].
      reflexivity. }
  destruct (plain_id_path (event_id event) Hid) as [Hv' Ha'].
  assert (He : event_id event
               = (referral_id event ++ "_"
                  ++ JsNumber.decimal (seq event))%string).
  { unfold event_id. now rewrite (number_to_string_safe _ Hs). }
  split.
  - unfold event_ref.
    destruct (document_in_doc (referral_id event)) as (_ & _ & ->).
    rewrite (doc_plain _ (referral_id event) Hp).
    change (Firestore.is_document
              (["organizations"; "default"; "referrals"]
               ++ [referral_id event])) with true.
    cbv iota. cbn [and_then].
    change (Firestore.collection
              (["organizations"; "default"; "referrals"]
               ++ [referral_id event]) "events")
      with (Returned (A := Firestore.Path)
              ["organizations"; "default"; "referrals"; referral_id event;
               "events"]).
    cbn [and_then]. rewrite (doc_plain _ (event_id event) Hid), He.
    reflexivity.
  - intros uploadId timestamp. unfold event_write. cbn [op_ref].
    rewrite Ha, Ha', He. reflexivity.
Qed.

(* ================================================================== *)
(** * One write per read model *)
(* ================================================================== *)

Lemma doc_inv (parent r : Firestore.Path) (documentPath : string) :
  Firestore.doc parent documentPath = Returned r ->
  r = Firestore.append parent documentPath
  /\ Firestore.is_document r = true.
Proof.
  unfold Firestore.doc.
  destruct (Firestore.valid_resource_path documentPath); [|discriminate].
  cbv zeta.
  destruct (Firestore.is_document (Firestore.append parent documentPath))
    eqn:Hd; [|discriminate].
  intros [= <-]. now split.
Qed.

(** The reference of an event that resolved has at least five segments:
    more than the four of the document of a referral. *)
Lemma event_write_deep (uploadId timestamp : string)
    (event : ReferralEvent) :
  returns (event_ref event) = true ->
  (5 <= List.length (op_ref (event_write uploadId timestamp event)))%nat.
Proof.
  intros H. unfold event_write. cbn [op_ref].
  unfold event_ref in H.
  destruct (document_in_doc (referral_id event)) as (_ & _ & E).
  rewrite E in H.
  destruct (Firestore.doc ["organizations"; "default"; "referrals"]
              (referral_id event)) as [r|e] eqn:Hd; [|discriminate H].
  apply doc_inv in Hd. destruct Hd as [-> Hd]. clear H E.
  unfold Firestore.is_document in Hd.
  unfold Firestore.append in *.
  rewrite !length_app in *. cbn [List.length] in *.
  destruct (Firestore.segments (referral_id event)) as [|s l].
  - discriminate Hd.
  - cbn [List.length]. lia.
Qed.

Section OneWritePerReferral.
Variables uploadId timestamp : string.

(** X21. Each read model is written once.  In an upload on which the
    engine returns a map with pairwise distinct keys, all of them plain ids
    (not empty and without a slash), and no document reference throws, the
    only operation aimed at the document of a reconciled referral is the
    one that sets it to the reconciled state of that referral, stamped with
    this upload: no event document and no upload or metrics document shares
    its reference. *)
Theorem referral_document_written_once
    (engine : list ReferralEvent -> outcome ReconciledMap)
    (commits_resolve : bool)
    (req : Request UploadBody) (rawEvents : list ReferralEvent)
    (m : ReconciledMap) (rid : string) (st : ReferralState) :
  body req = BodyArray rawEvents \/ body req = BodyWithEvents rawEvents ->
  engine rawEvents = Returned m ->
  references_resolve uploadId rawEvents m = true ->
  NoDup (map fst m) ->
  forallb plain_id (keys m) = true ->
  own_get rid m = Some st ->
  filter (fun op => same_ref (op_ref op) (referral_document rid))
    (upload_writes engine uploadId timestamp commits_resolve req)
  = [ Firestore.OpSet (referral_document rid)
        (ReferralDoc st timestamp uploadId) ].
Proof.
  intros Hb Hm Hres Hnd Hplain Hg. unfold upload_writes.
  destruct (upload_handler_returned engine uploadId timestamp
              commits_resolve req Hb Hm Hres) as [_ H2].
  cbv zeta in H2. rewrite H2. unfold upload_operations.
  assert (Hev : forallb (fun event => returns (event_ref event)) rawEvents
                = true).
  { unfold references_resolve in Hres.
    apply andb_prop in Hres. destruct Hres as [Hres _].
    apply andb_prop in Hres. now destruct Hres as [_ Hres]. }
  rewrite forallb_forall in Hev, Hplain.
  rewrite !filter_app.
  rewrite (filter_none _ (map (event_write uploadId timestamp) rawEvents)).
  2:{ intros op Hop. apply in_map_iff in Hop. destruct Hop as (e & <- & He).
      destruct (same_ref _ _) eqn:Hs; [|reflexivity].
      apply same_ref_true in Hs.
      pose proof (event_write_deep uploadId timestamp e (Hev e He)) as Hl.
      rewrite Hs in Hl. cbn [referral_document List.length] in Hl. lia. }
  assert (H0 : forall a b : Firestore.Op DocRef Document,
             same_ref (op_ref a) (referral_document rid) = false ->
             same_ref (op_ref b) (referral_document rid) = false ->
             filter (fun op => same_ref (op_ref op) (referral_document rid))
               [a; b] = []).
  { intros a b Ha Hb'. simpl. now rewrite Ha, Hb'. }
  rewrite H0.
  2,3: destruct (same_ref _ _) eqn:Hs; [|reflexivity];
       apply same_ref_true in Hs; cbn [op_ref] in Hs;
       unfold Firestore.append in Hs; discriminate Hs.
  cbn [app].
  assert (Hf : forall l : props ReferralState,
             (forall kv, In kv l -> plain_id (fst kv) = true) ->
             filter (fun op => same_ref (op_ref op) (referral_document rid))
               (map (referral_write uploadId timestamp) l)
             = map (referral_write uploadId timestamp)
                 (filter (fun kv => String.eqb (fst kv) rid) l)).
  { induction l as [|[k v] l IH]; intros Hl; [reflexivity|].
    cbn [map filter fst].
    rewrite IH by (intros kv Hkv; apply Hl; now right).
    destruct (referral_ref_plain k (Hl (k, v) (or_introl eq_refl)))
      as [_ Hk].
    unfold referral_write at 1. cbn [op_ref fst]. rewrite Hk.
    destruct (String.eqb_spec k rid) as [->|Hne].
    - rewrite (proj2 (same_ref_true _ _) eq_refl). reflexivity.
    - destruct (same_ref _ _) eqn:Hs; [|reflexivity].
      apply same_ref_true in Hs. injection Hs as Hs. contradiction. }
  rewrite Hf.
  2:{ intros kv Hkv. apply Hplain. unfold keys. now apply in_map. }
  rewrite (@filter_key_unique _ (entries m) rid st).
  - cbn [map]. unfold referral_write. cbn [fst snd].
    assert (Hrid : plain_id rid = true).
    { apply Hplain. unfold keys.
      apply (in_map fst (entries m) (rid, st)).
      apply (Permutation_in _ (Permutation_sym (entries_perm m))).
      now apply own_get_In. }
    destruct (referral_ref_plain rid Hrid) as [_ ->]. reflexivity.
  - now apply entries_NoDup.
  - apply (Permutation_in _ (Permutation_sym (entries_perm m))).
    now apply own_get_In.
Qed.

End OneWritePerReferral.

Lemma referral_document_written_once_witness :
  let st := reconcile_referral sample_parseISO "R4"
              two_appointments_sample in
  filter (fun op => same_ref (op_ref op) (referral_document "R4"))
    (upload_writes (reconcile sample_parseISO) "upload-1"
       "2024-12-24T00:00:00.000Z" true two_referrals_upload)
  = [ Firestore.OpSet (referral_document "R4")
        (ReferralDoc st "2024-12-24T00:00:00.000Z" "upload-1") ].
Proof.
  intros st.
  apply (@referral_document_written_once "upload-1"
           "2024-12-24T00:00:00.000Z" (reconcile sample_parseISO) true
           two_referrals_upload
           (reschedule_sample ++ two_appointments_sample)
           [ ("R3", reconcile_referral sample_parseISO "R3" reschedule_sample);
             ("R4", st) ]
           "R4" st (or_introl eq_refl)); try reflexivity.
  repeat constructor; simpl; intuition discriminate.
Defined.

(* ================================================================== *)
(** * Event documents *)
(* ================================================================== *)

(** X22. Event documents are keyed by (referral_id, seq).  For events whose
    referral_id is a plain id (not empty and without a slash) and whose seq
    is a safe integer, the reference of the event resolves to the document
    referrals/{referral_id}/events/{referral_id}_{seq}, and two event
    writes, of the same upload or of different ones, are aimed at the same
    document exactly when the events agree on referral_id and seq: events
    with different keys never overwrite each other, and a duplicate, or a
    re-upload of an event, lands on the document of the original. *)
Theorem event_documents_keyed_by_id_and_seq
    (uploadId timestamp uploadId' timestamp' : string)
    (e1 e2 : ReferralEvent) :
  plain_id (referral_id e1) = true -> safe_integer (seq e1) = true ->
  plain_id (referral_id e2) = true -> safe_integer (seq e2) = true ->
  event_ref e1 = Returned (event_document (referral_id e1) (seq e1))
  /\ event_ref e2 = Returned (event_document (referral_id e2) (seq e2))
  /\ (op_ref (event_write uploadId timestamp e1)
      = op_ref (event_write uploadId' timestamp' e2)
      <-> referral_id e1 = referral_id e2 /\ seq e1 = seq e2).
Proof.
  intros Hp1 Hs1 Hp2 Hs2.
  destruct (event_ref_plain e1 Hp1 Hs1) as [Hr1 Hw1].
  destruct (event_ref_plain e2 Hp2 Hs2) as [Hr2 Hw2].
  split; [exact Hr1|]. split; [exact Hr2|].
  rewrite Hw1, Hw2. unfold event_document. split.
  - intros H. injection H as Hr Hid. split; [exact Hr|].
    rewrite Hr in Hid. apply append_inv_head in Hid.
    injection Hid as Hid. now apply decimal_inj.
  - intros [-> ->]. reflexivity.
Qed.

(** Two events of Scenario 3 and a duplicate of the first. *)
Lemma event_documents_keyed_by_id_and_seq_witness :
  event_ref (status_update "R3" 1 "SCHEDULED")
  = Returned ["organizations"; "default"; "referrals"; "R3"; "events";
              "R3_1"]
  /\ op_ref (event_write "upload-1" "2024-12-24T00:00:00.000Z"
               (status_update "R3" 1 "SCHEDULED"))
     = op_ref (event_write "upload-2" "2024-12-25T00:00:00.000Z"
                 (status_update "R3" 1 "SENT"))
  /\ op_ref (event_write "upload-1" "2024-12-24T00:00:00.000Z"
               (status_update "R3" 1 "SCHEDULED"))
     <> op_ref (event_write "upload-1" "2024-12-24T00:00:00.000Z"
                  (appointment_set "R3" 2 "A" "2025-03-01T09:00:00Z")).
Proof.
  destruct (@event_documents_keyed_by_id_and_seq "upload-1"
              "2024-12-24T00:00:00.000Z" "upload-2"
              "2024-12-25T00:00:00.000Z"
              (status_update "R3" 1 "SCHEDULED")
              (status_update "R3" 1 "SENT")
              eq_refl eq_refl eq_refl eq_refl) as (H1 & _ & H2).
  destruct (@event_documents_keyed_by_id_and_seq "upload-1"
              "2024-12-24T00:00:00.000Z" "upload-1"
              "2024-12-24T00:00:00.000Z"
              (status_update "R3" 1 "SCHEDULED")
              (appointment_set "R3" 2 "A" "2025-03-01T09:00:00Z")
              eq_refl eq_refl eq_refl eq_refl) as (_ & _ & H3).
  split; [exact H1|]. split.
  - apply H2. now split.
  - intros H. apply H3 in H. destruct H as [_ H]. discriminate H.
Defined.

(* ================================================================== *)
(** * Metrics over what reconcile returns, and in the provider *)
(* ================================================================== *)

Lemma own_get_values {V : Type} (m : props V) (v : V) :
  NoDup (map fst m) ->
  (In v (values m) <-> exists k, own_get k m = Some v).
Proof.
  intros Hnd. rewrite values_In, in_map_iff. split.
  - intros ([k v'] & Hs & Hin). simpl in Hs. subst v'.
    exists k. now apply own_get_In.
  - intros (k & Hk). exists (k, v). split; [reflexivity|].
    now apply own_get_In.
Qed.

Lemma count_where_ext (p q : ReferralState -> bool) (l : list ReferralState) :
  (forall r, In r l -> p r = q r) -> count_where p l = count_where q l.
Proof.
  intros H. unfold count_where. f_equal. f_equal.
  induction l as [|r l IH]; [reflexivity|]. simpl.
  rewrite (H r (or_introl eq_refl)), IH; [reflexivity|].
  intros x Hx. apply H. now right.
Qed.

(** X23. On what reconcile returns, a referral with an active appointment
    is never COMPLETED or CANCELLED, so scheduled is simply the number of
    referrals with a non-null active_appointment and noAppointment the
    number of non-terminal referrals without one. *)
Theorem scheduled_counts_active (parseISO : string -> option Z)
    (E : list ReferralEvent) (m : ReconciledMap) :
  reconcile parseISO E = Returned m ->
  (forall st, In st (values m) -> has_active st = true ->
              in_progress st = true)
  /\ scheduled (getDerivedMetrics m) = count_where has_active (values m)
  /\ completed (getDerivedMetrics m) + cancelled (getDerivedMetrics m)
     = count_where is_terminal (values m).
Proof.
  intros Hr.
  assert (Hnd : NoDup (map fst m)).
  { destruct (names_inherited E) eqn:Hn.
    - rewrite (reconcile_raises parseISO E Hn) in Hr. discriminate.
    - destruct (reconcile_returns parseISO E Hn) as (m' & Hr' & Hnd & _).
      rewrite Hr in Hr'. now injection Hr' as <-. }
  assert (Hterm : forall st, is_terminal st
                             = is_completed st || is_cancelled st).
  { intros st. unfold is_terminal, includes, is_completed, is_cancelled.
    simpl. now rewrite orb_false_r. }
  assert (Hact : forall st, In st (values m) -> has_active st = true ->
                            in_progress st = true).
  { intros st Hin Ha. apply (own_get_values m st Hnd) in Hin.
    destruct Hin as (rid & Hg).
    destruct (reconcile_lookup _ _ _ Hr Hg) as [_ Hst].
    pose proof (reconcile_referral_active parseISO rid (events_of rid E))
      as Hx. cbv zeta in Hx. rewrite <- Hst in Hx.
    unfold has_active in Ha. rewrite Hx in Ha.
    destruct (is_terminal st) eqn:Ht; [discriminate|].
    rewrite Hterm in Ht. apply orb_false_iff in Ht. unfold in_progress.
    destruct Ht as [-> ->]. reflexivity. }
  destruct (derived_metrics_counts m) as (_ & H2 & H3 & _ & H4 & _).
  cbv zeta in *. split; [exact Hact|]. split.
  - rewrite H4. apply count_where_ext. intros r Hin.
    destruct (has_active r) eqn:Ha; [|apply andb_false_r].
    rewrite (Hact r Hin Ha). reflexivity.
  - rewrite H2, H3. generalize (values m). intros l.
    induction l as [|r l IH]; [reflexivity|].
    rewrite !count_where_cons, Hterm.
    unfold is_completed, is_cancelled in *.
    destruct (String.eqb_spec (status r) "COMPLETED") as [Hc|Hc];
      destruct (String.eqb_spec (status r) "CANCELLED") as [Hx|Hx];
      cbn [orb]; try lia.
    rewrite Hc in Hx. discriminate.
Qed.

Lemma scheduled_counts_active_witness :
  exists m,
    reconcile sample_parseISO two_appointments_sample = Returned m
    /\ scheduled (getDerivedMetrics m) = 1.
Proof.
  eexists. split; [reflexivity|].
  destruct (@scheduled_counts_active sample_parseISO two_appointments_sample
              _ eq_refl) as (_ & H & _).
  exact H.
Defined.

Lemma own_set_new {V : Type} (k : string) (v : V) (o : props V) :
  ~ In k (map fst o) -> own_set k v o = o ++ [(k, v)].
Proof.
  induction o as [|[k' v'] o IH]; intros H; [reflexivity|].
  simpl in *. destruct (String.eqb_spec k k') as [->|Hne].
  - exfalso. apply H. now left.
  - rewrite IH; [reflexivity|]. intros Hin. apply H. now right.
Qed.

Lemma provider_fold (referrals : list ReferralState) (acc : ReconciledMap) :
  NoDup (map fst acc ++ map st_referral_id (keyed referrals)) ->
  fold_left provider_assign referrals acc
  = acc ++ map (fun r => (st_referral_id r, r)) (keyed referrals).
Proof.
  revert acc. induction referrals as [|r l IH]; intros acc Hnd.
  - simpl. now rewrite app_nil_r.
  - cbn [fold_left]. unfold provider_assign at 2. unfold keyed in *.
    cbn [filter] in *.
    destruct (String.eqb (st_referral_id r) "__proto__"); cbn [negb] in *.
    + now apply IH.
    + cbn [map] in *. rewrite own_set_new.
      * rewrite IH.
        -- now rewrite <- app_assoc.
        -- rewrite map_app. cbn [map fst]. now rewrite <- app_assoc.
      * apply NoDup_remove_2 in Hnd. intros Hin. apply Hnd.
        apply in_or_app. now left.
Qed.

(** X24. The provider counts every fetched referral once.  When the
    fetched referrals other than one named "__proto__" carry pairwise
    distinct referral_ids, the provider's map holds exactly those referrals
    and its metrics count them: total is their number, and completed,
    cancelled, scheduled and noAppointment are the counts over the fetched
    list.  A referral named "__proto__" gets no key and is not counted. *)
Theorem provider_counts_each_referral (referrals : list ReferralState) :
  NoDup (map st_referral_id (keyed referrals)) ->
  let d := provider_metrics referrals in
  let l := keyed referrals in
  Permutation (values (provider_map referrals)) l
  /\ total d = Z.of_nat (List.length l)
  /\ completed d = count_where is_completed l
  /\ cancelled d = count_where is_cancelled l
  /\ scheduled d = count_where (fun r => in_progress r && has_active r) l
  /\ noAppointment d
     = count_where (fun r => in_progress r && negb (has_active r)) l.
Proof.
  intros Hnd. cbv zeta. unfold provider_metrics, provider_map.
  rewrite provider_fold by exact Hnd. cbn [app].
  set (m := map (fun r => (st_referral_id r, r)) (keyed referrals)).
  assert (Hv : Permutation (values m) (keyed referrals)).
  { unfold values. rewrite (entries_perm m). subst m.
    rewrite map_map. cbn [snd]. now rewrite map_id. }
  destruct (derived_metrics_counts m) as (H1 & H2 & H3 & _ & H4 & H5).
  cbv zeta in *.
  rewrite H1, H2, H3, H4, H5.
  rewrite !(count_where_perm _ Hv).
  repeat split; try exact Hv.
  subst m. now rewrite length_map.
Qed.

Lemma provider_counts_each_referral_witness :
  total
    (provider_metrics
       [ referral_with_duplicates "A" 0; referral_with_duplicates "__proto__" 0;
         referral_with_duplicates "B" 1 ])
  = 2.
Proof.
  destruct (@provider_counts_each_referral
              [ referral_with_duplicates "A" 0;
                referral_with_duplicates "__proto__" 0;
                referral_with_duplicates "B" 1 ]) as (_ & H & _).
  - repeat constructor; simpl; intuition discriminate.
  - exact H.
Defined.

(* ================================================================== *)
(** * Data quality of what reconcile returns *)
(* ================================================================== *)

Lemma dedup_count_nonneg (raw : list ReferralEvent) : 0 <= snd (dedup raw).
Proof.
  rewrite dedup_count.
  assert (Hle : (List.length (fst (dedup raw)) <= List.length raw)%nat).
  { rewrite <- retained_length. apply NoDup_incl_length.
    - apply NoDup_map_inv with (f := seq).
      eapply Permutation_NoDup; [|apply dedup_seqs_NoDup].
      apply Permutation_map. symmetry.
      apply (sort_perm (fun a b : ReferralEvent => JsNumber.sub (seq a) (seq b))).
    - intros e He. apply retained_first in He. tauto. }
  lia.
Qed.

Lemma count_gaps_nonneg (l : list ReferralEvent) : 0 <= count_gaps l.
Proof.
  unfold count_gaps. rewrite count_gaps_loop. apply gap_loop_nonneg. lia.
Qed.

Lemma reconcile_referral_counters_nonneg (parseISO : string -> option Z)
    (rid : string) (raw : list ReferralEvent) :
  let st := reconcile_referral parseISO rid raw in
  0 <= duplicates (metrics st)
  /\ 0 <= seqGaps (metrics st)
  /\ 0 <= terminalOverrides (metrics st).
Proof.
  cbv zeta.
  destruct (reconcile_referral_counts parseISO rid raw) as [-> ->].
  split; [apply dedup_count_nonneg|]. split; [apply count_gaps_nonneg|].
  rewrite reconcile_referral_unfold.
  destruct (finalize_frame parseISO (replayed rid raw)) as (_ & _ & -> & _).
  unfold replayed.
  destruct (replay_status rid (snd (dedup raw)) (count_gaps (retained raw))
              (retained raw) (retained raw)) as (_ & _ & ->).
  lia.
Qed.

(** X25. On what reconcile returns, the three counters behind the score
    are never negative, so a referral enters the ranking exactly when it
    has a duplicate, a gap or a terminal override, and referralsWithIssues
    is empty exactly when no referral has any. *)
Theorem issues_are_anomalies (parseISO : string -> option Z)
    (E : list ReferralEvent) (m : ReconciledMap) :
  reconcile parseISO E = Returned m ->
  (forall st, In st (values m) ->
     0 <= duplicates (metrics st)
     /\ 0 <= seqGaps (metrics st)
     /\ 0 <= terminalOverrides (metrics st)
     /\ (0 < score (to_issue st) <->
         0 < duplicates (metrics st) \/ 0 < seqGaps (metrics st)
         \/ 0 < terminalOverrides (metrics st)))
  /\ (referralsWithIssues (computeDataQualitySummary (values m)) = [] <->
      forall st, In st (values m) ->
        duplicates (metrics st) = 0 /\ seqGaps (metrics st) = 0
        /\ terminalOverrides (metrics st) = 0).
Proof.
  intros Hr.
  assert (Hnd : NoDup (map fst m)).
  { destruct (names_inherited E) eqn:Hn.
    - rewrite (reconcile_raises parseISO E Hn) in Hr. discriminate.
    - destruct (reconcile_returns parseISO E Hn) as (m' & Hr' & Hnd & _).
      rewrite Hr in Hr'. now injection Hr' as <-. }
  assert (Hpos : forall st, In st (values m) ->
             0 <= duplicates (metrics st)
             /\ 0 <= seqGaps (metrics st)
             /\ 0 <= terminalOverrides (metrics st)).
  { intros st Hin. apply (own_get_values m st Hnd) in Hin.
    destruct Hin as (rid & Hg).
    destruct (reconcile_lookup _ _ _ Hr Hg) as [_ ->].
    apply reconcile_referral_counters_nonneg. }
  split.
  - intros st Hin. destruct (Hpos st Hin) as (H1 & H2 & H3).
    repeat split; try assumption; unfold to_issue; cbn [score]; lia.
  - unfold computeDataQualitySummary. cbn [referralsWithIssues].
    set (cands := filter (fun i => 0 <? score i) (map to_issue (values m))).
    assert (Hempty : firstn 10 (sort_by_score cands) = [] <-> cands = []).
    { split.
      - intros H. apply (f_equal (@List.length _)) in H.
        rewrite length_firstn in H. unfold sort_by_score in H.
        rewrite sort_length in H.
        destruct cands; [reflexivity|simpl in H; discriminate].
      - intros ->. reflexivity. }
    rewrite Hempty. subst cands. split.
    + intros Hc st Hin. destruct (Hpos st Hin) as (H1 & H2 & H3).
      assert (Hs : ~ 0 < score (to_issue st)).
      { intros Hs.
        assert (Hx : In (to_issue st)
                       (filter (fun i => 0 <? score i)
                          (map to_issue (values m)))).
        { apply filter_In. split; [now apply in_map|now apply Z.ltb_lt]. }
        rewrite Hc in Hx. destruct Hx. }
      unfold to_issue in Hs. cbn [score] in Hs. lia.
    + intros Hz. apply filter_none. intros i Hi.
      apply in_map_iff in Hi. destruct Hi as (st & <- & Hin).
      destruct (Hz st Hin) as (H1 & H2 & H3).
      unfold to_issue. cbn [score]. rewrite H1, H2, H3. reflexivity.
Qed.

(** Scenario 1: no anomaly, no issue. *)
Lemma issues_are_anomalies_witness :
  let E := [ status_update "R1" 1 "SENT";
             appointment_set "R1" 2 "A" "2025-02-01T10:00:00Z";
             status_update "R1" 3 "SCHEDULED";
             status_update "R1" 4 "COMPLETED" ] in
  exists m,
    reconcile sample_parseISO E = Returned m
    /\ referralsWithIssues (computeDataQualitySummary (values m)) = [].
Proof.
  intros E. eexists. split; [reflexivity|].
  destruct (@issues_are_anomalies sample_parseISO E _ eq_refl) as [_ H].
  apply H. intros st [<-|[]]. repeat split.
Defined.

(* ================================================================== *)
(** * What reordering can never change *)
(* ================================================================== *)

Lemma retained_seqs_In (raw : list ReferralEvent) (n : Z) :
  In n (map seq (retained raw)) <-> In n (map seq raw).
Proof.
  split.
  - intros H. apply in_map_iff in H. destruct H as (e & <- & He).
    apply in_map. apply retained_first in He. tauto.
  - intros H. apply in_map_iff in H. destruct H as (e & <- & He).
    pose proof (dedup_has raw e He) as Hh. apply map_has_In in Hh.
    rewrite <- seqmap_keys_are_seqs in Hh by apply dedup_ok.
    apply in_map_iff in Hh. destruct Hh as (x & Hx & Hxin).
    rewrite <- Hx. apply in_map. now apply retained_In.
Qed.

Lemma retained_seqs_perm (raw raw' : list ReferralEvent) :
  Permutation raw raw' ->
  map seq (retained raw) = map seq (retained raw').
Proof.
  intros Hp.
  apply (@strict_sorted_unique _ (fun z : Z => z)).
  - apply (sorted_seqs (retained_sorted raw)).
  - apply (sorted_seqs (retained_sorted raw')).
  - intros n. rewrite !retained_seqs_In. split; apply Permutation_in;
      apply Permutation_map; [exact Hp|now symmetry].
Qed.

(** X26. Reordering never changes the bookkeeping.  For every permutation
    of the input, with no condition on its duplicates, the two results hold
    the same referrals, and each referral has the same retained sequence
    numbers, the same duplicates counter and the same seqGaps; only what is
    read from the retained payloads can differ. *)
Theorem bookkeeping_is_order_independent (parseISO : string -> option Z)
    (E E' : list ReferralEvent) (m m' : ReconciledMap) :
  Permutation E E' ->
  reconcile parseISO E = Returned m ->
  reconcile parseISO E' = Returned m' ->
  forall rid,
    match own_get rid m, own_get rid m' with
    | Some st, Some st' =>
        map seq (events st) = map seq (events st')
        /\ duplicates (metrics st) = duplicates (metrics st')
        /\ seqGaps (metrics st) = seqGaps (metrics st')
    | None, None => True
    | _, _ => False
    end.
Proof.
  intros Hp Hr Hr' rid.
  destruct (names_inherited E) eqn:Hn.
  { rewrite (reconcile_raises parseISO E Hn) in Hr. discriminate. }
  destruct (names_inherited E') eqn:Hn'.
  { rewrite (reconcile_raises parseISO E' Hn') in Hr'. discriminate. }
  destruct (reconcile_returns parseISO E Hn) as (m1 & H1 & _ & Hget).
  destruct (reconcile_returns parseISO E' Hn') as (m2 & H2 & _ & Hget').
  rewrite Hr in H1. injection H1 as <-.
  rewrite Hr' in H2. injection H2 as <-.
  rewrite Hget, Hget'.
  assert (Hpr : Permutation (events_of rid E) (events_of rid E'))
    by now apply filter_perm.
  destruct (events_of rid E) as [|e raw] eqn:X1;
    destruct (events_of rid E') as [|e' raw'] eqn:X2.
  - exact I.
  - apply Permutation_nil in Hpr. discriminate.
  - symmetry in Hpr. apply Permutation_nil in Hpr. discriminate.
  - pose proof (retained_seqs_perm Hpr) as Hs.
    rewrite !reconcile_referral_events.
    destruct (reconcile_referral_counts parseISO rid (e :: raw)) as [-> ->].
    destruct (reconcile_referral_counts parseISO rid (e' :: raw'))
      as [-> ->].
    split; [exact Hs|]. split.
    + rewrite !dedup_count, <- !retained_length.
      rewrite <- (length_map seq (retained (e :: raw))), Hs, length_map.
      now rewrite (Permutation_length Hpr).
    + unfold count_gaps. now rewrite !count_gaps_loop, Hs.
Qed.

(** The two orders of the retyped sample differ in state and agree in
    bookkeeping. *)
Lemma bookkeeping_is_order_independent_witness :
  Permutation retyped_sample (rev retyped_sample)
  /\ match lookup_state "R" (reconcile sample_parseISO retyped_sample),
          lookup_state "R" (reconcile sample_parseISO (rev retyped_sample))
    with
    | Some st, Some st' =>
        active_appointment st <> active_appointment st'
        /\ map seq (events st) = map seq (events st')
        /\ duplicates (metrics st) = duplicates (metrics st')
        /\ seqGaps (metrics st) = seqGaps (metrics st')
    | _, _ => False
    end.
Proof.
  split; [apply Permutation_rev|].
  pose proof (@bookkeeping_is_order_independent sample_parseISO
                retyped_sample (rev retyped_sample) _ _
                (Permutation_rev _) eq_refl eq_refl "R") as H.
  split; [intros Hx; vm_compute in Hx; discriminate|exact H].
Defined.
